(** * elfutils: split-unit resolution and location-expression printing

    A shallow embedding of

    - [libdw/libdw_find_split_unit.c]: [__libdw_find_split_unit], which
      pairs a skeleton unit with the split unit of its companion file;
    - [tests/varlocs.c]: [print_expr] and [print_expr_block], which walk a
      DWARF location expression and validate every operation, and the
      walk over the DIEs that calls them;
    - [tests/dwarf-getmacros.c]: [mac], [include] and [getmacros], which
      list the macros of a unit.

    Pointers are handles into explicit heaps, library calls are steps of
    a state monad that log what they did, and the use of a container
    after [dwarf_end], or of one of its units, ends the run as undefined
    behaviour.  [printf] appends to the standard output carried by the
    printing monad, and [error (EXIT_FAILURE, ...)] and a failed [assert]
    end the evaluation. *)

From Stdlib Require Import Ascii.
From stdpp Require Import base option list gmap strings numbers pretty.

Local Open Scope Z_scope.

(** ** libdw/libdw_find_split_unit.c *)

Module SplitUnit.

(** A [Dwarf_CU *]: the value [(Dwarf_CU * ) -1] says that the link was
    never tried, [NULL] that nothing was found. *)
Inductive Dwarf_CU_ptr : Type :=
| CU_minus1
| CU_NULL
| CU_at (h : nat).

#[global] Instance Dwarf_CU_ptr_eq_dec : EqDecision Dwarf_CU_ptr.
Proof. solve_decision. Defined.

(** The unit kinds of a unit header ([DW_UT_*]). *)
Inductive DW_UT : Type :=
| DW_UT_compile
| DW_UT_type
| DW_UT_partial
| DW_UT_skeleton
| DW_UT_split_compile
| DW_UT_split_type.

#[global] Instance DW_UT_eq_dec : EqDecision DW_UT.
Proof. solve_decision. Defined.

(** The attributes [__libdw_find_split_unit] reads from the unit DIE. *)
Inductive DW_AT : Type :=
| DW_AT_comp_dir
| DW_AT_dwo_name
| DW_AT_GNU_dwo_name.

#[global] Instance DW_AT_eq_dec : EqDecision DW_AT.
Proof. solve_decision. Defined.

(** An attribute of the unit DIE, reduced to what [dwarf_formstring]
    makes of it: [None] when the form is not a string form. *)
Record Dwarf_Attribute : Type := mkAttr {
  code : DW_AT;
  formstring : option string
}.

Record Dwarf_CU : Type := mkCU {
  dbg : nat;                       (* owning [Dwarf] *)
  unit_type : DW_UT;
  unit_id8 : Z;                    (* uint64_t *)
  split : Dwarf_CU_ptr;
  cudie : list Dwarf_Attribute     (* attributes of [CUDIE (cu)] *)
}.

Definition set_split (p : Dwarf_CU_ptr) (c : Dwarf_CU) : Dwarf_CU :=
  mkCU (dbg c) (unit_type c) (unit_id8 c) p (cudie c).

(** A parsed container.  [elf_fildes] is the descriptor its [Elf] still
    reads from.  [ended] says that [dwarf_end] was called on it: its
    memory, which holds its units too, is freed. *)
Record Dwarf : Type := mkDwarf {
  debugdir : option string;
  elf_fildes : option nat;
  units : list nat;                (* its units, in header order *)
  ended : bool
}.

(** What a file holds: something [dwarf_begin] rejects, or the unit
    headers (kind and signature) of a debug-info container. *)
Inductive File : Type :=
| NotDebug
| DebugInfo (hdrs : list (DW_UT * Z)).

Inductive Event : Type :=
| EvOpen (path : string) (res : option nat)
| EvBegin (fd : nat) (res : option nat)
| EvGetUnits (d : nat) (res : option nat)
| EvFdDone (d : nat)
| EvEnd (d : nat)
| EvClose (fd : nat).

#[global] Instance Event_eq_dec : EqDecision Event.
Proof. solve_decision. Defined.

Record World : Type := mkWorld {
  cus : list Dwarf_CU;             (* heap of units, indexed by handle *)
  dwarfs : list Dwarf;             (* heap of containers *)
  files : gmap string File;        (* the file system *)
  fds : gmap nat string;           (* the open descriptors *)
  trace : list Event               (* library and system calls so far *)
}.

(** Behaviour that C leaves undefined: the use of a handle that points
    nowhere, and the use of a container that was ended or of one of its
    units. *)
Inductive Undefined : Type :=
| Wild_pointer
| Use_after_free (d : nat).

#[global] Instance Undefined_eq_dec : EqDecision Undefined.
Proof. solve_decision. Defined.

(** How a run ends: it returns, or it runs into undefined behaviour;
    the world is the one it ends in. *)
Inductive Exec (A : Type) : Type :=
| Returns (a : A) (w : World)
| Faults (u : Undefined) (w : World).
Arguments Returns {A} a w.
Arguments Faults {A} u w.

(** The monad of the resolver: state over [World], and an end at the
    first undefined step. *)
Definition M (A : Type) : Type := World → Exec A.

Definition ret {A} (a : A) : M A := λ w, Returns a w.

Definition bind {A B} (m : M A) (k : A → M B) : M B :=
  λ w, match m w with
       | Returns a w' => k a w'
       | Faults u w' => Faults u w'
       end.

Declare Scope split_scope.
Delimit Scope split_scope with split.
Notation "'let*' x ':=' m 'in' k" := (bind m (λ x, k))
  (at level 10, x name, m at level 100, k at level 200) : split_scope.
Notation "m ';;' k" := (bind m (λ _, k))
  (at level 100, k at level 200, right associativity) : split_scope.
Local Open Scope split_scope.

Definition log (e : Event) : M unit :=
  λ w, Returns tt (mkWorld (cus w) (dwarfs w) (files w) (fds w) (trace w ++ [e])).

(** A read of the container [d]: undefined when there is none, and when
    it was ended. *)
Definition load_dwarf (d : nat) : M Dwarf :=
  λ w, match dwarfs w !! d with
       | None => Faults Wild_pointer w
       | Some x => if ended x then Faults (Use_after_free d) w else Returns x w
       end.

(** A write to the container [d]; every write follows a read of it. *)
Definition store_dwarf (d : nat) (x : Dwarf) : M unit :=
  λ w, Returns tt (mkWorld (cus w) (<[d := x]> (dwarfs w)) (files w) (fds w) (trace w)).

(** A read of the unit [h], which lives in the memory of its container:
    undefined when there is no such unit, and when its container was
    ended. *)
Definition load_cu (h : nat) : M Dwarf_CU :=
  λ w, match cus w !! h with
       | None => Faults Wild_pointer w
       | Some c => (load_dwarf (dbg c);; ret c) w
       end.

(** A write to the unit [h]; every write follows a read of it. *)
Definition store_cu (h : nat) (c : Dwarf_CU) : M unit :=
  λ w, Returns tt (mkWorld (<[h := c]> (cus w)) (dwarfs w) (files w) (fds w) (trace w)).

(** [open (path, O_RDONLY)]: a descriptor that is not in use, or [-1]
    ([None]) when there is no such file. *)
Definition sys_open (path : string) : M (option nat) :=
  λ w, match files w !! path with
       | None => (log (EvOpen path None);; ret None) w
       | Some _ =>
           let fd := fresh (dom (fds w)) in
           Returns (Some fd)
                   (mkWorld (cus w) (dwarfs w) (files w) (<[fd := path]> (fds w))
                            (trace w ++ [EvOpen path (Some fd)]))
       end.

(** [close (fd)]. *)
Definition sys_close (fd : nat) : M unit :=
  λ w, Returns tt (mkWorld (cus w) (dwarfs w) (files w) (delete fd (fds w))
                           (trace w ++ [EvClose fd])).

(** Modelled from the spec: the units [dwarf_begin] and [dwarf_get_units]
    (not part of the modelled sources) make of the unit headers of a
    container: one unit per header, owned by container [d], created with
    its link unresolved. *)
Definition intern_units (d : nat) (hdrs : list (DW_UT * Z)) : list Dwarf_CU :=
  (λ h, mkCU d h.1 h.2 CU_minus1 []) <$> hdrs.

(** Modelled from the spec: [dwarf_begin (fd, DWARF_C_READ)], which is
    not part of the modelled sources, parses the file as a debug-info
    container.  It is [NULL] ([None]) when the file is no such
    container; otherwise a new container whose units, in header order,
    take the next free handles of the unit heap. *)
Definition dwarf_begin (fd : nat) : M (option nat) :=
  λ w, match fds w !! fd ≫= λ p, files w !! p with
       | Some (DebugInfo hdrs) =>
           let d := length (dwarfs w) in
           let base := length (cus w) in
           Returns (Some d)
                   (mkWorld (cus w ++ intern_units d hdrs)
                            (dwarfs w ++ [mkDwarf None (Some fd)
                                            (seq base (length hdrs)) false])
                            (files w) (fds w)
                            (trace w ++ [EvBegin fd (Some d)]))
       | _ => (log (EvBegin fd None);; ret None) w
       end.

(** Modelled from the spec: [dwarf_get_units (dwarf, cu, &next, ...)],
    which is not part of the modelled sources, reads the container and
    hands out its units in header order; [next] is the unit this call
    hands out, [None] when the call says that there is no more unit. *)
Definition dwarf_get_units (d : nat) (next : option nat) : M unit :=
  load_dwarf d;;
  log (EvGetUnits d next).

(** Modelled from the spec: [elf_cntl (dwarf->elf, ELF_C_FDDONE)], which
    is not part of the modelled sources, detaches the descriptor: the
    container lets go of it and keeps its parsed content. *)
Definition elf_cntl_FDDONE (d : nat) : M unit :=
  let* x := load_dwarf d in
  store_dwarf d (mkDwarf (debugdir x) None (units x) (ended x));;
  log (EvFdDone d).

(** Modelled from the spec: [dwarf_end (dwarf)], which is not part of the
    modelled sources, discards the container with all that it holds.
    From then on every read of the container or of one of its units is
    undefined, and so is a second [dwarf_end]. *)
Definition dwarf_end (d : nat) : M unit :=
  let* x := load_dwarf d in
  store_dwarf d (mkDwarf (debugdir x) (elf_fildes x) (units x) true);;
  log (EvEnd d).

(** Modelled from the spec: [dwarf_attr (&cudie, name, &result)], which is
    not part of the modelled sources, looks an attribute up by its code;
    it is [NULL] ([None]) when the DIE has none. *)
Definition dwarf_attr (die : list Dwarf_Attribute) (name : DW_AT)
  : option Dwarf_Attribute :=
  List.find (λ a, bool_decide (code a = name)) die.

(** Modelled from the spec: [dwarf_formstring], which is not part of the
    modelled sources, reads an attribute as a string; it is [NULL]
    ([None]) for an attribute that was not found. *)
Definition dwarf_formstring (a : option Dwarf_Attribute) : option string :=
  a ≫= formstring.

Section Resolver.

(** [__libdw_filepath (debugdir, dir, file)] is not part of the modelled
    sources; it is the locator of the companion file. *)
Variable __libdw_filepath :
  option string → option string → option string → option string.

(** The test of the scan loop. *)
Definition is_split_of (cu sp : Dwarf_CU) : bool :=
  bool_decide (unit_type sp = DW_UT_split_compile)
  && (unit_id8 cu =? unit_id8 sp).

(** The [while (dwarf_get_units (split_dwarf, split, &split, ...) == 0)]
    loop; [rest] holds the units that [dwarf_get_units] has not handed
    out yet.  The condition of the loop calls [dwarf_get_units] on the
    container before every round and once more at the end, also when
    the body of the round before has called [dwarf_end] on it. *)
Fixpoint scan_units (cu d : nat) (rest : list nat) : M unit :=
  match rest with
  | [] => dwarf_get_units d None
  | sp :: rest' =>
      dwarf_get_units d (Some sp);;
      let* c := load_cu cu in
      let* s := load_cu sp in
      if is_split_of c s then
        (* Link skeleton and split compile units.  *)
        store_cu cu (set_split (CU_at sp) c);;
        (let* s' := load_cu sp in
         store_cu sp (set_split (CU_at cu) s'));;
        elf_cntl_FDDONE d
        (* break *)
      else
        (let* c' := load_cu cu in
         if decide (split c' = CU_minus1) then dwarf_end d else ret tt);;
        scan_units cu d rest'
  end.

(** The candidate path: first without, then with the compilation
    directory. *)
Definition dwo_path_of (debugdir comp_dir dwo_file : option string)
  : option string :=
  match __libdw_filepath debugdir None dwo_file with
  | Some p => Some p
  | None =>
      match comp_dir with
      | Some _ => __libdw_filepath debugdir comp_dir dwo_file
      | None => None
      end
  end.

(** The name attribute: [DW_AT_dwo_name], else [DW_AT_GNU_dwo_name]. *)
Definition dwo_name_attr (die : list Dwarf_Attribute) : option Dwarf_Attribute :=
  match dwarf_attr die DW_AT_dwo_name with
  | Some a => Some a
  | None => dwarf_attr die DW_AT_GNU_dwo_name
  end.

(** The body of the [if (cu->unit_type == DW_UT_skeleton)] block. *)
Definition try_split_file (cu : nat) (c : Dwarf_CU) : M unit :=
  let compdir := dwarf_attr (cudie c) DW_AT_comp_dir in
  match dwo_name_attr (cudie c) with
  | None => ret tt
  | Some dwo_name =>
      let comp_dir := dwarf_formstring compdir in
      let dwo_file := dwarf_formstring (Some dwo_name) in
      let* dw := load_dwarf (dbg c) in
      match dwo_path_of (debugdir dw) comp_dir dwo_file with
      | None => ret tt
      | Some dwo_path =>
          let* split_fd := sys_open dwo_path in
          match split_fd with
          | None => ret tt
          | Some fd =>
              (let* split_dwarf := dwarf_begin fd in
               match split_dwarf with
               | None => ret tt
               | Some d =>
                   let* x := load_dwarf d in
                   scan_units cu d (units x)
               end);;
              (* Always close.  *)
              sys_close fd
          end
      end
  end.

(** The last statements: a link that is still untried becomes [NULL],
    and the link is returned. *)
Definition finish (cu : nat) : M Dwarf_CU_ptr :=
  let* c := load_cu cu in
  (if decide (split c = CU_minus1)
   then store_cu cu (set_split CU_NULL c) else ret tt);;
  let* c' := load_cu cu in
  ret (split c').

Definition __libdw_find_split_unit (cu : nat) : M Dwarf_CU_ptr :=
  let* c := load_cu cu in
  (* Only try once.  *)
  if decide (split c ≠ CU_minus1) then ret (split c)
  else
    (if decide (unit_type c = DW_UT_skeleton)
     then try_split_file cu c else ret tt);;
    finish cu.

End Resolver.

(** *** Notions for the statements about the resolver *)

(** The handle [h] points to the unit [c], in a container that is there
    and was not ended. *)
Definition unit_at (w : World) (h : nat) (c : Dwarf_CU) : Prop :=
  cus w !! h = Some c
  ∧ ∃ x, dwarfs w !! dbg c = Some x ∧ ended x = false.

(** The container after [elf_cntl (..., ELF_C_FDDONE)], and after
    [dwarf_end]. *)
Definition fd_done (x : Dwarf) : Dwarf :=
  mkDwarf (debugdir x) None (units x) (ended x).

Definition end_of (x : Dwarf) : Dwarf :=
  mkDwarf (debugdir x) (elf_fildes x) (units x) true.

(** The test of the loop, on a unit header: kind split-compile and the
    skeleton's signature. *)
Definition hdr_matches (id : Z) (h : DW_UT * Z) : bool :=
  bool_decide (h.1 = DW_UT_split_compile) && (id =? h.2).

(** The worlds a resolution goes through. *)
Definition opened (w : World) (p : string) : World :=
  mkWorld (cus w) (dwarfs w) (files w)
          (<[fresh (dom (fds w)) := p]> (fds w))
          (trace w ++ [EvOpen p (Some (fresh (dom (fds w))))]).

Definition new_dwarf (w : World) (fd : nat) (hdrs : list (DW_UT * Z)) : Dwarf :=
  mkDwarf None (Some fd) (seq (length (cus w)) (length hdrs)) false.

Definition begun (w : World) (fd : nat) (hdrs : list (DW_UT * Z)) : World :=
  mkWorld (cus w ++ intern_units (length (dwarfs w)) hdrs)
          (dwarfs w ++ [new_dwarf w fd hdrs])
          (files w) (fds w)
          (trace w ++ [EvBegin fd (Some (length (dwarfs w)))]).

(** Unit [cu] is linked in world [w]: its link names a unit whose own
    link names [cu]. *)
Definition linked (w : World) (cu : nat) : Prop :=
  ∃ s c' sc, cus w !! cu = Some c' ∧ split c' = CU_at s
             ∧ cus w !! s = Some sc ∧ split sc = CU_at cu.

(** The unit [cu] of world [w] is a skeleton whose link was never tried,
    its name attribute resolves to the path [p], and [p] is a debug-info
    container with the unit headers [hdrs]: the resolution gets as far
    as the scan of that container. *)
Record reaches_scan (__libdw_filepath :
    option string → option string → option string → option string)
    (w : World) (cu : nat) (c : Dwarf_CU) (p : string)
    (hdrs : list (DW_UT * Z)) : Prop := {
  rs_cu : unit_at w cu c;
  rs_untried : split c = CU_minus1;
  rs_skeleton : unit_type c = DW_UT_skeleton;
  rs_path : ∃ a dw,
      dwo_name_attr (cudie c) = Some a ∧ dwarfs w !! dbg c = Some dw ∧
      dwo_path_of __libdw_filepath (debugdir dw)
        (dwarf_formstring (dwarf_attr (cudie c) DW_AT_comp_dir))
        (formstring a) = Some p;
  rs_file : files w !! p = Some (DebugInfo hdrs)
}.

(** The world in which the scan starts. *)
Definition at_scan (w : World) (p : string) (hdrs : list (DW_UT * Z)) : World :=
  begun (opened w p) (fresh (dom (fds w))) hdrs.

(** The world after a resolution that found nothing and made the calls
    [evs]: only the link of [cu] and the log differ. *)
Definition gave_up (w : World) (cu : nat) (c : Dwarf_CU) (evs : list Event)
  : World :=
  mkWorld (<[cu := set_split CU_NULL c]> (cus w)) (dwarfs w) (files w)
          (fds w) (trace w ++ evs).

(** The world after the scan of a container without units: the
    container stays as [dwarf_begin] made it. *)
Definition unmatched (w : World) (cu : nat) (c : Dwarf_CU) (p : string)
  : World :=
  let fd := fresh (dom (fds w)) in
  let d := length (dwarfs w) in
  mkWorld (<[cu := set_split CU_NULL c]> (cus w))
          (dwarfs w ++ [new_dwarf w fd []])
          (files w) (fds w)
          (trace w ++ [EvOpen p (Some fd); EvBegin fd (Some d);
                       EvGetUnits d None; EvClose fd]).

(** The world after the scan of a container whose first unit, with the
    header [h], matches: the two units are linked, and the container
    has let go of the descriptor. *)
Definition matched (w : World) (cu : nat) (c : Dwarf_CU) (p : string)
    (h : DW_UT * Z) (post : list (DW_UT * Z)) : World :=
  let fd := fresh (dom (fds w)) in
  let d := length (dwarfs w) in
  let sp := length (cus w) in
  mkWorld (<[sp := mkCU d h.1 h.2 (CU_at cu) []]>
             (<[cu := set_split (CU_at sp) c]>
                (cus w ++ intern_units d (h :: post))))
          (dwarfs w ++ [fd_done (new_dwarf w fd (h :: post))])
          (files w) (fds w)
          (trace w ++ [EvOpen p (Some fd); EvBegin fd (Some d);
                       EvGetUnits d (Some sp); EvFdDone d; EvClose fd]).

(** The world in which the scan of a container whose first unit does not
    match comes to the second call of [dwarf_get_units]: the container
    is ended, the descriptor is open, the skeleton is as it was. *)
Definition mismatched (w : World) (p : string) (hdrs : list (DW_UT * Z))
  : World :=
  let fd := fresh (dom (fds w)) in
  let d := length (dwarfs w) in
  mkWorld (cus w ++ intern_units d hdrs)
          (dwarfs w ++ [end_of (new_dwarf w fd hdrs)])
          (files w) (<[fd := p]> (fds w))
          (trace w ++ [EvOpen p (Some fd); EvBegin fd (Some d);
                       EvGetUnits d (Some (length (cus w))); EvEnd d]).

(** The resolver does not get to [open]: the unit is no skeleton, or it
    has neither name attribute, or the locator finds no path. *)
Definition no_candidate (__libdw_filepath :
    option string → option string → option string → option string)
    (w : World) (c : Dwarf_CU) : Prop :=
  unit_type c ≠ DW_UT_skeleton
  ∨ dwo_name_attr (cudie c) = None
  ∨ ∃ a dw, dwo_name_attr (cudie c) = Some a
            ∧ dwarfs w !! dbg c = Some dw
            ∧ dwo_path_of __libdw_filepath (debugdir dw)
                (dwarf_formstring (dwarf_attr (cudie c) DW_AT_comp_dir))
                (formstring a) = None.

(** The skeleton [c] of world [w] has a name attribute that the locator
    resolves to the path [p]. *)
Definition candidate (__libdw_filepath :
    option string → option string → option string → option string)
    (w : World) (c : Dwarf_CU) (p : string) : Prop :=
  unit_type c = DW_UT_skeleton
  ∧ ∃ a dw, dwo_name_attr (cudie c) = Some a
            ∧ dwarfs w !! dbg c = Some dw
            ∧ dwo_path_of __libdw_filepath (debugdir dw)
                (dwarf_formstring (dwarf_attr (cudie c) DW_AT_comp_dir))
                (formstring a) = Some p.

(** The calls of a resolution that returns [r], when the descriptors
    [open] are open before it: none; a failed [open]; a failed
    [dwarf_begin] and [close]; a scan that finds no unit and [close]; a
    scan that stops at a match, the detaching of the descriptor and
    [close]. *)
Inductive exit_path (open : gmap nat string)
  : Dwarf_CU_ptr → list Event → Prop :=
| exit_untouched r : exit_path open r []
| exit_open_failed p : exit_path open CU_NULL [EvOpen p None]
| exit_parse_failed p fd :
    fd ∉ dom open →
    exit_path open CU_NULL [EvOpen p (Some fd); EvBegin fd None; EvClose fd]
| exit_unmatched p fd d :
    fd ∉ dom open →
    exit_path open CU_NULL [EvOpen p (Some fd); EvBegin fd (Some d);
                            EvGetUnits d None; EvClose fd]
| exit_matched p fd d sp :
    fd ∉ dom open →
    exit_path open (CU_at sp) [EvOpen p (Some fd); EvBegin fd (Some d);
                               EvGetUnits d (Some sp); EvFdDone d;
                               EvClose fd].



(** A client that resolves one unit after the other. *)
Fixpoint resolve_each (__libdw_filepath :
    option string → option string → option string → option string)
    (l : list nat) : M (list Dwarf_CU_ptr) :=
  match l with
  | [] => ret []
  | cu :: l' =>
      let* r := __libdw_find_split_unit __libdw_filepath cu in
      let* rs := resolve_each __libdw_filepath l' in
      ret (r :: rs)
  end.

(** *** Worlds to run the resolver on *)

(** A locator: an absolute name is taken as it is, a relative one is
    looked for under the directory it is given. *)
Definition filepath_join (debugdir dir file : option string) : option string :=
  match file with
  | None => None
  | Some f =>
      if String.prefix "/" f then Some f
      else match dir with
           | Some d => Some (d +:+ "/" +:+ f)
           | None => None
           end
  end.

(** A skeleton unit with signature [id] whose split unit is to be found
    in [/build/<name>]. *)
Definition skeleton (id : Z) (name : string) : Dwarf_CU :=
  mkCU 0 DW_UT_skeleton id CU_minus1
       [mkAttr DW_AT_comp_dir (Some "/build");
        mkAttr DW_AT_GNU_dwo_name (Some name)].

(** One skeleton unit (signature [0xAA]) in a container that holds
    descriptor 3, and a companion file with the unit headers [hdrs]. *)
Definition one_skeleton (hdrs : list (DW_UT * Z)) : World :=
  mkWorld [skeleton 0xAA "a.dwo"]
          [mkDwarf None (Some 3%nat) [0%nat] false]
          {[ "/build/a.dwo" := DebugInfo hdrs ]}
          {[ 3%nat := "/bin/prog" ]}
          [].

(** Four skeleton units: the companion of the first holds its split
    unit, that of the second holds no unit, that of the third is not a
    debug-info container, and that of the fourth is not there. *)
Definition four_skeletons : World :=
  mkWorld [skeleton 0xAA "a.dwo"; skeleton 0xBB "b.dwo"; skeleton 0xCC "c.dwo";
           skeleton 0xDD "d.dwo"]
          [mkDwarf None (Some 3%nat) [0%nat; 1%nat; 2%nat; 3%nat] false]
          (<[ "/build/a.dwo" := DebugInfo [(DW_UT_split_compile, 0xAA)] ]>
           (<[ "/build/b.dwo" := DebugInfo [] ]>
            {[ "/build/c.dwo" := NotDebug ]}))
          {[ 3%nat := "/bin/prog" ]}
          [].

(** A world with one unit of kind [ut] and the attributes [attrs], and
    no file. *)
Definition lone_unit (ut : DW_UT) (attrs : list Dwarf_Attribute) : World :=
  mkWorld [mkCU 0 ut 0xAA CU_minus1 attrs]
          [mkDwarf None (Some 3%nat) [0%nat] false]
          ∅
          {[ 3%nat := "/bin/prog" ]}
          [].

(** The attributes of a skeleton whose split unit is in [/build/a.dwo]:
    both name attributes are there, and the older one names another
    file. *)
Definition both_names : list Dwarf_Attribute :=
  [mkAttr DW_AT_GNU_dwo_name (Some "old.dwo");
   mkAttr DW_AT_comp_dir (Some "/build");
   mkAttr DW_AT_dwo_name (Some "a.dwo")].

(** How a resolution of the only unit of [one_skeleton hdrs] ends, the
    calls it makes, which containers are ended at its end, and the file
    on which descriptor [4], the one that [open] hands out, is open
    then. *)
Definition resolution (hdrs : list (DW_UT * Z))
  : (Dwarf_CU_ptr + Undefined) * list Event * list bool * option string :=
  match __libdw_find_split_unit filepath_join 0 (one_skeleton hdrs) with
  | Returns r w => (inl r, trace w, ended <$> dwarfs w, fds w !! 4%nat)
  | Faults u w => (inr u, trace w, ended <$> dwarfs w, fds w !! 4%nat)
  end.

End SplitUnit.

(** ** tests/varlocs.c *)

Module Varlocs.

(** The operations [print_expr] tells apart ([Dwarf_Op.atom]).  [DW_OP_lit
    n], [DW_OP_reg n] and [DW_OP_breg n] stand for [DW_OP_lit0] ...
    [DW_OP_lit31] and so on; [DW_OP_other] is any code that has no case
    label in [print_expr]. *)
Inductive DW_OP : Type :=
| DW_OP_addr | DW_OP_deref
| DW_OP_const1u | DW_OP_const1s | DW_OP_const2u | DW_OP_const2s
| DW_OP_const4u | DW_OP_const4s | DW_OP_const8u | DW_OP_const8s
| DW_OP_constu | DW_OP_consts
| DW_OP_dup | DW_OP_drop | DW_OP_over | DW_OP_pick | DW_OP_swap | DW_OP_rot
| DW_OP_xderef | DW_OP_abs | DW_OP_and | DW_OP_div | DW_OP_minus | DW_OP_mod
| DW_OP_mul | DW_OP_neg | DW_OP_not | DW_OP_or | DW_OP_plus
| DW_OP_plus_uconst | DW_OP_shl | DW_OP_shr | DW_OP_shra | DW_OP_xor
| DW_OP_bra | DW_OP_eq | DW_OP_ge | DW_OP_gt | DW_OP_le | DW_OP_lt | DW_OP_ne
| DW_OP_skip
| DW_OP_lit (n : nat) | DW_OP_reg (n : nat) | DW_OP_breg (n : nat)
| DW_OP_regx | DW_OP_fbreg | DW_OP_bregx | DW_OP_piece | DW_OP_deref_size
| DW_OP_xderef_size | DW_OP_nop | DW_OP_push_object_address
| DW_OP_call2 | DW_OP_call4 | DW_OP_call_ref
| DW_OP_form_tls_address | DW_OP_call_frame_cfa | DW_OP_bit_piece
| DW_OP_implicit_value | DW_OP_stack_value | DW_OP_implicit_pointer
| DW_OP_addrx | DW_OP_constx | DW_OP_entry_value | DW_OP_const_type
| DW_OP_regval_type | DW_OP_deref_type | DW_OP_xderef_type
| DW_OP_convert | DW_OP_reinterpret
| DW_OP_GNU_push_tls_address | DW_OP_GNU_uninit
| DW_OP_GNU_implicit_pointer | DW_OP_GNU_entry_value | DW_OP_GNU_const_type
| DW_OP_GNU_regval_type | DW_OP_GNU_deref_type | DW_OP_GNU_convert
| DW_OP_GNU_reinterpret | DW_OP_GNU_parameter_ref | DW_OP_GNU_addr_index
| DW_OP_GNU_const_index | DW_OP_GNU_variable_value
| DW_OP_other (code : Z).

(** The attribute codes and DIE tags [varlocs.c] names. *)
Inductive DW_AT : Type :=
| DW_AT_location | DW_AT_const_value | DW_AT_encoding | DW_AT_byte_size
| DW_AT_bit_size | DW_AT_frame_base
| DW_AT_other (code : Z).

#[global] Instance DW_AT_eq_dec : EqDecision DW_AT.
Proof. solve_decision. Defined.

Inductive DW_TAG : Type :=
| DW_TAG_base_type | DW_TAG_formal_parameter
| DW_TAG_other (code : Z).

#[global] Instance DW_TAG_eq_dec : EqDecision DW_TAG.
Proof. solve_decision. Defined.

(** [Dwarf_Op]: an operation, its two operands and its offset. *)
Record Dwarf_Op : Type := mkOp {
  atom : DW_OP;
  number : Z;                      (* Dwarf_Word *)
  number2 : Z;                     (* Dwarf_Word *)
  offset : Z
}.

(** [Dwarf_Attribute]: code, form and the address of the value. *)
Record Dwarf_Attribute : Type := mkAttr {
  code : DW_AT;
  form : Z;
  valp : Z
}.

(** [Dwarf_Die], a handle. *)
Record Dwarf_Die : Type := mkDie { die_addr : Z }.

(** [Dwarf_Block]: a length and the bytes. *)
Record Dwarf_Block : Type := mkBlock {
  block_length : Z;                (* Dwarf_Word length *)
  block_data : list Z              (* unsigned char *data *)
}.

(** A block whose [data] holds [length] bytes. *)
Definition block_wf (b : Dwarf_Block) : Prop :=
  block_length b = Z.of_nat (length (block_data b)).

(** The libdw calls of [varlocs.c], which are not part of the modelled
    sources, and the two name tables of [known-dwarf.h].  A call that
    returns [0] and fills a result is [Some] of that result; a nullable
    [Dwarf_Attribute *] or [Dwarf_CFI *] argument is an [option]. *)
Record Libdw : Type := mkLibdw {
  dwarf_opcode_string : DW_OP → string;
  dwarf_encoding_string : Z → string;        (* of an unsigned int *)
  dwarf_errmsg : string;
  dwarf_getlocation_attr :
    option Dwarf_Attribute → Dwarf_Op → option Dwarf_Attribute;
  dwarf_getlocation_die :
    option Dwarf_Attribute → Dwarf_Op → option Dwarf_Die;
  dwarf_getlocation : Dwarf_Attribute → option (list Dwarf_Op);
  (* with [maxlocs = 1]: the return value and the expression *)
  dwarf_getlocation_addr : Dwarf_Attribute → Z → Z * list Dwarf_Op;
  dwarf_getlocation_implicit_value :
    option Dwarf_Attribute → Dwarf_Op → option Dwarf_Block;
  dwarf_getlocation_implicit_pointer :
    option Dwarf_Attribute → Dwarf_Op → option Dwarf_Attribute;
  dwarf_formblock : Dwarf_Attribute → option Dwarf_Block;
  dwarf_formaddr : Dwarf_Attribute → option Z;
  dwarf_formudata : Dwarf_Attribute → option Z;
  dwarf_dieoffset : Dwarf_Die → Z;
  dwarf_cuoffset : Dwarf_Die → Z;
  dwarf_tag : Dwarf_Die → DW_TAG;
  dwarf_attr : Dwarf_Die → DW_AT → option Dwarf_Attribute;
  dwarf_hasattr : Dwarf_Die → DW_AT → bool;
  dwarf_diename : Dwarf_Die → option string;
  dwarf_cfi_addrframe : option Z → Z → option Z;
  dwarf_frame_cfa : Z → option (list Dwarf_Op)
}.

(** Modelled from the spec: [dwarf_whatattr] and [dwarf_whatform], which
    are not part of the modelled sources, read the code and the form of
    an attribute. *)
Definition dwarf_whatattr (a : Dwarf_Attribute) : DW_AT := code a.
Definition dwarf_whatform (a : Dwarf_Attribute) : Z := form a.

(** The global variables of [varlocs.c]. *)
Record Globals : Type := mkGlobals {
  cfi_debug : option Z;            (* Dwarf_CFI *, NULL is None *)
  cfi_debug_bias : Z;
  cfi_eh : option Z;
  cfi_eh_bias : Z;
  is_ET_REL : bool;
  is_debug : bool;
  has_frame_base : bool
}.

(** *** Integers and their renderings *)

Definition wrap64 (n : Z) : Z := n mod 2 ^ 64.

(** [(Dwarf_Sword) n] for a 64-bit word [n]. *)
Definition to_sword (n : Z) : Z :=
  if wrap64 n <? 2 ^ 63 then wrap64 n else wrap64 n - 2 ^ 64.

(** [%" PRIu64 "], [%" PRId64 "], [%zd]. *)
Definition dec (n : Z) : string := pretty n.

Definition hex_digit (n : N) : Ascii.ascii :=
  default "0"%char (String.list_ascii_of_string "0123456789abcdef" !! N.to_nat n).

Fixpoint hex_go (fuel : nat) (n : N) (acc : string) : string :=
  match fuel with
  | O => acc
  | S fuel' =>
      let acc' := String (hex_digit (n mod 16)) acc in
      if (n / 16 =? 0)%N then acc' else hex_go fuel' (n / 16)%N acc'
  end.

(** [%" PRIx64 "] and [%x]. *)
Definition hex (n : Z) : string :=
  hex_go (S (N.size_nat (Z.to_N n))) (Z.to_N n) "".

(** [%02x]. *)
Definition hex02 (n : Z) : string :=
  if (String.length (hex n) <? 2)%nat then "0" +:+ hex n else hex n.

(** [%s] of a string that may be [NULL]. *)
Definition str (s : option string) : string := default "(null)" s.

(** *** The printing monad *)

(** How an evaluation ends early: [error (EXIT_FAILURE, 0, msg)], a
    failed [assert (what)], or a model that ran out of fuel. *)
Inductive Failure : Type :=
| Exit_failure (msg : string)
| Assert_failed (what : string)
| Out_of_fuel.

(** The result, with what was written to the standard output. *)
Inductive Res (A : Type) : Type :=
| Done (a : A) (out : string)
| Fatal (e : Failure) (out : string).
Arguments Done {A} a out.
Arguments Fatal {A} e out.

Definition P (A : Type) : Type := string → Res A.

Definition pret {A} (a : A) : P A := λ out, Done a out.

Definition pbind {A B} (m : P A) (k : A → P B) : P B :=
  λ out, match m out with
         | Done a out' => k a out'
         | Fatal e out' => Fatal e out'
         end.

Declare Scope print_scope.
Delimit Scope print_scope with print.
Notation "'let*' x ':=' m 'in' k" := (pbind m (λ x, k))
  (at level 10, x name, m at level 100, k at level 200) : print_scope.
Notation "m ';;' k" := (pbind m (λ _, k))
  (at level 100, k at level 200, right associativity) : print_scope.
Local Open Scope print_scope.

Definition printf (s : string) : P unit := λ out, Done tt (out +:+ s).

Definition error {A} (msg : string) : P A := λ out, Fatal (Exit_failure msg) out.

Definition assert (b : bool) (what : string) : P unit :=
  λ out, if b then Done tt out else Fatal (Assert_failed what) out.

(** [x] when the call succeeded, else [error (EXIT_FAILURE, 0, msg)]. *)
Definition or_error {A} (x : option A) (msg : string) : P A :=
  match x with
  | Some a => pret a
  | None => error msg
  end.

(** A [for] loop over the elements of a list. *)
Fixpoint for_each {A} (l : list A) (body : A → P unit) : P unit :=
  match l with
  | [] => pret tt
  | a :: l' => body a;; for_each l' body
  end.

Section Printing.

Variable L : Libdw.
Variable g : Globals.

(** [print_base_type]: BASE must be a base type DIE referenced by a typed
    DWARF expression op. *)
Definition print_base_type (base : Dwarf_Die) : P unit :=
  (if decide (dwarf_tag L base ≠ DW_TAG_base_type)
   then error "not a base type" else pret tt);;
  let* enctype :=
    or_error (dwarf_attr L base DW_AT_encoding ≫= dwarf_formudata L)
             "base type without encoding" in
  let* bits :=
    match dwarf_attr L base DW_AT_byte_size ≫= dwarf_formudata L with
    | Some bits => pret (wrap64 (bits * 8))
    | None =>
        or_error (dwarf_attr L base DW_AT_bit_size ≫= dwarf_formudata L)
                 "base type without byte or bit size"
    end in
  printf ("{" +:+ str (dwarf_diename L base) +:+ ","
          +:+ dwarf_encoding_string L (enctype mod 2 ^ 32) +:+ ","
          +:+ dec bits +:+ "@[" +:+ hex (dwarf_dieoffset L base) +:+ "]}").

Definition MAX_DEPTH : Z := 64.

(** The loop of [print_expr_block], over the operations that are left. *)
Fixpoint print_ops
    (print_expr : option Dwarf_Attribute → Dwarf_Op → Z → Z → P unit)
    (attr : option Dwarf_Attribute) (exprs : list Dwarf_Op)
    (addr depth : Z) : P unit :=
  match exprs with
  | [] => pret tt
  | expr :: rest =>
      print_expr attr expr addr depth;;
      printf (match rest with [] => "" | _ => ", " end);;
      print_ops print_expr attr rest addr depth
  end.

(** [print_expr_block], over the [print_expr] it calls; [len] is the
    length of [exprs]. *)
Definition print_expr_block_with
    (print_expr : option Dwarf_Attribute → Dwarf_Op → Z → Z → P unit)
    (attr : option Dwarf_Attribute) (exprs : list Dwarf_Op)
    (addr depth : Z) : P unit :=
  printf "{";;
  print_ops print_expr attr exprs addr depth;;
  printf "}".

(** The location of the DIE an implicit pointer or a variable value
    refers to: a constant, or the location description at the current
    address. *)
Definition print_referenced_location
    (print_expr_block : option Dwarf_Attribute → list Dwarf_Op → Z → Z → P unit)
    (attrval : Dwarf_Attribute) (addr depth : Z) : P unit :=
  if decide (dwarf_whatattr attrval = DW_AT_const_value)
  then printf "<constant value>"
  else
    (* Lookup the location description at the current address.  *)
    let '(locs, exprval) := dwarf_getlocation_addr L attrval addr in
    if locs =? 0 then printf "<no location>" (* This means "optimized out". *)
    else if locs =? 1 then print_expr_block (Some attrval) exprval addr depth
    else error ("dwarf_getlocation_addr attrval at addr 0x" +:+ hex addr
                +:+ ", locs (" +:+ dec locs +:+ "): " +:+ dwarf_errmsg L).

(** The body of [print_expr], over the [print_expr_block] it calls. *)
Definition print_expr_body
    (print_expr_block : option Dwarf_Attribute → list Dwarf_Op → Z → Z → P unit)
    (attr : option Dwarf_Attribute) (expr : Dwarf_Op) (addr depth : Z)
  : P unit :=
  if depth >? MAX_DEPTH
  then error "print_expr recursion depth exceeded"
  else
  let depth := depth + 1 in
  let opname := dwarf_opcode_string L (atom expr) in
  (* if (attr == NULL) error (EXIT_FAILURE, 0, "%s used in CFI", opname); *)
  let used_in_CFI : P unit :=
    match attr with
    | None => error (opname +:+ " used in CFI")
    | Some _ => pret tt
    end in
  match atom expr with
  | DW_OP_deref | DW_OP_dup | DW_OP_drop | DW_OP_over | DW_OP_swap
  | DW_OP_rot | DW_OP_xderef | DW_OP_abs | DW_OP_and | DW_OP_div
  | DW_OP_minus | DW_OP_mod | DW_OP_mul | DW_OP_neg | DW_OP_not | DW_OP_or
  | DW_OP_plus | DW_OP_shl | DW_OP_shr | DW_OP_shra | DW_OP_xor | DW_OP_eq
  | DW_OP_ge | DW_OP_gt | DW_OP_le | DW_OP_lt | DW_OP_ne
  | DW_OP_lit _ | DW_OP_reg _ | DW_OP_nop | DW_OP_stack_value =>
      (* No arguments. *)
      printf opname

  | DW_OP_form_tls_address | DW_OP_GNU_push_tls_address | DW_OP_GNU_uninit =>
      (* No arguments. Special. *)
      printf opname

  | DW_OP_call_frame_cfa =>
      used_in_CFI;;
      printf (opname +:+ " ");;
      (if bool_decide (cfi_eh g = None) && bool_decide (cfi_debug g = None)
          && negb (is_debug g)
       then error "DW_OP_call_frame_cfa used but no cfi found."
       else pret tt);;
      match
        match dwarf_cfi_addrframe L (cfi_eh g) (wrap64 (addr + cfi_eh_bias g)) with
        | Some frame => Some frame
        | None =>
            dwarf_cfi_addrframe L (cfi_debug g)
                                (wrap64 (addr + cfi_debug_bias g))
        end
      with
      | Some frame =>
          let* cfa_ops :=
            or_error (dwarf_frame_cfa L frame)
                     ("dwarf_frame_cfa 0x" +:+ hex addr +:+ ": "
                      +:+ dwarf_errmsg L) in
          (if (length cfa_ops <? 1)%nat
           then error "dwarf_frame_cfa no ops" else pret tt);;
          print_expr_block None cfa_ops 0 depth
      | None =>
          if is_ET_REL g || is_debug g
          then printf "{...}"
          else error ("dwarf_cfi_addrframe 0x" +:+ hex addr +:+ ": "
                      +:+ dwarf_errmsg L)
      end

  | DW_OP_push_object_address =>
      used_in_CFI;;
      printf opname

  | DW_OP_addr =>
      (* 1 address argument. *)
      printf (opname +:+ "(0x" +:+ hex (number expr) +:+ ")")

  | DW_OP_const1u | DW_OP_const2u | DW_OP_const4u | DW_OP_const8u
  | DW_OP_constu | DW_OP_pick | DW_OP_plus_uconst | DW_OP_regx
  | DW_OP_piece | DW_OP_deref_size | DW_OP_xderef_size =>
      (* 1 numeric unsigned argument. *)
      printf (opname +:+ "(" +:+ dec (number expr) +:+ ")")

  | DW_OP_call2 | DW_OP_call4 | DW_OP_call_ref =>
      (* 1 DIE offset argument for more ops in location attribute of DIE.
         Never used in CFI.  *)
      used_in_CFI;;
      let* call_attr :=
        or_error (dwarf_getlocation_attr L attr expr)
                 ("dwarf_getlocation_attr for " +:+ opname +:+ " error "
                  +:+ dwarf_errmsg L) in
      let* call_die :=
        or_error (dwarf_getlocation_die L attr expr)
                 ("dwarf_getlocation_die for " +:+ opname +:+ " error "
                  +:+ dwarf_errmsg L) in
      let* call_ops :=
        or_error (dwarf_getlocation L call_attr)
                 ("dwarf_getlocation for entry: " +:+ dwarf_errmsg L) in
      printf (opname +:+ "([" +:+ hex (dwarf_dieoffset L call_die) +:+ "]) ");;
      print_expr_block (Some call_attr) call_ops addr depth

  | DW_OP_const1s | DW_OP_const2s | DW_OP_const4s | DW_OP_const8s
  | DW_OP_consts | DW_OP_skip | DW_OP_bra | DW_OP_breg _ =>
      (* 1 numeric signed argument. *)
      printf (opname +:+ "(" +:+ dec (to_sword (number expr)) +:+ ")")

  | DW_OP_fbreg =>
      (* 1 numeric signed argument. Offset from frame base. *)
      used_in_CFI;;
      (if negb (has_frame_base g)
       then error "DW_OP_fbreg used without a frame base" else pret tt);;
      printf (opname +:+ "(" +:+ dec (to_sword (number expr)) +:+ ")")

  | DW_OP_bregx =>
      (* 2 arguments, unsigned register number, signed offset. *)
      printf (opname +:+ "(" +:+ dec (number expr) +:+ ","
              +:+ dec (to_sword (number2 expr)) +:+ ")")

  | DW_OP_bit_piece =>
      (* 2 arguments, unsigned size, unsigned offset. *)
      printf (opname +:+ "(" +:+ dec (number expr) +:+ ","
              +:+ dec (number2 expr) +:+ ")")

  | DW_OP_implicit_value =>
      (* Special, unsigned size plus block. *)
      let* const_attr :=
        or_error (dwarf_getlocation_attr L attr expr)
                 ("dwarf_getlocation_attr: " +:+ dwarf_errmsg L) in
      let* block :=
        or_error (dwarf_formblock L const_attr)
                 ("dwarf_formblock: " +:+ dwarf_errmsg L) in
      (* This is the "old" way. Check they result in the same.  *)
      let* block_impl :=
        or_error (dwarf_getlocation_implicit_value L attr expr)
                 ("dwarf_getlocation_implicit_value: " +:+ dwarf_errmsg L) in
      assert (number expr =? block_length block)
             "expr->number == block.length";;
      assert (block_length block =? block_length block_impl)
             "block.length == block_impl.length";;
      printf (opname +:+ "(" +:+ dec (block_length block) +:+ "){");;
      for_each (seq 0 (Z.to_nat (block_length block)))
        (λ i,
           printf (hex02 (block_data block !!! i));;
           assert (block_data block !!! i =? block_data block_impl !!! i)
                  "block.data[i] == block_impl.data[i]");;
      printf "}"

  | DW_OP_implicit_pointer | DW_OP_GNU_implicit_pointer =>
      (* Special, DIE offset, signed offset. Referenced DIE has a
         location or const_value attribute. *)
      used_in_CFI;;
      let* attrval :=
        or_error (dwarf_getlocation_implicit_pointer L attr expr)
                 ("dwarf_getlocation_implicit_pointer: " +:+ dwarf_errmsg L) in
      (* Sanity check, results should be the same.  *)
      let* attrval2 :=
        or_error (dwarf_getlocation_attr L attr expr)
                 ("dwarf_getlocation_attr: " +:+ dwarf_errmsg L) in
      assert (bool_decide (dwarf_whatattr attrval = dwarf_whatattr attrval2))
             "dwarf_whatattr (&attrval) == dwarf_whatattr (&attrval2)";;
      assert (dwarf_whatform attrval =? dwarf_whatform attrval2)
             "dwarf_whatform (&attrval) == dwarf_whatform (&attrval2)";;
      assert (valp attrval =? valp attrval2)
             "attrval.valp == attrval2.valp";;
      let* impl_die :=
        or_error (dwarf_getlocation_die L attr expr)
                 ("dwarf_getlocation_die: " +:+ dwarf_errmsg L) in
      printf (opname +:+ "([" +:+ hex (dwarf_dieoffset L impl_die) +:+ "],"
              +:+ dec (to_sword (number2 expr)) +:+ ") ");;
      print_referenced_location print_expr_block attrval addr depth

  | DW_OP_GNU_variable_value =>
      (* Special, DIE offset. Referenced DIE has a location or const_value
         attribute. *)
      used_in_CFI;;
      let* attrval :=
        or_error (dwarf_getlocation_attr L attr expr)
                 ("dwarf_getlocation_attr: " +:+ dwarf_errmsg L) in
      let* impl_die :=
        or_error (dwarf_getlocation_die L attr expr)
                 ("dwarf_getlocation_die: " +:+ dwarf_errmsg L) in
      printf (opname +:+ "([" +:+ hex (dwarf_dieoffset L impl_die) +:+ "]) ");;
      print_referenced_location print_expr_block attrval addr depth

  | DW_OP_entry_value | DW_OP_GNU_entry_value =>
      (* Special, unsigned size plus expression block. *)
      let* entry_attr :=
        or_error (dwarf_getlocation_attr L attr expr)
                 ("dwarf_getlocation_attr: " +:+ dwarf_errmsg L) in
      let* entry_ops :=
        or_error (dwarf_getlocation L entry_attr)
                 ("dwarf_getlocation for entry: " +:+ dwarf_errmsg L) in
      printf (opname +:+ "(" +:+ dec (Z.of_nat (length entry_ops)) +:+ ") ");;
      print_expr_block attr entry_ops addr depth

  | DW_OP_GNU_parameter_ref =>
      (* Special, unsigned CU relative DIE offset pointing to a
         DW_TAG_formal_parameter. *)
      let* param :=
        or_error (dwarf_getlocation_die L attr expr)
                 ("dwarf_getlocation_die: " +:+ dwarf_errmsg L) in
      printf (opname +:+ "[" +:+ hex (dwarf_dieoffset L param) +:+ "]");;
      assert (number expr =? dwarf_cuoffset L param)
             "expr->number == dwarf_cuoffset (&param)";;
      if decide (dwarf_tag L param ≠ DW_TAG_formal_parameter)
      then error "Not a formal parameter" else pret tt

  | DW_OP_convert | DW_OP_GNU_convert | DW_OP_reinterpret
  | DW_OP_GNU_reinterpret =>
      (* Special, unsigned CU relative DIE offset pointing to a
         DW_TAG_base_type.  When the argument is zero the value becomes
         untyped again. *)
      let off := number expr in
      if negb (off =? 0)
      then
        let* type :=
          or_error (dwarf_getlocation_die L attr expr)
                   ("dwarf_getlocation_die: " +:+ dwarf_errmsg L) in
        assert (number expr =? dwarf_cuoffset L type)
               "expr->number == dwarf_cuoffset (&type)";;
        printf opname;;
        print_base_type type
      else printf (opname +:+ "[" +:+ dec off +:+ "]")

  | DW_OP_regval_type | DW_OP_GNU_regval_type =>
      (* Special, unsigned register number plus unsigned CU relative
         DIE offset pointing to a DW_TAG_base_type. *)
      let* type :=
        or_error (dwarf_getlocation_die L attr expr)
                 ("dwarf_getlocation_die: " +:+ dwarf_errmsg L) in
      assert (number2 expr =? dwarf_cuoffset L type)
             "expr->number2 == dwarf_cuoffset (&type)";;
      printf (opname +:+ "(reg" +:+ dec (number expr) +:+ ")");;
      print_base_type type

  | DW_OP_deref_type | DW_OP_GNU_deref_type =>
      (* Special, unsigned size plus unsigned CU relative DIE offset
         pointing to a DW_TAG_base_type. *)
      let* type :=
        or_error (dwarf_getlocation_die L attr expr)
                 ("dwarf_getlocation_die: " +:+ dwarf_errmsg L) in
      assert (number2 expr =? dwarf_cuoffset L type)
             "expr->number2 == dwarf_cuoffset (&type)";;
      printf (opname +:+ "(" +:+ dec (number expr) +:+ ")");;
      print_base_type type

  | DW_OP_xderef_type =>
      (* Special, unsigned size plus unsigned DIE offset
         pointing to a DW_TAG_base_type. *)
      let* type :=
        or_error (dwarf_getlocation_die L attr expr)
                 ("dwarf_getlocation_die: " +:+ dwarf_errmsg L) in
      printf (opname +:+ "(" +:+ dec (number expr) +:+ ")");;
      print_base_type type

  | DW_OP_const_type | DW_OP_GNU_const_type =>
      (* Special, unsigned CU relative DIE offset pointing to a
         DW_TAG_base_type, an unsigned size length plus a block with
         the constant value. *)
      let* type :=
        or_error (dwarf_getlocation_die L attr expr)
                 ("dwarf_getlocation_die: " +:+ dwarf_errmsg L) in
      assert (number expr =? dwarf_cuoffset L type)
             "expr->number == dwarf_cuoffset (&type)";;
      let* const_attr :=
        or_error (dwarf_getlocation_attr L attr expr)
                 ("dwarf_getlocation_attr for type: " +:+ dwarf_errmsg L) in
      let* block :=
        or_error (dwarf_formblock L const_attr)
                 ("dwarf_formblock for type: " +:+ dwarf_errmsg L) in
      printf opname;;
      print_base_type type;;
      printf ("(" +:+ dec (block_length block) +:+ ")[");;
      for_each (seq 0 (Z.to_nat (block_length block)))
        (λ i, printf (hex02 (block_data block !!! i)));;
      printf "]"

  | DW_OP_GNU_addr_index | DW_OP_addrx =>
      (* Address from the .debug_addr section (indexed based on CU).  *)
      let* addr_attr :=
        or_error (dwarf_getlocation_attr L attr expr)
                 ("dwarf_getlocation_attr for addr: " +:+ dwarf_errmsg L) in
      let* address :=
        or_error (dwarf_formaddr L addr_attr)
                 ("dwarf_formaddr address failed: " +:+ dwarf_errmsg L) in
      printf ("addr: 0x" +:+ hex address)

  | DW_OP_GNU_const_index | DW_OP_constx =>
      (* Constant from the .debug_addr section (indexed based on CU).  *)
      let* addr_attr :=
        or_error (dwarf_getlocation_attr L attr expr)
                 ("dwarf_getlocation_attr for addr: " +:+ dwarf_errmsg L) in
      let* constant :=
        or_error (dwarf_formudata L addr_attr)
                 ("dwarf_formudata constant failed: " +:+ dwarf_errmsg L) in
      printf ("const: 0x" +:+ hex constant)

  | DW_OP_other code =>
      error ("unhandled opcode: DW_OP_" +:+ opname +:+ " (0x" +:+ hex code
             +:+ ")")
  end.

(** [print_expr] with a bound on the nesting of the calls. *)
Fixpoint print_expr_fuel (fuel : nat)
    (attr : option Dwarf_Attribute) (expr : Dwarf_Op) (addr depth : Z)
  : P unit :=
  match fuel with
  | O => λ out, Fatal Out_of_fuel out
  | S fuel' =>
      print_expr_body (print_expr_block_with (print_expr_fuel fuel'))
                      attr expr addr depth
  end.

(** The nesting left at [depth]: the guard of [print_expr] stops every
    call with a depth above [MAX_DEPTH]. *)
Definition fuel_at (depth : Z) : nat := S (Z.to_nat (MAX_DEPTH + 1 - depth)).

Definition print_expr (attr : option Dwarf_Attribute) (expr : Dwarf_Op)
    (addr depth : Z) : P unit :=
  print_expr_fuel (fuel_at depth) attr expr addr depth.

Definition print_expr_block (attr : option Dwarf_Attribute)
    (exprs : list Dwarf_Op) (addr depth : Z) : P unit :=
  print_expr_block_with print_expr attr exprs addr depth.

(** [handle_die]: whether this or any outer DIE has a frame base; the
    value is stored in [has_frame_base] before the attributes of the DIE
    are printed. *)
Definition die_has_frame_base (die : Dwarf_Die) (outer_has_frame_base : bool)
  : bool :=
  dwarf_hasattr L die DW_AT_frame_base || outer_has_frame_base.

(** [print_expr_block_addrs]: the expression of one address range,
    printed from depth 0. *)
Definition print_expr_block_addrs (attr : option Dwarf_Attribute)
    (begin end_ : Z) (exprs : list Dwarf_Op) : P unit :=
  printf ("      [" +:+ hex begin +:+ "," +:+ hex end_ +:+ ") ");;
  print_expr_block attr exprs begin 0;;
  printf "
".

End Printing.

(** The globals after [has_frame_base = b]. *)
Definition set_has_frame_base (b : bool) (g : Globals) : Globals :=
  mkGlobals (cfi_debug g) (cfi_debug_bias g) (cfi_eh g) (cfi_eh_bias g)
            (is_ET_REL g) (is_debug g) b.

(** *** Notions for the statements about the printer *)

(** A computation that does not end for lack of fuel. *)
Definition fueled {A} (m : P A) : Prop :=
  ∀ out out', m out ≠ Fatal Out_of_fuel out'.

(** The output after the bytes [l], two hexadecimal digits each. *)
Fixpoint out_bytes (out : string) (l : list Z) : string :=
  match l with
  | [] => out
  | b :: l' => out_bytes (out +:+ hex02 b) l'
  end.

(** What is printed before the location of the referenced DIE. *)
Definition reference_header (L : Libdw) (expr : Dwarf_Op) (impl_die : Dwarf_Die) : string :=
  match atom expr with
  | DW_OP_GNU_variable_value =>
      dwarf_opcode_string L (atom expr) +:+ "(["
      +:+ hex (dwarf_dieoffset L impl_die) +:+ "]) "
  | _ =>
      dwarf_opcode_string L (atom expr) +:+ "(["
      +:+ hex (dwarf_dieoffset L impl_die) +:+ "],"
      +:+ dec (to_sword (number2 expr)) +:+ ") "
  end.

(** *** The location list lookup *)

(** An entry of a location list: a base-address entry, or an address
    range with its expression. *)
Inductive LocListEntry : Type :=
| BaseAddress (base : Z)
| Range (begin end_ : Z) (expr : list Dwarf_Op).

(** Modelled from the spec: the expressions of the entries of a location
    list that cover [addr].  [dwarf_getlocation_addr] is not part of the
    modelled sources.  Ranges are half-open and relative to the current
    base address; a base-address entry sets the base for the entries
    after it and covers nothing; an empty range covers nothing. *)
Fixpoint covering (base : Z) (entries : list LocListEntry) (addr : Z)
  : list (list Dwarf_Op) :=
  match entries with
  | [] => []
  | BaseAddress b :: rest => covering b rest addr
  | Range b e expr :: rest =>
      if (base + b <=? addr) && (addr <? base + e)
      then expr :: covering base rest addr
      else covering base rest addr
  end.

(** Modelled from the spec: [dwarf_getlocation_addr] asked for one
    location, the single-shot lookup.  No covering entry is no location
    ([0]), one covering entry is returned ([1]), more than one is an
    error ([-1]). *)
Definition single_shot_lookup (base : Z) (entries : list LocListEntry)
    (addr : Z) : Z * list Dwarf_Op :=
  match covering base entries addr with
  | [] => (0, [])
  | [expr] => (1, expr)
  | _ => (-1, [])
  end.

(** *** A library to run the printer on *)

(** Names for the operations of the examples. *)
Definition example_opcode_string (op : DW_OP) : string :=
  match op with
  | DW_OP_nop => "nop"
  | DW_OP_call2 => "call2"
  | DW_OP_fbreg => "fbreg"
  | DW_OP_call_frame_cfa => "call_frame_cfa"
  | DW_OP_implicit_value => "implicit_value"
  | DW_OP_implicit_pointer => "implicit_pointer"
  | DW_OP_GNU_variable_value => "GNU_variable_value"
  | DW_OP_breg _ => "breg"
  | DW_OP_reg _ => "reg"
  | DW_OP_stack_value => "stack_value"
  | _ => "op"
  end.

(** Attributes are told apart by [valp].  The attribute an operation of
    attribute [a] refers to is attribute [valp a + 1]; the location of
    attribute [n] is one [DW_OP_call2] while [n < calls], and one
    [DW_OP_nop] from there on.  The raw-form path yields the block
    [raw], the implicit-value accessor the block [impl]; every
    attribute has the location list [loclist]; the call-frame table [1]
    has a frame for the addresses below [0x1000]. *)
Definition example_libdw (calls : Z) (raw impl : Dwarf_Block)
    (loclist : list LocListEntry) : Libdw :=
  mkLibdw
    example_opcode_string
    (λ _, "signed")
    "invalid DWARF"
    (λ attr _, (λ a, mkAttr DW_AT_location 0x18 (valp a + 1)) <$> attr)
    (λ attr expr, (λ _, mkDie (number expr)) <$> attr)
    (λ a, Some [if valp a <? calls
                then mkOp DW_OP_call2 (valp a + 1) 0 0
                else mkOp DW_OP_nop 0 0 0])
    (λ _ addr, single_shot_lookup 0 loclist addr)
    (λ _ _, Some impl)
    (λ attr _, (λ a, mkAttr DW_AT_location 0x18 (valp a + 1)) <$> attr)
    (λ _, Some raw)
    (λ _, None)
    (λ _, None)
    die_addr
    die_addr
    (λ _, DW_TAG_other 0x34)
    (λ _ _, None)
    (λ _ _, false)
    (λ _, None)
    (λ cfi addr, match cfi with
                 | Some 1 => if addr <? 0x1000 then Some 7 else None
                 | _ => None
                 end)
    (λ _, Some [mkOp (DW_OP_breg 7) 8 0 0]).

(** Globals: the call-frame tables, the two mode flags, the frame base. *)
Definition example_globals (eh debug : option Z) (rel dbg fb : bool)
  : Globals :=
  mkGlobals debug 0 eh 0 rel dbg fb.

(** A location attribute, and a chain of [calls] nested calls under it,
    printed for the range [0x10, 0x20). *)
Definition location_attr : Dwarf_Attribute := mkAttr DW_AT_location 0x18 0.

Definition call_chain (calls : Z) : Res unit :=
  let L := example_libdw calls (mkBlock 0 []) (mkBlock 0 []) [] in
  let g := example_globals None None false false true in
  print_expr_block_addrs L g (Some location_attr) 0x10 0x20
    [mkOp DW_OP_call2 1 0 0] "".

(** The library of the examples: no nested calls, both paths to the
    implicit value yield the bytes [01 ff], and a location list whose
    last two ranges, [0x100, 0x110) and [0x108, 0x120), overlap. *)
Definition example_loclist : list LocListEntry :=
  [Range 0 16 [mkOp (DW_OP_reg 5) 0 0 0];
   BaseAddress 0x100;
   Range 0 16 [mkOp DW_OP_nop 0 0 0];
   Range 8 32 [mkOp DW_OP_stack_value 0 0 0]].

Definition plain_libdw : Libdw :=
  example_libdw 0 (mkBlock 2 [1; 255]) (mkBlock 2 [1; 255]) example_loclist.

(** The same, but the accessor yields one byte more than the raw form. *)
Definition mismatch_libdw : Libdw :=
  example_libdw 0 (mkBlock 2 [1; 255]) (mkBlock 3 [1; 255; 0]) example_loclist.

(** An executable with an exception-handling table and a frame base. *)
Definition executable_globals : Globals :=
  example_globals (Some 1) None false false true.

(** A relocatable file with an exception-handling table. *)
Definition relocatable_globals : Globals :=
  example_globals (Some 1) None true false true.

(** A relocatable file without any call-frame table, not in debug mode. *)
Definition relocatable_no_cfi_globals : Globals :=
  example_globals None None true false true.

End Varlocs.

(** ** Notions for more statements about the printer *)

Module VarlocsNotions.
Import Varlocs.

(** The operations whose case in [print_expr] starts with
    [if (attr == NULL) error (..., "%s used in CFI", opname)]. *)
Definition attribute_relative (op : DW_OP) : bool :=
  match op with
  | DW_OP_call_frame_cfa | DW_OP_push_object_address
  | DW_OP_call2 | DW_OP_call4 | DW_OP_call_ref | DW_OP_fbreg
  | DW_OP_implicit_pointer | DW_OP_GNU_implicit_pointer
  | DW_OP_GNU_variable_value => true
  | _ => false
  end.

(** The operations of the case "1 numeric signed argument". *)
Definition signed_operand (op : DW_OP) : bool :=
  match op with
  | DW_OP_const1s | DW_OP_const2s | DW_OP_const4s | DW_OP_const8s
  | DW_OP_consts | DW_OP_skip | DW_OP_bra | DW_OP_breg _ => true
  | _ => false
  end.

(** The operations of the case "1 numeric unsigned argument". *)
Definition unsigned_operand (op : DW_OP) : bool :=
  match op with
  | DW_OP_const1u | DW_OP_const2u | DW_OP_const4u | DW_OP_const8u
  | DW_OP_constu | DW_OP_pick | DW_OP_plus_uconst | DW_OP_regx
  | DW_OP_piece | DW_OP_deref_size | DW_OP_xderef_size => true
  | _ => false
  end.

(** The operations of the cases "No arguments", special or not. *)
Definition no_operand (op : DW_OP) : bool :=
  match op with
  | DW_OP_deref | DW_OP_dup | DW_OP_drop | DW_OP_over | DW_OP_swap
  | DW_OP_rot | DW_OP_xderef | DW_OP_abs | DW_OP_and | DW_OP_div
  | DW_OP_minus | DW_OP_mod | DW_OP_mul | DW_OP_neg | DW_OP_not | DW_OP_or
  | DW_OP_plus | DW_OP_shl | DW_OP_shr | DW_OP_shra | DW_OP_xor | DW_OP_eq
  | DW_OP_ge | DW_OP_gt | DW_OP_le | DW_OP_lt | DW_OP_ne
  | DW_OP_lit _ | DW_OP_reg _ | DW_OP_nop | DW_OP_stack_value
  | DW_OP_form_tls_address | DW_OP_GNU_push_tls_address
  | DW_OP_GNU_uninit => true
  | _ => false
  end.

(** What is printed for an operation that shows nothing but its name and
    its operands; [None] for the other operations. *)
Definition operands_only (L : Libdw) (expr : Dwarf_Op) : option string :=
  let opname := dwarf_opcode_string L (atom expr) in
  if no_operand (atom expr) then Some opname
  else if unsigned_operand (atom expr)
  then Some (opname +:+ "(" +:+ dec (number expr) +:+ ")")
  else if signed_operand (atom expr)
  then Some (opname +:+ "(" +:+ dec (to_sword (number expr)) +:+ ")")
  else match atom expr with
       | DW_OP_addr => Some (opname +:+ "(0x" +:+ hex (number expr) +:+ ")")
       | DW_OP_bregx =>
           Some (opname +:+ "(" +:+ dec (number expr) +:+ ","
                 +:+ dec (to_sword (number2 expr)) +:+ ")")
       | DW_OP_bit_piece =>
           Some (opname +:+ "(" +:+ dec (number expr) +:+ ","
                 +:+ dec (number2 expr) +:+ ")")
       | _ => None
       end.

(** The strings [ss] with [", "] between them. *)
Fixpoint join_ops (ss : list string) : string :=
  match ss with
  | [] => ""
  | [s] => s
  | s :: ss' => s +:+ ", " +:+ join_ops ss'
  end.

(** The strings [ss], each followed by [", "]. *)
Fixpoint listed (ss : list string) : string :=
  match ss with
  | [] => ""
  | s :: ss' => s +:+ ", " +:+ listed ss'
  end.

(** A result with [out] put before its output. *)
Definition after {A} (out : string) (r : Res A) : Res A :=
  match r with
  | Done a o => Done a (out +:+ o)
  | Fatal e o => Fatal e (out +:+ o)
  end.

(** A computation that only appends to the output, and does the same
    whatever was printed before. *)
Definition appends {A} (m : P A) : Prop := ∀ out, m out = after out (m "").

(** What [print_base_type] prints for a base type with the name [name],
    the encoding [enctype] and [bits] bits at the offset [off]. *)
Definition base_type_text (L : Libdw) (name : option string)
    (enctype bits off : Z) : string :=
  "{" +:+ str name +:+ "," +:+ dwarf_encoding_string L (enctype mod 2 ^ 32)
  +:+ "," +:+ dec bits +:+ "@[" +:+ hex off +:+ "]}".

(** A library with two DIEs to look at: DIE [1] is a base type "int"
    (encoding 5, byte size 4, and a bit size that is not looked at), DIE
    [2] a formal parameter; every other DIE is a type without sizes.  An
    attribute holds its value in [valp]; a DIE reference of an operation
    is its first operand, or its second one for the operations that take
    a register or a size first. *)
Definition typed_libdw : Libdw :=
  mkLibdw
    example_opcode_string
    (λ enc, if enc =? 5 then "signed" else "<unknown encoding>")
    "invalid DWARF"
    (λ attr _, attr)
    (λ _ expr,
       match atom expr with
       | DW_OP_regval_type | DW_OP_deref_type => Some (mkDie (number2 expr))
       | _ => if number expr =? 0 then None else Some (mkDie (number expr))
       end)
    (λ _, None)
    (λ _ addr, (0, []))
    (λ _ _, None)
    (λ _ _, None)
    (λ _, None)
    (λ _, None)
    (λ a, Some (valp a))
    die_addr
    die_addr
    (λ die, if die_addr die =? 1 then DW_TAG_base_type
            else if die_addr die =? 2 then DW_TAG_formal_parameter
            else if die_addr die =? 3 then DW_TAG_base_type
            else DW_TAG_other 0x34)
    (λ die code,
       if die_addr die =? 1
       then match code with
            | DW_AT_encoding => Some (mkAttr DW_AT_encoding 0x0b 5)
            | DW_AT_byte_size => Some (mkAttr DW_AT_byte_size 0x0b 4)
            | DW_AT_bit_size => Some (mkAttr DW_AT_bit_size 0x0b 31)
            | _ => None
            end
       else if die_addr die =? 3
       then match code with
            | DW_AT_encoding => Some (mkAttr DW_AT_encoding 0x0b 5)
            | _ => None
            end
       else None)
    (λ _ _, false)
    (λ die, if die_addr die =? 1 then Some "int" else None)
    (λ _ _, None)
    (λ _, None).

End VarlocsNotions.

(** ** tests/varlocs.c: the functions and the walk over all DIEs *)

Module VarlocsWalk.
Import Varlocs.
Local Open Scope print_scope.

(** The DIE tree: [dwarf_child] of a DIE is its first child,
    [dwarf_siblingof] the DIE after it among the children of its
    parent. *)
#[warnings="-register-all"]
Inductive DieTree : Type :=
| DieNode (die : Dwarf_Die) (children : list DieTree).

(** What a callback of [dwarf_getattrs], [dwarf_getfuncs] or
    [dwarf_func_inline_instances] returns. *)
Inductive callback_result : Type :=
| DWARF_CB_OK
| DWARF_CB_ABORT.

(** The tags and the form that [varlocs.c] names beside those of
    [DW_TAG], with their numbers in the DWARF standard. *)
Definition DW_TAG_variable : DW_TAG := DW_TAG_other 0x34.
Definition DW_TAG_subprogram : DW_TAG := DW_TAG_other 0x2e.
Definition DW_TAG_inlined_subroutine : DW_TAG := DW_TAG_other 0x1d.
Definition DW_FORM_exprloc : Z := 0x18.

(** More libdw calls and tables, which are not part of the modelled
    sources.  A call that is made again and again with the offset it
    returned is the list of what it delivers while it returns a positive
    offset, with [true] when it ends by returning [0] and [false] when it
    ends by returning a negative value: [dwarf_ranges],
    [dwarf_getlocations], the attributes of [dwarf_getattrs] and the
    instances of [dwarf_func_inline_instances].  [dwarf_child] is [None]
    for a negative result, and else the child with the siblings that
    [dwarf_siblingof] reaches from it, none when the result is [1].
    [dwarf_getscopes_die] is the array of scopes, [None] for a negative
    result. *)
Record Libdw_walk : Type := mkLibdw_walk {
  dwarf_tag_string : DW_TAG → string;
  dwarf_attr_string : DW_AT → string;
  dwarf_form_string : Z → string;
  dwarf_entrypc : Dwarf_Die → option Z;
  dwarf_ranges : Dwarf_Die → list (Z * Z) * bool;
  dwarf_getlocations : Dwarf_Attribute → list (Z * Z * list Dwarf_Op) * bool;
  die_attrs : Dwarf_Die → list Dwarf_Attribute * bool;
  dwarf_haschildren : Dwarf_Die → bool;
  dwarf_child : Dwarf_Die → option (list Dwarf_Die);
  dwarf_getscopes_die : Dwarf_Die → option (list Dwarf_Die);
  dwarf_func_inline : Dwarf_Die → Z;
  dwarf_func_inline_instances : Dwarf_Die → list Dwarf_Die * bool
}.

(** The newline and the double quote. *)
Definition nl : string := String (Ascii.ascii_of_nat 10) "".
Definition dquote : string := String (Ascii.ascii_of_nat 34) "".

(** [%*s] of the empty string: [|n|] spaces. *)
Definition spaces (n : Z) : string :=
  foldr (λ _ s, String " "%char s) "" (seq 0 (Z.to_nat (Z.abs n))).

(** Calls one after the other on the elements of a list, each with the
    globals as the call before left them. *)
Definition in_turn {A S : Type} (each : A → S → P S) : list A → S → P S :=
  fix go (l : list A) (g : S) : P S :=
    match l with
    | [] => pret g
    | a :: rest => let* g' := each a g in go rest g'
    end.

Section Walk.

Variable L : Libdw.
Variable W : Libdw_walk.

(** *** [print_die] *)

Definition print_die (die : Dwarf_Die) (what : string) (indent : Z)
  : P unit :=
  let name := default "<unknown>" (dwarf_diename L die) in
  match dwarf_entrypc W die with
  | Some entrypc =>
      printf (spaces (indent * 2) +:+ "[" +:+ hex (dwarf_dieoffset L die)
              +:+ "] " +:+ what +:+ " '" +:+ name +:+ "'@" +:+ hex entrypc
              +:+ nl)
  | None =>
      printf (spaces (indent * 2) +:+ "[" +:+ hex (dwarf_dieoffset L die)
              +:+ "] " +:+ what +:+ " '" +:+ name +:+ "'" +:+ nl)
  end.

(** *** [print_varlocs] *)

(** The loop [while (n-- > 0)] over the scopes, from the last one down:
    whether a subprogram among the first [n] scopes has a frame base. *)
Fixpoint scopes_have_frame_base (scopes : list Dwarf_Die) (n : nat) : bool :=
  match n with
  | O => false
  | S n' =>
      match scopes !! n' with
      | Some scope =>
          if bool_decide (dwarf_tag L scope = DW_TAG_subprogram)
             && dwarf_hasattr L scope DW_AT_frame_base
          then true
          else scopes_have_frame_base scopes n'
      | None => scopes_have_frame_base scopes n'
      end
  end.

(** The first part of [print_varlocs]: the frame base of the function is
    displayed, if it exists, and [has_frame_base] is assigned; the
    result is the globals after it. *)
Definition print_frame_base (funcdie : Dwarf_Die) (g : Globals)
  : P Globals :=
  let g1 := set_has_frame_base (dwarf_hasattr L funcdie DW_AT_frame_base) g in
  if has_frame_base g1 then
    let* fb_attr :=
      or_error (dwarf_attr L funcdie DW_AT_frame_base)
               ("dwarf_attr fb: " +:+ dwarf_errmsg L) in
    match dwarf_getlocation L fb_attr with
    | Some fb_expr =>
        (* Covers all of function.  *)
        let* entrypc :=
          or_error (dwarf_entrypc W funcdie)
                   ("dwarf_entrypc: " +:+ dwarf_errmsg L) in
        printf "    frame_base: ";;
        (if entrypc =? 0
         then printf "XXX zero address"
         else print_expr_block L g1 (Some fb_attr) fb_expr entrypc 0);;
        printf nl;;
        pret g1
    | None =>
        printf ("    frame_base:" +:+ nl);;
        for_each (dwarf_getlocations W fb_attr).1
          (λ '(start, end_, fb_expr),
             printf ("      (" +:+ hex start +:+ "," +:+ hex end_ +:+ ") ");;
             print_expr_block L g1 (Some fb_attr) fb_expr start 0;;
             printf nl);;
        (if negb (dwarf_getlocations W fb_attr).2
         then error ("dwarf_getlocations fb: " +:+ dwarf_errmsg L)
         else pret tt);;
        pret g1
    end
  else if bool_decide (dwarf_tag L funcdie = DW_TAG_inlined_subroutine) then
    (* See whether the subprogram we are inlined into has a frame
       base we should use.  *)
    match dwarf_getscopes_die W funcdie with
    | Some (scope :: scopes') =>
        let scopes := scope :: scopes' in
        pret (if scopes_have_frame_base scopes (length scopes)
              then set_has_frame_base true g1 else g1)
    | _ => error ("dwarf_getscopes_die: " +:+ dwarf_errmsg L)
    end
  else pret g1.

(** The location of a variable that one expression gives for all
    ranges of the function. *)
Definition print_single_location (g : Globals) (funcdie : Dwarf_Die)
    (attr : Dwarf_Attribute) (expr : list Dwarf_Op) : P unit :=
  for_each (dwarf_ranges W funcdie).1
    (λ '(begin, end_),
       match expr with
       | [] =>
           printf ("      (" +:+ hex begin +:+ "," +:+ hex end_
                   +:+ ") <empty expression>" +:+ nl)
       | _ => print_expr_block_addrs L g (Some attr) begin end_ expr
       end);;
  if negb (dwarf_ranges W funcdie).2
  then error ("dwarf_ranges: " +:+ dwarf_errmsg L)
  else pret tt.

(** The location list of a variable, with the extra sanity check for
    [dwarf_getlocation_addr] on each range that is not empty. *)
Definition print_location_list (g : Globals) (attr : Dwarf_Attribute)
  : P unit :=
  for_each (dwarf_getlocations W attr).1
    (λ '(begin, end_, expr),
       if end_ <=? begin
       then printf ("      (" +:+ hex begin +:+ "," +:+ hex end_
                    +:+ ") <empty range>" +:+ nl)
       else
         print_expr_block_addrs L g (Some attr) begin end_ expr;;
         (* Must at least find one range for begin and end-1.  *)
         assert ((dwarf_getlocation_addr L attr begin).1 =? 1) "locs == 1";;
         assert ((dwarf_getlocation_addr L attr (end_ - 1)).1 =? 1)
                "locs == 1");;
  if negb (dwarf_getlocations W attr).2
  then error ("dwarf_getlocations: " +:+ dwarf_errmsg L)
  else pret tt.

(** The body of the loop of [print_varlocs] over the children of the
    function. *)
Definition print_child (g : Globals) (funcdie child : Dwarf_Die) : P unit :=
  let tag := dwarf_tag L child in
  if bool_decide (tag = DW_TAG_variable)
     || bool_decide (tag = DW_TAG_formal_parameter)
  then
    let what := if bool_decide (tag = DW_TAG_variable)
                then "variable" else "parameter" in
    print_die child what 2;;
    if dwarf_hasattr L child DW_AT_location then
      let* attr :=
        or_error (dwarf_attr L child DW_AT_location)
                 ("dwarf_attr: " +:+ dwarf_errmsg L) in
      match dwarf_getlocation L attr with
      | Some expr => print_single_location g funcdie attr expr
      | None => print_location_list g attr
      end
    else if dwarf_hasattr L child DW_AT_const_value then
      printf ("      <constant value>" +:+ nl)
    else
      printf ("      <no value>" +:+ nl)
  else pret tt.

(** [print_varlocs]: get all variables and print their value
    expressions. *)
Definition print_varlocs (funcdie : Dwarf_Die) (g : Globals) : P Globals :=
  let* g1 := print_frame_base funcdie g in
  if negb (dwarf_haschildren W funcdie) then pret g1
  else
    let* children :=
      or_error (dwarf_child W funcdie) ("dwarf_child: " +:+ dwarf_errmsg L) in
    for_each children (print_child g1 funcdie);;
    pret g1.

(** *** [handle_instance] and [handle_function]

    Both return [DWARF_CB_OK]; the result is the globals they leave. *)

Definition handle_instance (funcdie : Dwarf_Die) (g : Globals) : P Globals :=
  print_die funcdie "inlined function" 1;;
  print_varlocs funcdie g.

Definition handle_function (funcdie : Dwarf_Die) (g : Globals) : P Globals :=
  if 0 <? dwarf_func_inline W funcdie then
    (* abstract inline definition, find all inlined instances.  *)
    let* g' :=
      in_turn handle_instance (dwarf_func_inline_instances W funcdie).1 g in
    (if negb (dwarf_func_inline_instances W funcdie).2
     then error ("dwarf_func_inline_instances: " +:+ dwarf_errmsg L)
     else pret tt);;
    pret g'
  else
    (* Contains actual code, not just a declaration?  *)
    match dwarf_entrypc W funcdie with
    | Some _ =>
        print_die funcdie "function" 1;;
        print_varlocs funcdie g
    | None => pret g
    end.

(** *** [handle_attr] *)

(** What [handle_attr] prints first for an attribute. *)
Definition attr_line (attr : Dwarf_Attribute) (depth : Z) : string :=
  spaces (depth * 2) +:+ dwarf_attr_string W (dwarf_whatattr attr) +:+ " ("
  +:+ dwarf_form_string W (dwarf_whatform attr) +:+ ")".

(** The loop of [handle_attr] over [dwarf_getlocations]; [printed] says
    whether the line of the attribute was ended already. *)
Fixpoint print_locations (g : Globals) (attr : Dwarf_Attribute) (depth : Z)
    (entries : list (Z * Z * list Dwarf_Op)) (printed : bool) : P bool :=
  match entries with
  | [] => pret printed
  | (begin, end_, expr) :: rest =>
      (if negb printed then printf nl else pret tt);;
      printf (spaces (depth * 2));;
      print_expr_block_addrs L g (Some attr) begin end_ expr;;
      print_locations g attr depth rest true
  end.

(** [handle_attr], the callback of [dwarf_getattrs]; [depth] and
    [entrypc] are the fields of its argument.  The message of [error
    (0, 0, ...)] goes to the standard error, which is not modelled. *)
Definition handle_attr (g : Globals) (attr : Dwarf_Attribute)
    (depth entrypc : Z) : P callback_result :=
  printf (attr_line attr depth);;
  match dwarf_getlocation L attr with
  | Some expr =>
      printf " ";;
      print_expr_block L g (Some attr) expr entrypc 0;;
      printf nl;;
      pret DWARF_CB_OK
  | None =>
      if dwarf_whatform attr =? DW_FORM_exprloc
      then pret DWARF_CB_ABORT
      else
        let* printed :=
          print_locations g attr depth (dwarf_getlocations W attr).1 false in
        (if negb printed then printf nl else pret tt);;
        pret DWARF_CB_OK
  end.

(** *** [handle_die] *)

(** [dwarf_getattrs (die, callback, arg, 0) == 1]: the callback is run
    on the attributes in turn until it does not return [DWARF_CB_OK];
    the result is [1] ([true]) when all attributes were gone through. *)
Fixpoint dwarf_getattrs (callback : Dwarf_Attribute → P callback_result)
    (attrs : list Dwarf_Attribute) (complete : bool) : P bool :=
  match attrs with
  | [] => pret complete
  | attr :: rest =>
      let* r := callback attr in
      match r with
      | DWARF_CB_OK => dwarf_getattrs callback rest complete
      | DWARF_CB_ABORT => pret false
      end
  end.

(** The (lowest) address to use for operands that depend on address. *)
Definition die_entrypc (die : Dwarf_Die) (outer_entrypc : Z) : Z :=
  match dwarf_entrypc W die with
  | Some pc =>
      if negb (pc =? 0) then pc
      else match (dwarf_ranges W die).1 with
           | (start, _) :: _ => if start =? 0 then outer_entrypc else start
           | [] => outer_entrypc
           end
  | None =>
      match (dwarf_ranges W die).1 with
      | (start, _) :: _ => if start =? 0 then outer_entrypc else start
      | [] => outer_entrypc
      end
  end.

(** The line [handle_die] prints for a DIE that is not the unit DIE. *)
Definition die_line (die : Dwarf_Die) (depth : Z) : string :=
  match dwarf_diename L die with
  | Some name =>
      spaces (depth * 2) +:+ "[" +:+ hex (dwarf_dieoffset L die) +:+ "] "
      +:+ dwarf_tag_string W (dwarf_tag L die) +:+ " " +:+ dquote +:+ name
      +:+ dquote +:+ nl
  | None =>
      spaces (depth * 2) +:+ "[" +:+ hex (dwarf_dieoffset L die) +:+ "] "
      +:+ dwarf_tag_string W (dwarf_tag L die) +:+ nl
  end.

(** [handle_die] on one DIE, up to the call on its sibling.  The global
    [has_frame_base] is assigned before the attributes of the DIE are
    printed; the globals are threaded through the calls. *)
Fixpoint handle_die_node (node : DieTree) (depth : Z)
    (outer_has_frame_base : bool) (outer_entrypc : Z) (g : Globals)
  : P Globals :=
  match node with
  | DieNode die children =>
      (* CU DIE already printed.  *)
      (if depth >? 0 then printf (die_line die depth) else pret tt);;
      let arg_depth := depth + 1 in
      let arg_entrypc := die_entrypc die outer_entrypc in
      (* Whether this or the any outer DIE has a frame base.  *)
      let has_fb := die_has_frame_base L die outer_has_frame_base in
      let g1 := set_has_frame_base has_fb g in
      let* all :=
        dwarf_getattrs (λ attr, handle_attr g1 attr arg_depth arg_entrypc)
                       (die_attrs W die).1 (die_attrs W die).2 in
      (if negb all
       then error ("Couldn't get all attributes: " +:+ dwarf_errmsg L)
       else pret tt);;
      (* Handle children and siblings recursively depth first.  *)
      in_turn
        (λ child, handle_die_node child (depth + 1) has_fb arg_entrypc)
        children g1
  end.

(** [handle_die], on a DIE and the siblings after it; the empty list
    stands for the call that is not made when there is no child or no
    further sibling. *)
Definition handle_die (dies : list DieTree) (depth : Z)
    (outer_has_frame_base : bool) (outer_entrypc : Z) (g : Globals)
  : P Globals :=
  in_turn
    (λ node, handle_die_node node depth outer_has_frame_base outer_entrypc)
    dies g.

(** The same walk with the frame-base flag as a parameter of the scope:
    the attributes of a DIE are printed under the globals [g] with the
    flag of that DIE, and [g] is handed on as it is. *)
Fixpoint walk_scoped_node (g : Globals) (node : DieTree) (depth : Z)
    (outer_has_frame_base : bool) (outer_entrypc : Z) : P unit :=
  match node with
  | DieNode die children =>
      (if depth >? 0 then printf (die_line die depth) else pret tt);;
      let has_fb := die_has_frame_base L die outer_has_frame_base in
      let* all :=
        dwarf_getattrs
          (λ attr, handle_attr (set_has_frame_base has_fb g) attr (depth + 1)
                               (die_entrypc die outer_entrypc))
          (die_attrs W die).1 (die_attrs W die).2 in
      (if negb all
       then error ("Couldn't get all attributes: " +:+ dwarf_errmsg L)
       else pret tt);;
      in_turn
        (λ child _, walk_scoped_node g child (depth + 1) has_fb
                      (die_entrypc die outer_entrypc))
        children tt
  end.

Definition walk_scoped (g : Globals) (dies : list DieTree) (depth : Z)
    (outer_has_frame_base : bool) (outer_entrypc : Z) : P unit :=
  in_turn
    (λ node _, walk_scoped_node g node depth outer_has_frame_base
                 outer_entrypc)
    dies tt.

End Walk.

(** *** Notions for the statements about the walk *)

(** A result without its value. *)
Definition forget {A} (r : Res A) : Res unit :=
  match r with
  | Done _ out => Done tt out
  | Fatal e out => Fatal e out
  end.

(** How [print_expr] ends on [DW_OP_fbreg] when [has_frame_base] is not
    set. *)
Definition no_frame_base : Failure :=
  Exit_failure "DW_OP_fbreg used without a frame base".

(** A computation that does not end for lack of a frame base. *)
Definition never_lacks_frame_base {A} (m : P A) : Prop :=
  ∀ out out', m out ≠ Fatal no_frame_base out'.

(** A result of the threaded walk agrees with one of the scoped walk
    over [g]: same output, same failure, and globals that are [g] up to
    the flag. *)
Definition agree (g : Globals) (r : Res Globals) (r' : Res unit) : Prop :=
  match r with
  | Done g' out => r' = Done tt out ∧ ∃ b, g' = set_has_frame_base b g
  | Fatal e out => r' = Fatal e out
  end.

(** *** A function and its DIEs to run the walk on *)

(** Attributes are told apart by [valp]: attribute [0] holds the
    expression [DW_OP_nop], attribute [1] is a location list with the one
    range [0x10, 0x20), attribute [2] has the form [DW_FORM_exprloc] but
    cannot be read, and attribute [3] is no location at all. *)
Definition walk_attr (n : Z) : Dwarf_Attribute :=
  mkAttr (if n =? 3 then DW_AT_other 0x3 else DW_AT_location)
         (if n =? 1 then 0x17 else if n =? 3 then 0x8 else DW_FORM_exprloc) n.

(** DIE [1] is the subprogram [f] at [0x10] with a frame base, DIE [2]
    its variable with the location list, DIE [3] its parameter with the
    expression, DIE [4] a block in it, DIE [5] a subroutine inlined into
    it, DIE [6] a variable whose expression cannot be read. *)
Definition walk_libdw : Libdw :=
  mkLibdw
    example_opcode_string
    (λ _, "signed")
    "invalid DWARF"
    (λ _ _, None)
    (λ _ _, None)
    (λ a, if valp a =? 0 then Some [mkOp DW_OP_nop 0 0 0] else None)
    (λ _ addr, single_shot_lookup 0 [Range 0x10 0x20 [mkOp DW_OP_nop 0 0 0]]
                                  addr)
    (λ _ _, None)
    (λ _ _, None)
    (λ _, None)
    (λ _, None)
    (λ _, None)
    die_addr
    die_addr
    (λ die, if die_addr die =? 1 then DW_TAG_subprogram
            else if die_addr die =? 2 then DW_TAG_variable
            else if die_addr die =? 3 then DW_TAG_formal_parameter
            else if die_addr die =? 5 then DW_TAG_inlined_subroutine
            else if die_addr die =? 6 then DW_TAG_variable
            else DW_TAG_other 0x0b)
    (λ die code,
       match code with
       | DW_AT_frame_base => if die_addr die =? 1 then Some (walk_attr 0)
                             else None
       | DW_AT_location => if die_addr die =? 2 then Some (walk_attr 1)
                           else if die_addr die =? 3 then Some (walk_attr 0)
                           else if die_addr die =? 6 then Some (walk_attr 2)
                           else None
       | _ => None
       end)
    (λ die code,
       match code with
       | DW_AT_frame_base => die_addr die =? 1
       | DW_AT_location =>
           (die_addr die =? 2) || (die_addr die =? 3) || (die_addr die =? 6)
       | _ => false
       end)
    (λ die, if die_addr die =? 1 then Some "f"
            else if die_addr die =? 2 then Some "v"
            else if die_addr die =? 3 then Some "p"
            else None)
    (λ _ _, None)
    (λ _, None).

Definition example_walk : Libdw_walk :=
  mkLibdw_walk
    (λ tag, if bool_decide (tag = DW_TAG_subprogram) then "subprogram"
            else if bool_decide (tag = DW_TAG_variable) then "variable"
            else "tag")
    (λ code, if bool_decide (code = DW_AT_location) then "location"
             else "attr")
    (λ form, if form =? DW_FORM_exprloc then "exprloc" else "form")
    (λ die, if (die_addr die =? 1) || (die_addr die =? 5) then Some 0x10
            else None)
    (λ die, if (die_addr die =? 1) || (die_addr die =? 5)
            then ([(0x10, 0x20)], true) else ([], true))
    (λ a, if valp a =? 1 then ([(0x10, 0x20, [mkOp DW_OP_nop 0 0 0])], true)
          else ([], true))
    (λ die, if die_addr die =? 1 then ([walk_attr 3; walk_attr 0], true)
            else if die_addr die =? 2 then ([walk_attr 1], true)
            else if die_addr die =? 6 then ([walk_attr 3; walk_attr 2;
                                             walk_attr 0], true)
            else ([], true))
    (λ die, die_addr die =? 1)
    (λ die, if die_addr die =? 1 then Some [mkDie 2; mkDie 3; mkDie 4]
            else Some [])
    (λ die, if die_addr die =? 5 then Some [mkDie 5; mkDie 1] else None)
    (λ die, if die_addr die =? 7 then 1 else 0)
    (λ die, if die_addr die =? 7 then ([mkDie 5], true) else ([], true)).

(** The globals of the examples: no call-frame table, no frame base. *)
Definition walk_globals : Globals :=
  example_globals None None false false false.

End VarlocsWalk.

(** ** tests/dwarf-getmacros.c *)

Module Getmacros.

(** The macro opcodes [mac] names; [DW_MACRO_other] is any other
    opcode, with its number. *)
Inductive DW_MACRO : Type :=
| DW_MACINFO_define | DW_MACINFO_undef
| DW_MACRO_start_file | DW_MACRO_end_file
| DW_MACRO_define_strp | DW_MACRO_undef_strp
| DW_MACRO_import
| DW_MACRO_define_sup | DW_MACRO_undef_sup
| DW_MACRO_define_strx | DW_MACRO_undef_strx
| DW_MACRO_other (code : Z).

(** The libdw calls of [dwarf-getmacros.c], which are not part of the
    modelled sources; a [Dwarf_Macro *], a [Dwarf_Attribute *], a
    [Dwarf_Files *] and a [Dwarf_Die *] are numbers.  A call that returns
    [0] and fills a result is [Some] of that result.  A call that is
    made again and again with the token it returned is the list of the
    macros it hands to the callback, one with each call, with [true]
    when it ends by returning [0] and [false] when it ends by returning
    [-1]: [dwarf_getmacros_off] for the macros at an offset, and
    [dwarf_getmacros] for the macros of a unit DIE, from
    [DWARF_GETMACROS_START] when the flag is set and from [0] when it
    is not.  Nothing keeps the macros at an offset from importing that
    offset again. *)
Record Libdw_macros : Type := mkLibdw_macros {
  dwarf_macro_opcode : Z → DW_MACRO;
  dwarf_macro_param : Z → option Z;            (* parameter 0 *)
  dwarf_formudata : Z → option Z;
  dwarf_macro_getsrcfiles : Z → option Z;
  dwarf_macro_param2_word : Z → option Z;      (* (macro, &w, NULL) *)
  dwarf_macro_param2_str : Z → option string;  (* (macro, NULL, &value) *)
  dwarf_filesrc : Z → Z → option string;
  dwarf_macro_getparamcnt : Z → option Z;
  dwarf_errmsg : string;
  dwarf_getmacros_off : Z → list Z * bool;
  dwarf_getmacros : Z → bool → list Z * bool
}.

(** How a run ends early: a failed [assert (what)], or the use of a
    variable that was never assigned. *)
Inductive Fault : Type :=
| Assertion_failed (what : string)
| Uninitialized (variable : string).

(** The result of a run, with what was written to the standard output:
    the run returned, it stopped at a fault, or it went into more
    nested imports than the bound of the model lets it follow. *)
Inductive Outcome (A : Type) : Type :=
| Returned (a : A) (out : string)
| Stopped (e : Fault) (out : string)
| Unfinished (out : string).
Arguments Returned {A} a out.
Arguments Stopped {A} e out.
Arguments Unfinished {A} out.

Definition Run (A : Type) : Type := string → Outcome A.

Definition run_ret {A} (a : A) : Run A := λ out, Returned a out.

Definition run_bind {A B} (m : Run A) (k : A → Run B) : Run B :=
  λ out, match m out with
         | Returned a out' => k a out'
         | Stopped e out' => Stopped e out'
         | Unfinished out' => Unfinished out'
         end.

Declare Scope macro_scope.
Delimit Scope macro_scope with macro.
Notation "'let*' x ':=' m 'in' k" := (run_bind m (λ x, k))
  (at level 10, x name, m at level 100, k at level 200) : macro_scope.
Notation "m ';;' k" := (run_bind m (λ _, k))
  (at level 100, k at level 200, right associativity) : macro_scope.
Local Open Scope macro_scope.

Definition print (s : string) : Run unit := λ out, Returned tt (out +:+ s).

Definition newline : string := String (Ascii.ascii_of_nat 10) "".

Definition puts (s : string) : Run unit := print (s +:+ newline).

(** [r = f (...); assert (r == 0);] *)
Definition asserted {A} (x : option A) (what : string) : Run A :=
  match x with
  | Some a => run_ret a
  | None => λ out, Stopped (Assertion_failed what) out
  end.

(** The use of a variable that only a successful call assigns. *)
Definition assigned {A} (x : option A) (variable : string) : Run A :=
  match x with
  | Some a => run_ret a
  | None => λ out, Stopped (Uninitialized variable) out
  end.

(** [%*s] of the empty string: [|n|] spaces. *)
Definition indent (n : Z) : string :=
  foldr (λ _ s, String " "%char s) "" (seq 0 (Z.to_nat (Z.abs n))).

(** [%#" PRIx64 "]: no prefix for zero. *)
Definition hex_alt (n : Z) : string :=
  if n =? 0 then "0" else "0x" +:+ Varlocs.hex n.

(** Calls of the callback on the macros of a list, one after the other,
    with [level] as the call before left it. *)
Fixpoint each_macro (callback : Z → Z → Run Z) (l : list Z) (level : Z)
  : Run Z :=
  match l with
  | [] => run_ret level
  | m :: rest =>
      let* level' := callback m level in
      each_macro callback rest level'
  end.

Section Macros.

Variable M : Libdw_macros.

(** [include (dbg, macoff, DWARF_GETMACROS_START)], over the callback
    that [dwarf_getmacros_off] is given: the macros at [macoff] are
    handed to it, and the message of libdw is put when they end with an
    error.  The argument and the result are the static [level] of [mac]
    before and after. *)
Definition include_with (callback : Z → Z → Run Z) (macoff : Z) (level : Z)
  : Run Z :=
  let* level' :=
    each_macro callback (dwarf_getmacros_off M macoff).1 level in
  (if negb (dwarf_getmacros_off M macoff).2
   then puts (dwarf_errmsg M) else run_ret tt);;
  run_ret level'.

(** [mac], which returns [DWARF_CB_ABORT] after every macro, so that the
    loops of [include] and [getmacros] get one macro with each call; the
    argument and the result are the static [level] before and after.
    [mac] calls [include], which calls [mac] on the imported macros,
    and the source has no bound on this nesting: [nesting] is the
    number of nested calls of [include] that the model follows. *)
Fixpoint mac (nesting : nat) (macro : Z) (level : Z) : Run Z :=
  match dwarf_macro_opcode M macro with
  | DW_MACRO_import =>
      let* at_ := asserted (dwarf_macro_param M macro) "r == 0" in
      let* w := asserted (dwarf_formudata M at_) "r == 0" in
      print (indent level +:+ "include " +:+ hex_alt w +:+ newline);;
      let* level' :=
        match nesting with
        | O => λ out, Unfinished out
        | S nesting' => include_with (mac nesting') w (level + 1)
        end in
      print (indent (level' - 1) +:+ "/include" +:+ newline);;
      run_ret (level' - 1)
  | DW_MACRO_start_file =>
      let files := dwarf_macro_getsrcfiles M macro in
      (if files is None
       then print ("dwarf_macro_getsrcfiles: " +:+ dwarf_errmsg M
                   +:+ newline)
       else run_ret tt);;
      let w := default 0 (dwarf_macro_param2_word M macro) in
      let* files := assigned files "files" in
      let name := dwarf_filesrc M files w in
      print (indent level +:+ "file " +:+ Varlocs.str name +:+ newline);;
      run_ret (level + 1)
  | DW_MACRO_end_file =>
      print (indent (level - 1) +:+ "/file" +:+ newline);;
      run_ret (level - 1)
  | DW_MACINFO_define | DW_MACRO_define_strp | DW_MACRO_define_sup
  | DW_MACRO_define_strx =>
      let* value := assigned (dwarf_macro_param2_str M macro) "value" in
      print (indent level +:+ value +:+ newline);;
      run_ret level
  | DW_MACINFO_undef | DW_MACRO_undef_strp | DW_MACRO_undef_sup
  | DW_MACRO_undef_strx =>
      run_ret level
  | DW_MACRO_other opcode =>
      let* paramcnt :=
        assigned (dwarf_macro_getparamcnt M macro) "paramcnt" in
      print (indent level +:+ "opcode " +:+ Varlocs.dec opcode +:+ " with "
             +:+ Varlocs.dec paramcnt +:+ " arguments" +:+ newline);;
      run_ret level
  end.

(** [include (dbg, macoff, DWARF_GETMACROS_START)]. *)
Definition include (nesting : nat) (macoff : Z) (level : Z) : Run Z :=
  include_with (mac nesting) macoff level.

(** [getmacros (dbg, die, new_style)]. *)
Definition getmacros (nesting : nat) (die : Z) (new_style : bool) (level : Z)
  : Run Z :=
  let* level' :=
    each_macro (mac nesting) (dwarf_getmacros M die new_style).1 level in
  (if negb (dwarf_getmacros M die new_style).2
   then puts (dwarf_errmsg M) else run_ret tt);;
  run_ret level'.

(** *** Notions for the statements about the macros *)

(** The offset that an import names, when it can be read. *)
Definition import_offset (macro : Z) : option Z :=
  dwarf_macro_param M macro ≫= dwarf_formudata M.

(** The files that a macro opens less the files that it closes, with
    those of the macros it imports, through [nesting] nested imports. *)
Fixpoint opened_files (nesting : nat) (macro : Z) : Z :=
  match dwarf_macro_opcode M macro with
  | DW_MACRO_start_file => 1
  | DW_MACRO_end_file => -1
  | DW_MACRO_import =>
      match nesting, import_offset macro with
      | S nesting', Some w =>
          foldr (λ m n, opened_files nesting' m + n) 0
                (dwarf_getmacros_off M w).1
      | _, _ => 0
      end
  | _ => 0
  end.

(** The same for the macros of a list. *)
Definition opened_in (nesting : nat) (l : list Z) : Z :=
  foldr (λ m n, opened_files nesting m + n) 0 l.

(** The lines with which [n] nested imports of the offset [w] start,
    the first at [level]. *)
Fixpoint include_lines (w : Z) (level : Z) (n : nat) : string :=
  match n with
  | O => ""
  | S n' =>
      indent level +:+ "include " +:+ hex_alt w +:+ newline
      +:+ include_lines w (level + 1) n'
  end.

End Macros.

(** *** Macros to run the listing on *)

(** Macro [1] defines [A 1], macro [2] starts the file [a.c], macro [3]
    ends a file, macro [4] imports the macros at [0x20], which are
    macros [2] and [1] and end with an error, macro [5] has an opcode of
    a vendor, macro [6] is an import whose parameter cannot be read, and
    macro [7] imports the macros at [0x40], of which it is the first
    itself. *)
Definition example_macros : Libdw_macros :=
  mkLibdw_macros
    (λ macro, if macro =? 1 then DW_MACINFO_define
              else if macro =? 2 then DW_MACRO_start_file
              else if macro =? 3 then DW_MACRO_end_file
              else if macro =? 4 then DW_MACRO_import
              else if macro =? 6 then DW_MACRO_import
              else if macro =? 7 then DW_MACRO_import
              else DW_MACRO_other 0xe0)
    (λ macro, if macro =? 6 then None else Some macro)
    (λ at_, if at_ =? 7 then Some 0x40 else Some 0x20)
    (λ _, Some 0)
    (λ _, Some 1)
    (λ macro, if macro =? 1 then Some "A 1" else None)
    (λ _ _, Some "a.c")
    (λ _, Some 2)
    "invalid DWARF"
    (λ macoff, if macoff =? 0x20 then ([2; 1], false)
               else if macoff =? 0x40 then ([7; 1], true)
               else ([], true))
    (λ die _, if die =? 0 then ([2; 4; 1; 3; 5], true)
              else if die =? 1 then ([6], true)
              else ([1; 7; 1], true)).

End Getmacros.

(** ** Facts about the split-unit resolver *)

Module SplitUnitFacts.
Import SplitUnit.
Local Open Scope split_scope.

(** *** The steps *)

Lemma bind_Returns {A B} (m : M A) (k : A → M B) w b w' :
  bind m k w = Returns b w'
  ↔ ∃ a w1, m w = Returns a w1 ∧ k a w1 = Returns b w'.
Proof.
  unfold bind. destruct (m w) as [a w1|u w1]; split.
  - eauto.
  - by intros (? & ? & [= -> ->] & ?).
  - done.
  - by intros (? & ? & ? & ?).
Qed.

Lemma bind_run {A B} (m : M A) (k : A → M B) w a w1 :
  m w = Returns a w1 → bind m k w = k a w1.
Proof. unfold bind. by intros ->. Qed.

Lemma bind_fault {A B} (m : M A) (k : A → M B) w u w1 :
  m w = Faults u w1 → bind m k w = Faults u w1.
Proof. unfold bind. by intros ->. Qed.

Lemma bind_cong_run {A B} (m m' : M A) (k : A → M B) w w' :
  m w = m' w' → bind m k w = bind m' k w'.
Proof. unfold bind. by intros ->. Qed.

Lemma load_dwarf_run d w x :
  dwarfs w !! d = Some x → ended x = false → load_dwarf d w = Returns x w.
Proof. intros Hd He. unfold load_dwarf. by rewrite Hd, He. Qed.

Lemma load_dwarf_Returns d w x w' :
  load_dwarf d w = Returns x w'
  ↔ dwarfs w !! d = Some x ∧ ended x = false ∧ w' = w.
Proof.
  unfold load_dwarf. destruct (dwarfs w !! d) as [y|]; [|by split; [|intros [? _]]].
  destruct (ended y) eqn:He; split.
  - done.
  - intros ([= ->] & ? & _). congruence.
  - by intros [= -> ->].
  - by intros ([= ->] & _ & ->).
Qed.

Lemma load_dwarf_ended d w x :
  dwarfs w !! d = Some x → ended x = true →
  load_dwarf d w = Faults (Use_after_free d) w.
Proof. intros Hd He. unfold load_dwarf. by rewrite Hd, He. Qed.

Lemma load_cu_run h w c : unit_at w h c → load_cu h w = Returns c w.
Proof.
  intros [Hc (x & Hx & He)]. unfold load_cu. rewrite Hc.
  by rewrite (bind_run _ _ _ _ _ (load_dwarf_run _ _ _ Hx He)).
Qed.

Lemma load_cu_Returns h w c w' :
  load_cu h w = Returns c w' ↔ unit_at w h c ∧ w' = w.
Proof.
  split; [|intros [H ->]; by apply load_cu_run].
  unfold load_cu. destruct (cus w !! h) as [c0|] eqn:Hc; [|done].
  intros H. apply bind_Returns in H as (x & w1 & Hx & [= -> ->]).
  apply load_dwarf_Returns in Hx as (Hx & He & ->).
  split; [|done]. split; [done|]. by exists x.
Qed.

(** A write to another field of the world, or the link of a unit, does
    not move a unit out of its container. *)
Lemma unit_at_same w w' h c :
  cus w' = cus w → dwarfs w' = dwarfs w → unit_at w h c → unit_at w' h c.
Proof. unfold unit_at. by intros -> ->. Qed.

Lemma unit_at_insert w h c p tr fd fi :
  unit_at w h c →
  unit_at (mkWorld (<[h := set_split p c]> (cus w)) (dwarfs w) fi fd tr) h
          (set_split p c).
Proof.
  intros [Hc Hx]. split; [|done]. cbn.
  apply list_lookup_insert_eq. by eapply lookup_lt_Some.
Qed.

Lemma dwarf_get_units_run d next w x :
  dwarfs w !! d = Some x → ended x = false →
  dwarf_get_units d next w
  = Returns tt (mkWorld (cus w) (dwarfs w) (files w) (fds w)
                        (trace w ++ [EvGetUnits d next])).
Proof.
  intros Hd He. unfold dwarf_get_units.
  by rewrite (bind_run _ _ _ _ _ (load_dwarf_run _ _ _ Hd He)).
Qed.

Lemma dwarf_get_units_ended d next w x :
  dwarfs w !! d = Some x → ended x = true →
  dwarf_get_units d next w = Faults (Use_after_free d) w.
Proof.
  intros Hd He. unfold dwarf_get_units.
  by rewrite (bind_fault _ _ _ _ _ (load_dwarf_ended _ _ _ Hd He)).
Qed.

Lemma dwarf_end_run d w x :
  dwarfs w !! d = Some x → ended x = false →
  dwarf_end d w =
    Returns tt (mkWorld (cus w) (<[d := end_of x]> (dwarfs w)) (files w)
                        (fds w) (trace w ++ [EvEnd d])).
Proof.
  intros Hd He. unfold dwarf_end.
  by rewrite (bind_run _ _ _ _ _ (load_dwarf_run _ _ _ Hd He)).
Qed.

Lemma elf_cntl_FDDONE_run d w x :
  dwarfs w !! d = Some x → ended x = false →
  elf_cntl_FDDONE d w =
    Returns tt (mkWorld (cus w) (<[d := fd_done x]> (dwarfs w)) (files w)
                        (fds w) (trace w ++ [EvFdDone d])).
Proof.
  intros Hd He. unfold elf_cntl_FDDONE.
  by rewrite (bind_run _ _ _ _ _ (load_dwarf_run _ _ _ Hd He)).
Qed.

Lemma sys_open_run w p f :
  files w !! p = Some f →
  sys_open p w = Returns (Some (fresh (dom (fds w)))) (opened w p).
Proof. intros Hf. unfold sys_open. by rewrite Hf. Qed.

Lemma dwarf_begin_run w fd p hdrs :
  fds w !! fd = Some p → files w !! p = Some (DebugInfo hdrs) →
  dwarf_begin fd w = Returns (Some (length (dwarfs w))) (begun w fd hdrs).
Proof. intros Hfd Hf. unfold dwarf_begin. rewrite Hfd. simpl. by rewrite Hf. Qed.

Lemma closed_again (m : gmap nat string) p :
  delete (fresh (dom m)) (<[fresh (dom m) := p]> m) = m.
Proof.
  rewrite delete_insert_eq. apply delete_id.
  apply not_elem_of_dom. apply is_fresh.
Qed.

(** *** The last statements *)

Lemma finish_run_null cu w c :
  unit_at w cu c → split c = CU_minus1 →
  finish cu w =
    Returns CU_NULL (mkWorld (<[cu := set_split CU_NULL c]> (cus w)) (dwarfs w)
                             (files w) (fds w) (trace w)).
Proof.
  intros Hc Hs. unfold finish.
  rewrite (bind_run _ _ w c w) by (by apply load_cu_run).
  rewrite decide_True by done.
  set (w1 := mkWorld (<[cu := set_split CU_NULL c]> (cus w)) (dwarfs w)
                     (files w) (fds w) (trace w)).
  rewrite (bind_run _ _ w tt w1) by done.
  rewrite (bind_run _ _ w1 (set_split CU_NULL c) w1); [done|].
  apply load_cu_run. by apply unit_at_insert.
Qed.

Lemma finish_run_linked cu w c :
  unit_at w cu c → split c ≠ CU_minus1 →
  finish cu w = Returns (split c) w.
Proof.
  intros Hc Hs. unfold finish.
  rewrite (bind_run _ _ w c w) by (by apply load_cu_run).
  rewrite decide_False by done.
  rewrite (bind_run _ _ w tt w) by done.
  by rewrite (bind_run _ _ w c w) by (by apply load_cu_run).
Qed.

(** *** The scan *)

(** The scan of a container without units. *)
Lemma scan_units_empty cu d w x :
  dwarfs w !! d = Some x → ended x = false →
  scan_units cu d [] w
  = Returns tt (mkWorld (cus w) (dwarfs w) (files w) (fds w)
                        (trace w ++ [EvGetUnits d None])).
Proof. intros Hd He. cbn [scan_units]. by eapply dwarf_get_units_run. Qed.

(** The scan of a container whose first unit matches: the two units are
    linked, the descriptor is detached and the loop is left. *)
Lemma scan_units_match cu d c sp s rest w x :
  unit_at w cu c → unit_at w sp s → is_split_of c s = true → sp ≠ cu →
  dwarfs w !! d = Some x → ended x = false →
  scan_units cu d (sp :: rest) w
  = Returns tt (mkWorld (<[sp := set_split (CU_at cu) s]>
                           (<[cu := set_split (CU_at sp) c]> (cus w)))
                        (<[d := fd_done x]> (dwarfs w))
                        (files w) (fds w)
                        (trace w ++ [EvGetUnits d (Some sp); EvFdDone d])).
Proof.
  intros Hcu Hsp Hyes Hne Hd He. cbn [scan_units].
  rewrite (bind_run _ _ _ _ _ (dwarf_get_units_run d (Some sp) w x Hd He)).
  set (w1 := mkWorld (cus w) (dwarfs w) (files w) (fds w)
                     (trace w ++ [EvGetUnits d (Some sp)])).
  rewrite (bind_run _ _ w1 c w1) by (apply load_cu_run; by apply (unit_at_same w)).
  rewrite (bind_run _ _ w1 s w1) by (apply load_cu_run; by apply (unit_at_same w)).
  rewrite Hyes.
  set (w2 := mkWorld (<[cu := set_split (CU_at sp) c]> (cus w)) (dwarfs w)
                     (files w) (fds w) (trace w1)).
  rewrite (bind_run _ _ w1 tt w2) by done.
  set (w3 := mkWorld (<[sp := set_split (CU_at cu) s]> (cus w2)) (dwarfs w)
                     (files w) (fds w) (trace w1)).
  rewrite (bind_run _ _ w2 tt w3).
  2:{ rewrite (bind_run _ _ w2 s w2); [done|].
      apply load_cu_run. destruct Hsp as [Hs Hx]. split; [|done]. cbn.
      by rewrite list_lookup_insert_ne. }
  rewrite (elf_cntl_FDDONE_run d w3 x) by done.
  cbn. by rewrite <- (assoc_L (++)).
Qed.

(** The scan of a container whose first unit does not match: the body
    of the loop ends the container, and the condition of the loop then
    calls [dwarf_get_units] on it. *)
Lemma scan_units_mismatch cu d c sp s rest w x :
  unit_at w cu c → split c = CU_minus1 → unit_at w sp s →
  is_split_of c s = false →
  dwarfs w !! d = Some x → ended x = false →
  scan_units cu d (sp :: rest) w
  = Faults (Use_after_free d)
           (mkWorld (cus w) (<[d := end_of x]> (dwarfs w)) (files w) (fds w)
                    (trace w ++ [EvGetUnits d (Some sp); EvEnd d])).
Proof.
  intros Hcu Hun Hsp Hno Hd He. cbn [scan_units].
  rewrite (bind_run _ _ _ _ _ (dwarf_get_units_run d (Some sp) w x Hd He)).
  set (w1 := mkWorld (cus w) (dwarfs w) (files w) (fds w)
                     (trace w ++ [EvGetUnits d (Some sp)])).
  rewrite (bind_run _ _ w1 c w1) by (apply load_cu_run; by apply (unit_at_same w)).
  rewrite (bind_run _ _ w1 s w1) by (apply load_cu_run; by apply (unit_at_same w)).
  rewrite Hno.
  set (w2 := mkWorld (cus w) (<[d := end_of x]> (dwarfs w)) (files w)
                     (fds w) (trace w1 ++ [EvEnd d])).
  rewrite (bind_run _ _ w1 tt w2).
  2:{ rewrite (bind_run _ _ w1 c w1)
        by (apply load_cu_run; by apply (unit_at_same w)).
      rewrite decide_True by done. by rewrite (dwarf_end_run d w1 x). }
  assert (dwarfs w2 !! d = Some (end_of x)) as Hd2.
  { cbn. apply list_lookup_insert_eq. by eapply lookup_lt_Some. }
  assert (scan_units cu d rest w2 = Faults (Use_after_free d) w2) as ->.
  { destruct rest as [|sp' rest']; cbn [scan_units].
    - by apply (dwarf_get_units_ended d None w2 (end_of x)).
    - by rewrite (bind_fault _ _ _ _ _
                    (dwarf_get_units_ended d (Some sp') w2 (end_of x) Hd2 eq_refl)). }
  unfold w2, w1. cbn. by rewrite <- (assoc_L (++)).
Qed.

Section Runs.

Variable __libdw_filepath :
  option string → option string → option string → option string.

Abbreviation find_split_unit := (__libdw_find_split_unit __libdw_filepath).

(** *** The runs, one by one *)

(** A link that was tried is returned as it is. *)
Lemma run_tried w cu c :
  unit_at w cu c → split c ≠ CU_minus1 →
  find_split_unit cu w = Returns (split c) w.
Proof.
  intros Hc Hs. unfold __libdw_find_split_unit.
  rewrite (bind_run _ _ w c w) by (by apply load_cu_run).
  by rewrite decide_True.
Qed.

Lemma find_split_unit_start w cu c :
  unit_at w cu c → split c = CU_minus1 →
  find_split_unit cu w
  = ((if decide (unit_type c = DW_UT_skeleton)
      then try_split_file __libdw_filepath cu c else ret tt);;
     finish cu) w.
Proof.
  intros Hc Hs. unfold __libdw_find_split_unit.
  rewrite (bind_run _ _ w c w) by (by apply load_cu_run).
  by rewrite decide_False by (intros ?; done).
Qed.

Lemma unit_at_container w cu c dw :
  unit_at w cu c → dwarfs w !! dbg c = Some dw → ended dw = false.
Proof. intros [_ (x & Hx & He)] Hdw. congruence. Qed.

Lemma run_no_candidate w cu c :
  unit_at w cu c → split c = CU_minus1 →
  no_candidate __libdw_filepath w c →
  find_split_unit cu w = Returns CU_NULL (gave_up w cu c []).
Proof.
  intros Hc Hs Hno. rewrite (find_split_unit_start w cu c Hc Hs).
  assert ((if decide (unit_type c = DW_UT_skeleton)
           then try_split_file __libdw_filepath cu c else ret tt) w
          = Returns tt w) as Hblock.
  { destruct (decide (unit_type c = DW_UT_skeleton)) as [Hsk|]; [|done].
    unfold try_split_file.
    destruct Hno as [?|[Hn|(a & dw & Ha & Hdw & Hp)]]; [done| |].
    - by rewrite Hn.
    - rewrite Ha. rewrite (bind_run _ _ w dw w)
        by (apply load_dwarf_run; [done|by eapply unit_at_container]).
      cbn [dwarf_formstring mbind option_bind]. by rewrite Hp. }
  rewrite (bind_run _ _ _ _ _ Hblock).
  rewrite (finish_run_null cu w c Hc Hs). unfold gave_up.
  by rewrite (right_id_L [] (++)).
Qed.

Lemma try_split_file_candidate w cu c p :
  unit_at w cu c → candidate __libdw_filepath w c p →
  try_split_file __libdw_filepath cu c w
  = (let* split_fd := sys_open p in
     match split_fd with
     | None => ret tt
     | Some fd =>
         (let* split_dwarf := dwarf_begin fd in
          match split_dwarf with
          | None => ret tt
          | Some d => let* x := load_dwarf d in scan_units cu d (units x)
          end);;
         sys_close fd
     end) w.
Proof.
  intros Hc (Hsk & a & dw & Ha & Hdw & Hp). unfold try_split_file. rewrite Ha.
  rewrite (bind_run _ _ w dw w)
    by (apply load_dwarf_run; [done|by eapply unit_at_container]).
  cbn [dwarf_formstring mbind option_bind]. by rewrite Hp.
Qed.

Lemma finish_gave_up w cu c evs :
  unit_at w cu c → split c = CU_minus1 →
  finish cu (mkWorld (cus w) (dwarfs w) (files w) (fds w) (trace w ++ evs))
  = Returns CU_NULL (gave_up w cu c evs).
Proof.
  intros Hc Hs. rewrite (finish_run_null cu _ c); [done| |done].
  by apply (unit_at_same w).
Qed.

Lemma run_open_fails w cu c p :
  unit_at w cu c → split c = CU_minus1 →
  candidate __libdw_filepath w c p →
  files w !! p = None →
  find_split_unit cu w = Returns CU_NULL (gave_up w cu c [EvOpen p None]).
Proof.
  intros Hc Hs Hcand Hf. rewrite (find_split_unit_start w cu c Hc Hs).
  rewrite decide_True by apply Hcand.
  erewrite (bind_run _ _ w tt).
  2:{ rewrite (try_split_file_candidate w cu c p Hc Hcand).
      unfold bind, sys_open. rewrite Hf. cbn. reflexivity. }
  by apply finish_gave_up.
Qed.

Lemma run_parse_fails w cu c p :
  unit_at w cu c → split c = CU_minus1 →
  candidate __libdw_filepath w c p →
  files w !! p = Some NotDebug →
  find_split_unit cu w
  = Returns CU_NULL
      (gave_up w cu c [EvOpen p (Some (fresh (dom (fds w))));
                       EvBegin (fresh (dom (fds w))) None;
                       EvClose (fresh (dom (fds w)))]).
Proof.
  intros Hc Hs Hcand Hf. rewrite (find_split_unit_start w cu c Hc Hs).
  rewrite decide_True by apply Hcand.
  erewrite (bind_run _ _ w tt).
  2:{ rewrite (try_split_file_candidate w cu c p Hc Hcand).
      rewrite (bind_run _ _ _ _ _ (sys_open_run w p _ Hf)).
      unfold bind, dwarf_begin. cbn [fds files opened].
      rewrite lookup_insert_eq. cbn. rewrite Hf. cbn. reflexivity. }
  erewrite (finish_run_null cu _ c); [|by apply (unit_at_same w)|exact Hs].
  unfold gave_up. cbn.
  by rewrite closed_again, <- !(assoc_L (++)).
Qed.

Lemma candidate_reaches_scan w cu c p hdrs :
  unit_at w cu c → split c = CU_minus1 →
  candidate __libdw_filepath w c p →
  files w !! p = Some (DebugInfo hdrs) →
  reaches_scan __libdw_filepath w cu c p hdrs.
Proof. intros Hc Hs [Hsk Hp] Hf. by split. Qed.

Lemma reaches_scan_candidate w cu c p hdrs :
  reaches_scan __libdw_filepath w cu c p hdrs →
  candidate __libdw_filepath w c p.
Proof. intros [? ? ? ? ?]. by split. Qed.

(** A resolution that gets as far as the scan. *)
Lemma find_split_unit_to_scan w cu c p hdrs :
  reaches_scan __libdw_filepath w cu c p hdrs →
  find_split_unit cu w =
    ((scan_units cu (length (dwarfs w)) (seq (length (cus w)) (length hdrs));;
      sys_close (fresh (dom (fds w))));;
     finish cu) (at_scan w p hdrs).
Proof.
  intros Hrs. pose proof Hrs as [Hcu Hun Hsk _ Hf].
  rewrite (find_split_unit_start w cu c Hcu Hun).
  rewrite decide_True by done.
  apply bind_cong_run.
  rewrite (try_split_file_candidate w cu c p Hcu)
    by (by eapply reaches_scan_candidate).
  rewrite (bind_run _ _ _ _ _ (sys_open_run w p _ Hf)).
  apply bind_cong_run.
  rewrite (bind_run _ _ _ _ _
             (dwarf_begin_run (opened w p) (fresh (dom (fds w))) p hdrs
                (lookup_insert_eq _ _ _) Hf)).
  rewrite (bind_run _ _ _ (new_dwarf (opened w p) (fresh (dom (fds w))) hdrs)
             (begun (opened w p) (fresh (dom (fds w))) hdrs)); [done|].
  apply load_dwarf_run; [|done]. cbn. by apply list_lookup_middle.
Qed.

Lemma at_scan_unit w cu c p hdrs :
  unit_at w cu c → unit_at (at_scan w p hdrs) cu c.
Proof.
  intros [Hc (x & Hx & He)]. split; cbn.
  - by apply lookup_app_l_Some.
  - exists x. split; [|done]. by apply lookup_app_l_Some.
Qed.

Lemma at_scan_container w p hdrs :
  dwarfs (at_scan w p hdrs) !! length (dwarfs w)
  = Some (new_dwarf w (fresh (dom (fds w))) hdrs).
Proof. cbn. by apply list_lookup_middle. Qed.

Lemma at_scan_first_unit w p h post :
  unit_at (at_scan w p (h :: post)) (length (cus w))
          (mkCU (length (dwarfs w)) h.1 h.2 CU_minus1 []).
Proof.
  split; cbn.
  - by apply list_lookup_middle.
  - eexists. split; [by apply list_lookup_middle|done].
Qed.

(** The scan of a container without units: nothing is found and the
    descriptor is closed; the container is not ended. *)
Lemma run_scan_empty w cu c p :
  reaches_scan __libdw_filepath w cu c p [] →
  find_split_unit cu w = Returns CU_NULL (unmatched w cu c p).
Proof.
  intros Hrs. pose proof Hrs as [Hcu Hun _ _ _].
  rewrite (find_split_unit_to_scan _ _ _ _ _ Hrs).
  cbn [length seq].
  erewrite (bind_run _ _ _ tt).
  2:{ erewrite (bind_run _ _ _ tt); [reflexivity|].
      apply (scan_units_empty cu _ _ _ (at_scan_container w p []) eq_refl). }
  erewrite finish_run_null; [|by apply (unit_at_same (at_scan w p [])), at_scan_unit|done].
  unfold unmatched. cbn.
  by rewrite closed_again, (right_id_L [] (++)), <- !(assoc_L (++)).
Qed.

(** The scan of a container whose first unit matches. *)
Lemma run_scan_match w cu c p h post :
  reaches_scan __libdw_filepath w cu c p (h :: post) →
  hdr_matches (unit_id8 c) h = true →
  find_split_unit cu w
  = Returns (CU_at (length (cus w))) (matched w cu c p h post).
Proof.
  intros Hrs Hyes. pose proof Hrs as [Hcu Hun _ _ _].
  rewrite (find_split_unit_to_scan _ _ _ _ _ Hrs).
  assert (cu < length (cus w))%nat as Hlt
    by (destruct Hcu as [Hc _]; by eapply lookup_lt_Some).
  cbn [length seq].
  erewrite (bind_run _ _ _ tt).
  2:{ erewrite (bind_run _ _ _ tt).
      2:{ apply (scan_units_match cu _ c (length (cus w)) _ _ _ _
                   (at_scan_unit w cu c p (h :: post) Hcu)
                   (at_scan_first_unit w p h post) Hyes ltac:(lia)
                   (at_scan_container w p (h :: post)) eq_refl). }
      reflexivity. }
  erewrite (finish_run_linked cu _ (set_split (CU_at (length (cus w))) c));
    [|split; [|destruct Hcu as [_ (x & Hx & He)]; exists x; split; [|done]];
      cbn|done].
  - unfold matched. cbn.
    rewrite closed_again, <- !(assoc_L (++)). f_equal. f_equal. f_equal.
    replace (length (dwarfs w)) with (length (dwarfs w) + 0)%nat at 1 by lia.
    by rewrite insert_app_r.
  - rewrite list_lookup_insert_ne by lia.
    apply list_lookup_insert_eq. rewrite length_app. lia.
  - rewrite list_lookup_insert_ne.
    + by apply lookup_app_l_Some.
    + apply lookup_lt_Some in Hx. lia.
Qed.

(** The scan of a container whose first unit does not match: the run
    ends in the use of the container that its loop has ended. *)
Lemma run_scan_mismatch w cu c p h post :
  reaches_scan __libdw_filepath w cu c p (h :: post) →
  hdr_matches (unit_id8 c) h = false →
  find_split_unit cu w
  = Faults (Use_after_free (length (dwarfs w))) (mismatched w p (h :: post)).
Proof.
  intros Hrs Hno. pose proof Hrs as [Hcu Hun _ _ _].
  rewrite (find_split_unit_to_scan _ _ _ _ _ Hrs).
  cbn [length seq].
  erewrite (bind_fault _ _ _ _).
  2:{ erewrite (bind_fault _ _ _ _); [reflexivity|].
      apply (scan_units_mismatch cu _ c (length (cus w)) _ _ _ _
               (at_scan_unit w cu c p (h :: post) Hcu) Hun
               (at_scan_first_unit w p h post) Hno
               (at_scan_container w p (h :: post)) eq_refl). }
  unfold mismatched. cbn. rewrite <- !(assoc_L (++)). f_equal. f_equal.
  replace (length (dwarfs w)) with (length (dwarfs w) + 0)%nat at 1 by lia.
  by rewrite insert_app_r.
Qed.

(** *** All the runs *)

(** The ways of a resolution that has to try. *)
Lemma find_split_unit_cases w cu c :
  unit_at w cu c → split c = CU_minus1 →
  (no_candidate __libdw_filepath w c
   ∧ find_split_unit cu w = Returns CU_NULL (gave_up w cu c []))
  ∨ (∃ p, candidate __libdw_filepath w c p ∧ files w !! p = None
          ∧ find_split_unit cu w
            = Returns CU_NULL (gave_up w cu c [EvOpen p None]))
  ∨ (∃ p, candidate __libdw_filepath w c p ∧ files w !! p = Some NotDebug
          ∧ find_split_unit cu w
            = Returns CU_NULL
                (gave_up w cu c [EvOpen p (Some (fresh (dom (fds w))));
                                 EvBegin (fresh (dom (fds w))) None;
                                 EvClose (fresh (dom (fds w)))]))
  ∨ (∃ p, reaches_scan __libdw_filepath w cu c p []
          ∧ find_split_unit cu w = Returns CU_NULL (unmatched w cu c p))
  ∨ (∃ p h post, reaches_scan __libdw_filepath w cu c p (h :: post)
                 ∧ hdr_matches (unit_id8 c) h = true
                 ∧ find_split_unit cu w
                   = Returns (CU_at (length (cus w)))
                             (matched w cu c p h post))
  ∨ (∃ p h post, reaches_scan __libdw_filepath w cu c p (h :: post)
                 ∧ hdr_matches (unit_id8 c) h = false
                 ∧ find_split_unit cu w
                   = Faults (Use_after_free (length (dwarfs w)))
                            (mismatched w p (h :: post))).
Proof.
  intros Hc Hs.
  destruct (decide (unit_type c = DW_UT_skeleton)) as [Hsk|Hsk]; cycle 1.
  { left. split; [by left|]. apply (run_no_candidate w cu c); [done|done|by left]. }
  destruct (dwo_name_attr (cudie c)) as [a|] eqn:Ha; cycle 1.
  { left. split; [right; by left|].
    apply (run_no_candidate w cu c); [done|done|right; by left]. }
  pose proof Hc as [_ (dw & Hdw & He)].
  destruct (dwo_path_of __libdw_filepath (debugdir dw)
              (dwarf_formstring (dwarf_attr (cudie c) DW_AT_comp_dir))
              (formstring a)) as [p|] eqn:Hp; cycle 1.
  { assert (no_candidate __libdw_filepath w c) as Hno
      by (right; right; by exists a, dw).
    left. split; [done|]. by apply run_no_candidate. }
  assert (candidate __libdw_filepath w c p) as Hcand
    by (split; [done|by exists a, dw]).
  destruct (files w !! p) as [[|[|h post]]|] eqn:Hf.
  - right. right. left. exists p. split; [done|]. split; [done|].
    by apply run_parse_fails.
  - do 3 right. left. exists p.
    assert (reaches_scan __libdw_filepath w cu c p []) as Hrs
      by (by apply candidate_reaches_scan).
    split; [done|]. by apply run_scan_empty.
  - assert (reaches_scan __libdw_filepath w cu c p (h :: post)) as Hrs
      by (by apply candidate_reaches_scan).
    destruct (hdr_matches (unit_id8 c) h) eqn:Hh.
    + do 4 right. left. exists p, h, post. split; [done|]. split; [done|].
      by apply run_scan_match.
    + do 5 right. exists p, h, post. split; [done|]. split; [done|].
      by apply (run_scan_mismatch w cu c).
  - right. left. exists p. split; [done|]. split; [done|].
    by apply run_open_fails.
Qed.

(** A run that returns was started on a unit that is there. *)
Lemma find_split_unit_unit w cu r w' :
  find_split_unit cu w = Returns r w' → ∃ c, unit_at w cu c.
Proof.
  unfold __libdw_find_split_unit. intros H.
  apply bind_Returns in H as (c & w1 & [Hc ->]%load_cu_Returns & _). eauto.
Qed.

(** The worlds in which a resolution that had to try returns. *)
Lemma find_split_unit_returned w cu c r w' :
  unit_at w cu c → split c = CU_minus1 →
  find_split_unit cu w = Returns r w' →
  (r = CU_NULL ∧ ∃ evs, w' = gave_up w cu c evs
                        ∧ exit_path (fds w) CU_NULL evs
                        ∧ ∀ d, EvFdDone d ∉ evs)
  ∨ (r = CU_NULL ∧ ∃ p, w' = unmatched w cu c p)
  ∨ (r = CU_at (length (cus w)) ∧ ∃ p h post, w' = matched w cu c p h post).
Proof.
  intros Hc Hs Hrun.
  destruct (find_split_unit_cases w cu c Hc Hs)
    as [[_ H]|[(p & _ & _ & H)|[(p & _ & _ & H)|[(p & _ & H)
       |[(p & h & post & _ & _ & H)|(p & h & post & _ & _ & H)]]]]];
    rewrite H in Hrun; try discriminate; injection Hrun as <- <-.
  - left. split; [done|]. exists []. split; [done|]. split; [constructor|].
    intros d Hin. by apply elem_of_nil in Hin.
  - left. split; [done|]. eexists. split; [done|]. split; [constructor|].
    intros d Hin. repeat (apply elem_of_cons in Hin as [Hin|Hin];
                          [discriminate|]).
    by apply elem_of_nil in Hin.
  - left. split; [done|]. eexists. split; [done|].
    split; [constructor; apply is_fresh|].
    intros d Hin. repeat (apply elem_of_cons in Hin as [Hin|Hin];
                          [discriminate|]).
    by apply elem_of_nil in Hin.
  - right. left. split; [done|]. by exists p.
  - right. right. split; [done|]. by exists p, h, post.
Qed.

(** What holds of each of these worlds. *)
Lemma gave_up_unit w cu c evs :
  unit_at w cu c → unit_at (gave_up w cu c evs) cu (set_split CU_NULL c).
Proof. intros Hc. by apply unit_at_insert. Qed.

Lemma unmatched_unit w cu c p :
  unit_at w cu c → unit_at (unmatched w cu c p) cu (set_split CU_NULL c).
Proof.
  intros [Hc (x & Hx & He)]. split; cbn.
  - apply list_lookup_insert_eq. by eapply lookup_lt_Some.
  - exists x. split; [|done]. by apply lookup_app_l_Some.
Qed.

Lemma matched_unit w cu c p h post :
  unit_at w cu c →
  unit_at (matched w cu c p h post) cu (set_split (CU_at (length (cus w))) c).
Proof.
  intros [Hc (x & Hx & He)].
  assert (cu < length (cus w))%nat by (by eapply lookup_lt_Some).
  split; cbn.
  - rewrite list_lookup_insert_ne by lia.
    apply list_lookup_insert_eq. rewrite length_app. lia.
  - exists x. split; [|done]. by apply lookup_app_l_Some.
Qed.

Lemma matched_split_unit w cu c p h post :
  unit_at (matched w cu c p h post) (length (cus w))
          (mkCU (length (dwarfs w)) h.1 h.2 (CU_at cu) []).
Proof.
  split; cbn.
  - apply list_lookup_insert_eq.
    rewrite length_insert, length_app. cbn. lia.
  - eexists. split; [by apply list_lookup_middle|done].
Qed.







(** The link after a resolution that returns: it is what was returned,
    it is not [(Dwarf_CU * ) -1], and the unit can be read. *)
Lemma find_split_unit_link cu w r w' :
  find_split_unit cu w = Returns r w' →
  ∃ c', unit_at w' cu c' ∧ split c' = r ∧ r ≠ CU_minus1.
Proof.
  intros Hrun. destruct (find_split_unit_unit _ _ _ _ Hrun) as [c Hc].
  destruct (decide (split c = CU_minus1)) as [Hs|Hs]; cycle 1.
  { rewrite (run_tried w cu c Hc Hs) in Hrun. injection Hrun as <- <-.
    by exists c. }
  destruct (find_split_unit_returned w cu c r w' Hc Hs Hrun)
    as [[-> (evs & -> & _)]|[[-> (p & ->)]|[-> (p & h & post & ->)]]].
  - exists (set_split CU_NULL c). split; [by apply gave_up_unit|done].
  - exists (set_split CU_NULL c). split; [by apply unmatched_unit|done].
  - eexists. split; [by apply matched_unit|done].
Qed.

(** A link to a unit that a resolution made goes both ways. *)
Lemma find_split_unit_linked w cu c s w' :
  cus w !! cu = Some c → split c = CU_minus1 →
  find_split_unit cu w = Returns (CU_at s) w' →
  ∃ c' sc, unit_at w' cu c' ∧ split c' = CU_at s
           ∧ unit_at w' s sc ∧ split sc = CU_at cu.
Proof.
  intros Hcu Hs Hrun. destruct (find_split_unit_unit _ _ _ _ Hrun) as [c0 Hc].
  assert (c0 = c) as -> by (destruct Hc as [Hc _]; congruence).
  destruct (find_split_unit_returned w cu c _ w' Hc Hs Hrun)
    as [[? _]|[[? _]|[[= ->] (p & h & post & ->)]]]; [done|done|].
  eexists _, _. split; [by apply matched_unit|]. split; [done|].
  split; [apply matched_split_unit|done].
Qed.

(** *** The claims *)

(** C2.  Resolution is memoized.  A call that returns does not return
    [(Dwarf_CU * ) -1], and a second call returns the same link and leaves
    the whole world as the first call left it: nothing is opened, logged
    or written, and the link is not tried again.  The first call on a
    unit that is there returns, unless its scan comes to a unit that
    does not match: then it ends in the use of the container that the
    scan has ended. *)
Theorem find_split_unit_memoized :
  (∀ w cu r w1,
     __libdw_find_split_unit __libdw_filepath cu w = Returns r w1 →
     r ≠ CU_minus1
     ∧ __libdw_find_split_unit __libdw_filepath cu w1 = Returns r w1)
  ∧ (∀ w cu c,
       unit_at w cu c →
       (∃ r w1, __libdw_find_split_unit __libdw_filepath cu w = Returns r w1)
       ∨ (∃ p h post w1,
            reaches_scan __libdw_filepath w cu c p (h :: post)
            ∧ hdr_matches (unit_id8 c) h = false
            ∧ __libdw_find_split_unit __libdw_filepath cu w
              = Faults (Use_after_free (length (dwarfs w))) w1)).
Proof.
  split.
  - intros w cu r w1 Hrun.
    destruct (find_split_unit_link cu w r w1 Hrun) as (c' & Hc' & <- & Hne).
    split; [done|]. by apply run_tried.
  - intros w cu c Hc.
    destruct (decide (split c = CU_minus1)) as [Hs|Hs]; cycle 1.
    { left. eexists _, _. by apply run_tried. }
    destruct (find_split_unit_cases w cu c Hc Hs)
      as [[_ H]|[(p & _ & _ & H)|[(p & _ & _ & H)|[(p & _ & H)
         |[(p & h & post & _ & _ & H)|(p & h & post & Hrs & Hh & H)]]]]];
      try (left; by eexists _, _).
    right. by exists p, h, post, (mismatched w p (h :: post)).
Qed.




(** C5.  The scan and the first unit.  When the first unit of the
    container is of kind split-compile and has the signature of the
    skeleton, it is accepted.  When it is not, the scan does not go on
    to the next unit: the body of the loop ends the container, the
    condition of the loop reads it, and the run ends there, whatever
    units follow, with the skeleton and every unit of the container
    unlinked and the descriptor open. *)
Theorem find_split_unit_mismatch_ends_scan w cu c p h post :
  reaches_scan __libdw_filepath w cu c p (h :: post) →
  let d := length (dwarfs w) in
  let sp := length (cus w) in
  let fd := fresh (dom (fds w)) in
  (hdr_matches (unit_id8 c) h = true →
   ∃ w' s, __libdw_find_split_unit __libdw_filepath cu w
           = Returns (CU_at sp) w'
           ∧ cus w' !! sp = Some s ∧ (unit_type s, unit_id8 s) = h
           ∧ dwarfs w' !! dbg s ≫= (λ x, units x !! 0%nat) = Some sp)
  ∧ (hdr_matches (unit_id8 c) h = false →
     ∃ w1 x, __libdw_find_split_unit __libdw_filepath cu w
             = Faults (Use_after_free d) w1
             ∧ trace w1 = trace w ++ [EvOpen p (Some fd); EvBegin fd (Some d);
                                      EvGetUnits d (Some sp); EvEnd d]
             ∧ dwarfs w1 !! d = Some x ∧ ended x = true
             ∧ cus w1 !! cu = Some c
             ∧ Forall (λ u, split u = CU_minus1) (drop sp (cus w1))
             ∧ fds w1 !! fd = Some p).
Proof.
  intros Hrs d sp fd. split; intros Hh.
  - exists (matched w cu c p h post), (mkCU d h.1 h.2 (CU_at cu) []).
    split; [by apply run_scan_match|].
    destruct (matched_split_unit w cu c p h post) as [Hsp _].
    split; [done|]. split; [by destruct h|].
    cbn [dbg]. unfold matched. cbn [dwarfs].
    by rewrite list_lookup_middle.
  - exists (mismatched w p (h :: post)),
           (end_of (new_dwarf w fd (h :: post))).
    split; [by apply (run_scan_mismatch w cu c)|].
    split; [done|]. unfold mismatched. cbn [cus dwarfs fds].
    split; [by apply list_lookup_middle|]. split; [done|].
    split; [destruct Hrs as [[Hc _] _ _ _ _]; by apply lookup_app_l_Some|].
    split; [|by apply lookup_insert_eq].
    unfold sp. rewrite drop_app_length. unfold intern_units.
    by apply Forall_fmap, Forall_true.
Qed.

(** C6.  Symmetry.  When a resolution that had to try links the skeleton
    [cu] to the unit [s], the link of [s] names [cu]. *)
Theorem find_split_unit_link_symmetric w cu c s w' :
  cus w !! cu = Some c → split c = CU_minus1 →
  __libdw_find_split_unit __libdw_filepath cu w = Returns (CU_at s) w' →
  ∃ c' sc, cus w' !! cu = Some c' ∧ split c' = CU_at s
           ∧ cus w' !! s = Some sc ∧ split sc = CU_at cu.
Proof.
  intros Hcu Hun Hrun.
  destruct (find_split_unit_linked w cu c s w' Hcu Hun Hrun)
    as (c' & sc & [Hc' _] & Hs & [Hsc _] & Hback).
  by exists c', sc.
Qed.

End Runs.

(** *** The resolver on the example worlds *)

(** C1.  The opened container is ended inside the scan loop, for a unit
    that does not match, and not after the loop.  With one unit of
    another signature, [dwarf_end] comes before the [dwarf_get_units]
    call of the loop condition, which then reads the ended container:
    the run does not get to [close] and leaves the link untried.  With
    no unit the container is never ended although the link becomes
    [NULL].  With two units of another signature, and with a unit that
    matches after one that does not, the run ends in the same way after
    the first unit. *)
Theorem find_split_unit_ends_container_inside_scan :
  resolution [(DW_UT_split_compile, 0xBB)]
  = (inr (Use_after_free 1),
     [EvOpen "/build/a.dwo" (Some 4%nat); EvBegin 4 (Some 1%nat);
      EvGetUnits 1 (Some 1%nat); EvEnd 1],
     [false; true], Some "/build/a.dwo")
  ∧ resolution []
    = (inl CU_NULL,
       [EvOpen "/build/a.dwo" (Some 4%nat); EvBegin 4 (Some 1%nat);
        EvGetUnits 1 None; EvClose 4],
       [false; false], None)
  ∧ resolution [(DW_UT_split_compile, 0xBB); (DW_UT_split_type, 0xAA)]
    = (inr (Use_after_free 1),
       [EvOpen "/build/a.dwo" (Some 4%nat); EvBegin 4 (Some 1%nat);
        EvGetUnits 1 (Some 1%nat); EvEnd 1],
       [false; true], Some "/build/a.dwo")
  ∧ resolution [(DW_UT_split_compile, 0xBB); (DW_UT_split_compile, 0xAA)]
    = (inr (Use_after_free 1),
       [EvOpen "/build/a.dwo" (Some 4%nat); EvBegin 4 (Some 1%nat);
        EvGetUnits 1 (Some 1%nat); EvEnd 1],
       [false; true], Some "/build/a.dwo").
Proof. repeat split; vm_compute; reflexivity. Qed.

Lemma one_skeleton_unit hdrs :
  unit_at (one_skeleton hdrs) 0 (skeleton 0xAA "a.dwo").
Proof. split; [reflexivity|]. by eexists. Defined.

Lemma one_skeleton_reaches_scan hdrs :
  reaches_scan filepath_join (one_skeleton hdrs) 0 (skeleton 0xAA "a.dwo")
    "/build/a.dwo" hdrs.
Proof.
  split; try reflexivity.
  - apply one_skeleton_unit.
  - eexists _, _. repeat split; reflexivity.
Defined.

Lemma find_split_unit_memoized_witness :
  ∃ r w1,
    __libdw_find_split_unit filepath_join 0
      (one_skeleton [(DW_UT_split_compile, 0xAA)]) = Returns r w1
    ∧ r ≠ CU_minus1
    ∧ __libdw_find_split_unit filepath_join 0 w1 = Returns r w1.
Proof.
  destruct (proj2 (find_split_unit_memoized filepath_join)
              (one_skeleton [(DW_UT_split_compile, 0xAA)]) 0%nat
              (skeleton 0xAA "a.dwo") (one_skeleton_unit _))
    as [(r & w1 & Hrun)|(p & h & post & w1 & _ & _ & Hrun)].
  - exists r, w1. split; [done|].
    exact (proj1 (find_split_unit_memoized filepath_join) _ _ _ _ Hrun).
  - by vm_compute in Hrun.
Defined.


(** The four resolutions of [four_skeletons]: a link, and three times
    nothing; every descriptor that was opened has been closed, and no
    container was ended. *)
Example four_resolutions :
  match resolve_each filepath_join [0; 1; 2; 3]%nat four_skeletons with
  | Returns rs w => Some (rs, trace w, map_to_list (fds w), ended <$> dwarfs w)
  | Faults _ _ => None
  end
  = Some ([CU_at 4; CU_NULL; CU_NULL; CU_NULL],
          [EvOpen "/build/a.dwo" (Some 4%nat); EvBegin 4 (Some 1%nat);
           EvGetUnits 1 (Some 4%nat); EvFdDone 1; EvClose 4;
           EvOpen "/build/b.dwo" (Some 4%nat); EvBegin 4 (Some 2%nat);
           EvGetUnits 2 None; EvClose 4;
           EvOpen "/build/c.dwo" (Some 4%nat); EvBegin 4 None; EvClose 4;
           EvOpen "/build/d.dwo" None],
          [(3%nat, "/bin/prog")], [false; false; false]).
Proof. vm_compute. reflexivity. Qed.

Lemma find_split_unit_mismatch_ends_scan_witness :
  ∃ w1 x,
    __libdw_find_split_unit filepath_join 0
      (one_skeleton [(DW_UT_split_compile, 0xBB); (DW_UT_split_compile, 0xAA)])
    = Faults (Use_after_free 1) w1
    ∧ trace w1 = [] ++ [EvOpen "/build/a.dwo" (Some 4%nat);
                        EvBegin 4 (Some 1%nat);
                        EvGetUnits 1 (Some 1%nat); EvEnd 1]
    ∧ dwarfs w1 !! 1%nat = Some x ∧ ended x = true
    ∧ cus w1 !! 0%nat = Some (skeleton 0xAA "a.dwo")
    ∧ Forall (λ u, split u = CU_minus1) (drop 1 (cus w1))
    ∧ fds w1 !! 4%nat = Some "/build/a.dwo".
Proof.
  apply (proj2 (find_split_unit_mismatch_ends_scan filepath_join _ _ _ _ _ _
                  (one_skeleton_reaches_scan _))).
  reflexivity.
Defined.

Lemma find_split_unit_link_symmetric_witness :
  ∃ w' c' sc,
    __libdw_find_split_unit filepath_join 0
      (one_skeleton [(DW_UT_split_compile, 0xAA)]) = Returns (CU_at 1) w'
    ∧ cus w' !! 0%nat = Some c' ∧ split c' = CU_at 1
    ∧ cus w' !! 1%nat = Some sc ∧ split sc = CU_at 0.
Proof.
  destruct (__libdw_find_split_unit filepath_join 0
              (one_skeleton [(DW_UT_split_compile, 0xAA)]))
    as [r w'|u w'] eqn:Hrun; [|by vm_compute in Hrun].
  assert (r = CU_at 1) as ->.
  { apply (f_equal (λ e, match e with Returns a _ => Some a | _ => None end))
      in Hrun.
    vm_compute in Hrun. congruence. }
  destruct (find_split_unit_link_symmetric filepath_join
              (one_skeleton [(DW_UT_split_compile, 0xAA)]) 0
              (skeleton 0xAA "a.dwo") 1 w' eq_refl eq_refl Hrun)
    as (c' & sc & H).
  by exists w', c', sc.
Defined.

End SplitUnitFacts.

(** ** Facts about the printing of location expressions *)

Module VarlocsFacts.
Import Varlocs.
Local Open Scope print_scope.

#[local] Arguments hex : simpl never.
#[local] Arguments hex02 : simpl never.
#[local] Arguments dec : simpl never.
#[local] Arguments to_sword : simpl never.
#[local] Arguments wrap64 : simpl never.

Section Unfolding.

Variable L : Libdw.
Variable g : Globals.

Lemma pbind_Done {A B} (m : P A) (k : A → P B) out a out' :
  m out = Done a out' → pbind m k out = k a out'.
Proof. unfold pbind. by intros ->. Qed.

Lemma pbind_Fatal {A B} (m : P A) (k : A → P B) out e out' :
  m out = Fatal e out' → pbind m k out = Fatal e out'.
Proof. unfold pbind. by intros ->. Qed.

Lemma print_ops_ext pe1 pe2 attr exprs addr depth :
  (∀ a e ad out, pe1 a e ad depth out = pe2 a e ad depth out) →
  ∀ out, print_ops pe1 attr exprs addr depth out
         = print_ops pe2 attr exprs addr depth out.
Proof.
  intros Hpe. induction exprs as [|e rest IH]; intros out; [done|].
  cbn [print_ops]. unfold pbind at 1 3. rewrite Hpe.
  destruct (pe2 attr e addr depth out) as [[] out1|]; [|done].
  unfold pbind. destruct (printf _ out1) as [[] out2|]; [|done]. apply IH.
Qed.

Lemma print_expr_block_with_ext pe1 pe2 attr exprs addr depth :
  (∀ a e ad out, pe1 a e ad depth out = pe2 a e ad depth out) →
  ∀ out, print_expr_block_with pe1 attr exprs addr depth out
         = print_expr_block_with pe2 attr exprs addr depth out.
Proof.
  intros Hpe out. unfold print_expr_block_with, pbind.
  destruct (printf "{" out) as [[] out1|]; [|done].
  by rewrite (print_ops_ext pe1 pe2 attr exprs addr depth Hpe).
Qed.

(** The body of [print_expr] calls [print_expr_block] one level deeper
    only. *)
Lemma print_expr_body_ext blk1 blk2 attr expr addr depth :
  (∀ a es ad out, blk1 a es ad (depth + 1) out = blk2 a es ad (depth + 1) out) →
  ∀ out, print_expr_body L g blk1 attr expr addr depth out
         = print_expr_body L g blk2 attr expr addr depth out.
Proof.
  intros Hblk out. unfold print_expr_body.
  destruct (depth >? MAX_DEPTH); [done|].
  destruct (atom expr); try reflexivity;
    unfold pbind, or_error, print_referenced_location;
    repeat first [ reflexivity | apply Hblk | case_match ].
Qed.

Lemma fuel_at_step depth :
  depth ≤ MAX_DEPTH → fuel_at depth = S (fuel_at (depth + 1)).
Proof. unfold fuel_at, MAX_DEPTH. lia. Qed.

(** [print_expr] is its body, run over [print_expr_block]: the equation
    of the C function. *)
Lemma print_expr_unfold attr expr addr depth out :
  print_expr L g attr expr addr depth out
  = print_expr_body L g (print_expr_block L g) attr expr addr depth out.
Proof.
  unfold print_expr. destruct (decide (depth ≤ MAX_DEPTH)) as [Hle|Hgt].
  - rewrite (fuel_at_step depth Hle). cbn [print_expr_fuel].
    apply print_expr_body_ext. intros a es ad out'.
    unfold print_expr_block. by apply print_expr_block_with_ext.
  - unfold fuel_at. cbn [print_expr_fuel]. unfold print_expr_body.
    by rewrite (proj2 (Z.gtb_lt depth MAX_DEPTH)) by lia.
Qed.

Lemma fueled_pret {A} (a : A) : fueled (pret a).
Proof. by intros out out'. Qed.

Lemma fueled_printf s : fueled (printf s).
Proof. by intros out out'. Qed.

Lemma fueled_error {A} msg : fueled (@error A msg).
Proof. by intros out out'. Qed.

Lemma fueled_assert b what : fueled (assert b what).
Proof. intros out out'. unfold assert. by destruct b. Qed.

Lemma fueled_or_error {A} (x : option A) msg : fueled (or_error x msg).
Proof. destruct x; [apply fueled_pret|apply fueled_error]. Qed.

Lemma fueled_pbind {A B} (m : P A) (k : A → P B) :
  fueled m → (∀ a, fueled (k a)) → fueled (pbind m k).
Proof.
  intros Hm Hk out out'. unfold pbind.
  destruct (m out) as [a out1|e out1] eqn:Hrun; [apply Hk|].
  intros [= -> ->]. by apply Hm in Hrun.
Qed.

Lemma fueled_for_each {A} (l : list A) body :
  (∀ a, fueled (body a)) → fueled (for_each l body).
Proof.
  intros Hb. induction l as [|a l IH]; [apply fueled_pret|].
  cbn [for_each]. by apply fueled_pbind.
Qed.

Lemma fueled_print_base_type base : fueled (print_base_type L base).
Proof.
  unfold print_base_type.
  repeat first [ apply fueled_pbind; [|intros ?] | apply fueled_or_error
               | apply fueled_printf | apply fueled_error | apply fueled_pret
               | case_match ].
Qed.

Lemma fueled_print_ops pe attr exprs addr depth :
  (∀ a e ad, fueled (pe a e ad depth)) →
  fueled (print_ops pe attr exprs addr depth).
Proof.
  intros Hpe. induction exprs as [|e rest IH]; [apply fueled_pret|].
  cbn [print_ops].
  apply fueled_pbind; [apply Hpe|intros _].
  apply fueled_pbind; [apply fueled_printf|intros _]. apply IH.
Qed.

Lemma fueled_print_expr_block_with pe attr exprs addr depth :
  (∀ a e ad, fueled (pe a e ad depth)) →
  fueled (print_expr_block_with pe attr exprs addr depth).
Proof.
  intros Hpe. unfold print_expr_block_with.
  apply fueled_pbind; [apply fueled_printf|intros _].
  apply fueled_pbind; [by apply fueled_print_ops|intros _].
  apply fueled_printf.
Qed.

Lemma fueled_print_expr_body blk attr expr addr depth :
  (∀ a es ad, fueled (blk a es ad (depth + 1))) →
  fueled (print_expr_body L g blk attr expr addr depth).
Proof.
  intros Hblk. unfold print_expr_body.
  destruct (depth >? MAX_DEPTH); [apply fueled_error|].
  destruct (atom expr); unfold print_referenced_location;
    repeat first [ apply fueled_pbind; [|intros ?] | apply fueled_or_error
                 | apply fueled_printf | apply fueled_error
                 | apply fueled_pret | apply fueled_assert
                 | apply fueled_print_base_type | apply Hblk
                 | apply fueled_for_each; intros ?
                 | case_match ].
Qed.

(** The model never runs out of fuel: the guard of [print_expr] ends
    every chain of nested calls first. *)
Lemma print_expr_fueled attr expr addr depth :
  fueled (print_expr L g attr expr addr depth).
Proof.
  unfold print_expr.
  assert (∀ n depth, (fuel_at depth ≤ S n)%nat →
            ∀ attr expr addr,
              fueled (print_expr_fuel L g (S n) attr expr addr depth)) as H.
  { clear. induction n as [|n IH]; intros depth Hfuel attr expr addr.
    - cbn [print_expr_fuel]. intros out out'. unfold print_expr_body.
      rewrite (proj2 (Z.gtb_lt depth MAX_DEPTH)); [done|].
      unfold fuel_at, MAX_DEPTH in *. lia.
    - cbn [print_expr_fuel]. apply fueled_print_expr_body. intros a es ad.
      apply fueled_print_expr_block_with. intros a' e' ad'.
      destruct (decide (depth ≤ MAX_DEPTH)) as [Hle|Hgt].
      + apply IH. rewrite (fuel_at_step depth Hle) in Hfuel. lia.
      + apply IH. unfold fuel_at, MAX_DEPTH in *. lia. }
  by apply H.
Qed.

Lemma guard_passes depth : depth ≤ MAX_DEPTH → (depth >? MAX_DEPTH) = false.
Proof. intros H. rewrite Z.gtb_ltb. by apply Z.ltb_ge. Qed.

Lemma guard_stops depth : MAX_DEPTH < depth → (depth >? MAX_DEPTH) = true.
Proof. intros H. apply Z.gtb_lt. lia. Qed.

(** An implicit pointer or a variable value, up to the location of the
    DIE it refers to, which is looked at one level deeper. *)
Lemma print_expr_reference a expr addr depth out attrval impl_die :
  depth ≤ MAX_DEPTH →
  (atom expr = DW_OP_GNU_variable_value
   ∨ (atom expr = DW_OP_implicit_pointer
      ∨ atom expr = DW_OP_GNU_implicit_pointer)
     ∧ dwarf_getlocation_implicit_pointer L (Some a) expr = Some attrval) →
  dwarf_getlocation_attr L (Some a) expr = Some attrval →
  dwarf_getlocation_die L (Some a) expr = Some impl_die →
  print_expr L g (Some a) expr addr depth out
  = print_referenced_location L (print_expr_block L g) attrval addr
      (depth + 1) (out +:+ reference_header L expr impl_die).
Proof.
  intros Hle Hop Ha Hd.
  rewrite print_expr_unfold. unfold print_expr_body, reference_header.
  rewrite guard_passes by done.
  destruct Hop as [Hop|[[Hop|Hop] Hp]]; rewrite Hop; rewrite <- ?Hop.
  - by rewrite Ha, Hd.
  - rewrite Hp, Ha, Hd. cbn [or_error]. unfold pbind at 1. cbn [pret].
    unfold pbind at 1. unfold pbind at 1. cbn [pret].
    rewrite bool_decide_eq_true_2, !Z.eqb_refl by done. done.
  - rewrite Hp, Ha, Hd. cbn [or_error]. unfold pbind at 1. cbn [pret].
    unfold pbind at 1. unfold pbind at 1. cbn [pret].
    rewrite bool_decide_eq_true_2, !Z.eqb_refl by done. done.
Qed.

(** C3.  The recursion guard.  A call of [print_expr] at a depth above
    64 ends with the depth-exceeded error, whatever the operation; at a
    depth up to 64 the guard lets the operation through (an operation
    without operands is printed).  The operations that recurse (a call
    of a DIE, an entry value, an implicit pointer or variable value with
    one location) print their sub-expression one level deeper.  Printed
    from depth 0, a chain of 64 nested calls succeeds and a chain of 65
    fails. *)
Theorem print_expr_depth_cap :
  MAX_DEPTH = 64
  ∧ (∀ attr expr addr depth out,
       MAX_DEPTH < depth →
       print_expr L g attr expr addr depth out
       = Fatal (Exit_failure "print_expr recursion depth exceeded") out)
  ∧ (∀ attr expr addr depth out,
       depth ≤ MAX_DEPTH → atom expr = DW_OP_nop →
       print_expr L g attr expr addr depth out
       = Done tt (out +:+ dwarf_opcode_string L DW_OP_nop))
  ∧ (∀ a expr addr depth out call_attr call_die call_ops,
       depth ≤ MAX_DEPTH →
       atom expr = DW_OP_call2 ∨ atom expr = DW_OP_call4
       ∨ atom expr = DW_OP_call_ref →
       dwarf_getlocation_attr L (Some a) expr = Some call_attr →
       dwarf_getlocation_die L (Some a) expr = Some call_die →
       dwarf_getlocation L call_attr = Some call_ops →
       print_expr L g (Some a) expr addr depth out
       = print_expr_block L g (Some call_attr) call_ops addr (depth + 1)
           (out +:+ (dwarf_opcode_string L (atom expr) +:+ "(["
                     +:+ hex (dwarf_dieoffset L call_die) +:+ "]) ")))
  ∧ (∀ attr expr addr depth out entry_attr entry_ops,
       depth ≤ MAX_DEPTH →
       atom expr = DW_OP_entry_value ∨ atom expr = DW_OP_GNU_entry_value →
       dwarf_getlocation_attr L attr expr = Some entry_attr →
       dwarf_getlocation L entry_attr = Some entry_ops →
       print_expr L g attr expr addr depth out
       = print_expr_block L g attr entry_ops addr (depth + 1)
           (out +:+ (dwarf_opcode_string L (atom expr) +:+ "("
                     +:+ dec (Z.of_nat (length entry_ops)) +:+ ") ")))
  ∧ (∀ a expr addr depth out attrval impl_die exprval,
       depth ≤ MAX_DEPTH →
       (atom expr = DW_OP_GNU_variable_value
        ∨ (atom expr = DW_OP_implicit_pointer
           ∨ atom expr = DW_OP_GNU_implicit_pointer)
          ∧ dwarf_getlocation_implicit_pointer L (Some a) expr
            = Some attrval) →
       dwarf_getlocation_attr L (Some a) expr = Some attrval →
       dwarf_getlocation_die L (Some a) expr = Some impl_die →
       dwarf_whatattr attrval ≠ DW_AT_const_value →
       dwarf_getlocation_addr L attrval addr = (1, exprval) →
       print_expr L g (Some a) expr addr depth out
       = print_expr_block L g (Some attrval) exprval addr (depth + 1)
           (out +:+ reference_header L expr impl_die))
  ∧ (∃ out, call_chain 64 = Done tt out)
  ∧ (∃ out, call_chain 65
            = Fatal (Exit_failure "print_expr recursion depth exceeded") out).
Proof.
  split; [done|]. repeat apply conj.
  - intros attr expr addr depth out Hgt.
    rewrite print_expr_unfold. unfold print_expr_body.
    by rewrite guard_stops.
  - intros attr expr addr depth out Hle Hop.
    rewrite print_expr_unfold. unfold print_expr_body.
    by rewrite guard_passes, Hop.
  - intros a expr addr depth out call_attr call_die call_ops Hle Hop Ha Hd Ho.
    rewrite print_expr_unfold. unfold print_expr_body.
    rewrite guard_passes by done.
    destruct Hop as [Hop|[Hop|Hop]]; rewrite Hop;
      rewrite <- Hop; by rewrite Ha, Hd; cbn; rewrite Ho.
  - intros attr expr addr depth out entry_attr entry_ops Hle Hop Ha Ho.
    rewrite print_expr_unfold. unfold print_expr_body.
    rewrite guard_passes by done.
    destruct Hop as [Hop|Hop]; rewrite Hop;
      rewrite <- Hop; by rewrite Ha; cbn; rewrite Ho.
  - intros a expr addr depth out attrval impl_die exprval Hle Hop Ha Hd Hc Hl.
    rewrite (print_expr_reference a expr addr depth out attrval impl_die)
      by done.
    unfold print_referenced_location.
    rewrite decide_False by done. by rewrite Hl.
  - eexists. vm_compute. reflexivity.
  - eexists. vm_compute. reflexivity.
Qed.

(** C10.  The frame-base-relative operation.  At a depth the guard lets
    through, [DW_OP_fbreg] is an error when the expression has no source
    attribute, and an error when no frame base is known; otherwise it is
    printed with its operand read as a signed number.  The frame base is
    known, for the attributes [handle_die] prints, when the DIE or an
    outer DIE has a [DW_AT_frame_base]. *)
Theorem print_expr_fbreg attr expr addr depth out :
  depth ≤ MAX_DEPTH → atom expr = DW_OP_fbreg →
  print_expr L g attr expr addr depth out
  = match attr with
    | None =>
        Fatal (Exit_failure (dwarf_opcode_string L DW_OP_fbreg
                             +:+ " used in CFI")) out
    | Some _ =>
        if has_frame_base g
        then Done tt (out +:+ (dwarf_opcode_string L DW_OP_fbreg +:+ "("
                               +:+ dec (to_sword (number expr)) +:+ ")"))
        else Fatal (Exit_failure "DW_OP_fbreg used without a frame base") out
    end
  ∧ ∀ die outer,
      has_frame_base (set_has_frame_base (die_has_frame_base L die outer) g)
      = dwarf_hasattr L die DW_AT_frame_base || outer.
Proof.
  intros Hle Hop. split; [|done].
  rewrite print_expr_unfold. unfold print_expr_body.
  rewrite guard_passes, Hop by done.
  destruct attr; [|done]. cbn. by destruct (has_frame_base g).
Qed.

(** C7, as the code has it.  At a depth the guard lets through,
    [DW_OP_call_frame_cfa] is an error when the expression has no source
    attribute.  With an attribute and no frame from either call-frame
    table for the address: when both tables are missing and the debug
    mode is off it is an error, also for a relocatable file; otherwise
    it is the placeholder for a relocatable file or in debug mode, and
    an error else. *)
Theorem print_expr_call_frame_cfa attr expr addr depth out :
  depth ≤ MAX_DEPTH → atom expr = DW_OP_call_frame_cfa →
  let opname := dwarf_opcode_string L DW_OP_call_frame_cfa in
  (attr = None →
   print_expr L g attr expr addr depth out
   = Fatal (Exit_failure (opname +:+ " used in CFI")) out)
  ∧ (attr ≠ None →
     dwarf_cfi_addrframe L (cfi_eh g) (wrap64 (addr + cfi_eh_bias g)) = None →
     dwarf_cfi_addrframe L (cfi_debug g) (wrap64 (addr + cfi_debug_bias g))
     = None →
     print_expr L g attr expr addr depth out
     = if bool_decide (cfi_eh g = None) && bool_decide (cfi_debug g = None)
          && negb (is_debug g)
       then Fatal (Exit_failure "DW_OP_call_frame_cfa used but no cfi found.")
                  (out +:+ (opname +:+ " "))
       else if is_ET_REL g || is_debug g
       then Done tt ((out +:+ (opname +:+ " ")) +:+ "{...}")
       else Fatal (Exit_failure ("dwarf_cfi_addrframe 0x" +:+ hex addr
                                 +:+ ": " +:+ dwarf_errmsg L))
                  (out +:+ (opname +:+ " "))).
Proof.
  intros Hle Hop opname. split.
  - intros ->. rewrite print_expr_unfold. unfold print_expr_body.
    by rewrite guard_passes, Hop.
  - intros Hattr Heh Hdebug. rewrite print_expr_unfold. unfold print_expr_body.
    rewrite guard_passes, Hop by done.
    destruct attr; [|done]. cbn.
    destruct (bool_decide (cfi_eh g = None) && bool_decide (cfi_debug g = None)
              && negb (is_debug g)); [done|].
    cbn. rewrite Heh, Hdebug. by destruct (is_ET_REL g || is_debug g).
Qed.

Lemma compare_same (d : list Z) what : ∀ l pre out,
  d = pre ++ l →
  for_each (seq (length pre) (length l))
    (λ i, printf (hex02 (d !!! i));; assert (d !!! i =? d !!! i) what) out
  = Done tt (out_bytes out l).
Proof.
  induction l as [|b l IH]; intros pre out ->; [done|].
  cbn [length seq for_each out_bytes].
  unfold pbind at 1. unfold pbind at 1. cbn [printf].
  rewrite Z.eqb_refl. cbn [assert].
  rewrite list_lookup_total_middle by done.
  specialize (IH (pre ++ [b]) (out +:+ hex02 b)).
  rewrite length_app, Nat.add_1_r in IH. apply IH.
  by rewrite <- (assoc_L (++)).
Qed.

Lemma compare_any (d d' : list Z) what idxs : ∀ out,
  ((∀ i, i ∈ idxs → d !!! i = d' !!! i)
   ∧ ∃ out', for_each idxs
               (λ i, printf (hex02 (d !!! i));;
                     assert (d !!! i =? d' !!! i) what) out
             = Done tt out')
  ∨ ∃ out', for_each idxs
              (λ i, printf (hex02 (d !!! i));;
                    assert (d !!! i =? d' !!! i) what) out
            = Fatal (Assert_failed what) out'.
Proof.
  induction idxs as [|i idxs IH]; intros out.
  - left. split; [by intros i []%elem_of_nil|]. by exists out.
  - cbn [for_each]. unfold pbind at 1 3. unfold pbind at 1 2. cbn [printf].
    destruct (d !!! i =? d' !!! i) eqn:Heq; cbn [assert]; [|eauto].
    apply Z.eqb_eq in Heq.
    destruct (IH (out +:+ hex02 (d !!! i))) as [[Hall Hrun]|Hrun]; [|eauto].
    left. split; [|done].
    intros i' [->|?]%elem_of_cons; auto.
Qed.

(** C8.  The implicit value.  At a depth the guard lets through, with
    the block read through the raw form ([dwarf_formblock]) and the
    block read through the accessor
    ([dwarf_getlocation_implicit_value]): when the operand is the length
    of the block and the two blocks are the same, the operation is
    printed with the bytes of the block; in every other case the
    evaluation ends in a failed assertion. *)
Theorem print_expr_implicit_value attr expr addr depth out
    const_attr block block_impl :
  depth ≤ MAX_DEPTH → atom expr = DW_OP_implicit_value →
  dwarf_getlocation_attr L attr expr = Some const_attr →
  dwarf_formblock L const_attr = Some block →
  dwarf_getlocation_implicit_value L attr expr = Some block_impl →
  block_wf block → block_wf block_impl →
  (number expr = block_length block ∧ block_impl = block →
   print_expr L g attr expr addr depth out
   = Done tt (out_bytes
                (out +:+ (dwarf_opcode_string L DW_OP_implicit_value +:+ "("
                          +:+ dec (block_length block) +:+ "){"))
                (block_data block) +:+ "}"))
  ∧ (¬ (number expr = block_length block ∧ block_impl = block) →
     ∃ what out',
       print_expr L g attr expr addr depth out
       = Fatal (Assert_failed what) out').
Proof.
  intros Hle Hop Ha Hb Hi Hwf Hwf'.
  rewrite print_expr_unfold. unfold print_expr_body.
  rewrite guard_passes, Hop, Ha by done. cbn [or_error].
  rewrite (pbind_Done _ _ out const_attr out) by done.
  rewrite Hb, Hi. cbn [or_error].
  rewrite (pbind_Done _ _ out block out) by done.
  rewrite (pbind_Done _ _ out block_impl out) by done.
  split.
  - intros [Hn ->]. rewrite Hn, Z.eqb_refl. cbn [assert].
    rewrite (pbind_Done _ _ out tt out) by done.
    rewrite (pbind_Done _ _ out tt out) by done.
    erewrite pbind_Done by done.
    erewrite pbind_Done; [done|].
    red in Hwf. rewrite Hwf, Nat2Z.id.
    by apply (compare_same _ _ _ []).
  - intros Hnot.
    destruct (number expr =? block_length block) eqn:Hn; cbn [assert];
      [|by eexists _, _].
    rewrite (pbind_Done _ _ out tt out) by done.
    destruct (block_length block =? block_length block_impl) eqn:Hlen;
      cbn [assert]; [|by eexists _, _].
    rewrite (pbind_Done _ _ out tt out) by done.
    erewrite pbind_Done by done.
    apply Z.eqb_eq in Hn, Hlen.
    edestruct (compare_any (block_data block) (block_data block_impl)
                 "block.data[i] == block_impl.data[i]"
                 (seq 0 (Z.to_nat (block_length block))))
      as [[Hall _]|[out' Hrun]].
    + exfalso. apply Hnot. split; [done|].
      red in Hwf, Hwf'.
      assert (block_data block_impl = block_data block) as Hdata.
      { apply (list_eq_same_length _ _ (length (block_data block)));
          [done|lia|].
        intros i x y Hlt Hx Hy.
        assert (i ∈ seq 0 (Z.to_nat (block_length block))) as Hin
          by (apply elem_of_seq; lia).
        apply Hall in Hin.
        by rewrite (list_lookup_total_correct _ _ _ Hx),
                   (list_lookup_total_correct _ _ _ Hy) in Hin. }
      destruct block, block_impl. cbn in *. congruence.
    + erewrite pbind_Fatal by exact Hrun. by eexists _, _.
Qed.

(** C9.  Implicit pointers and variable values.  At a depth the guard
    lets through, when the referenced DIE has a location and not a
    constant value, and [dwarf_getlocation_addr] is the single-shot
    lookup in the location list of that attribute at the current
    address: without a covering entry the result is "no location"; with
    one covering entry its expression is printed, one level deeper; with
    more than one the evaluation ends in an error. *)
Theorem print_expr_referenced_location a expr addr depth out
    attrval impl_die base entries :
  depth ≤ MAX_DEPTH →
  (atom expr = DW_OP_GNU_variable_value
   ∨ (atom expr = DW_OP_implicit_pointer
      ∨ atom expr = DW_OP_GNU_implicit_pointer)
     ∧ dwarf_getlocation_implicit_pointer L (Some a) expr = Some attrval) →
  dwarf_getlocation_attr L (Some a) expr = Some attrval →
  dwarf_getlocation_die L (Some a) expr = Some impl_die →
  dwarf_whatattr attrval ≠ DW_AT_const_value →
  dwarf_getlocation_addr L attrval addr = single_shot_lookup base entries addr →
  let out1 := out +:+ reference_header L expr impl_die in
  match covering base entries addr with
  | [] =>
      print_expr L g (Some a) expr addr depth out
      = Done tt (out1 +:+ "<no location>")
  | [exprval] =>
      print_expr L g (Some a) expr addr depth out
      = print_expr_block L g (Some attrval) exprval addr (depth + 1) out1
  | _ =>
      ∃ msg, print_expr L g (Some a) expr addr depth out
             = Fatal (Exit_failure msg) out1
  end.
Proof.
  intros Hle Hop Ha Hd Hloc Hlookup out1.
  rewrite (print_expr_reference a expr addr depth out attrval impl_die)
    by done.
  fold out1.
  unfold print_referenced_location.
  rewrite decide_False by done. rewrite Hlookup. unfold single_shot_lookup.
  destruct (covering base entries addr) as [|exprval [|? ?]]; cbn; eauto.
Qed.

End Unfolding.

(** *** The printer on the examples *)

Lemma print_expr_depth_cap_witness :
  print_expr plain_libdw executable_globals (Some location_attr)
    (mkOp DW_OP_nop 0 0 0) 0x10 65 ""
  = Fatal (Exit_failure "print_expr recursion depth exceeded") ""
  ∧ print_expr plain_libdw executable_globals (Some location_attr)
      (mkOp DW_OP_nop 0 0 0) 0x10 64 ""
    = Done tt "nop".
Proof.
  destruct (print_expr_depth_cap plain_libdw executable_globals)
    as (_ & Hstop & Hpass & _).
  split.
  - apply Hstop. unfold MAX_DEPTH. lia.
  - apply (Hpass (Some location_attr) (mkOp DW_OP_nop 0 0 0) 0x10 64 "").
    + unfold MAX_DEPTH. lia.
    + reflexivity.
Defined.

Lemma print_expr_fbreg_witness :
  print_expr plain_libdw executable_globals (Some location_attr)
    (mkOp DW_OP_fbreg (2 ^ 64 - 24) 0 0) 0x10 0 ""
  = Done tt "fbreg(-24)".
Proof.
  apply (proj1 (print_expr_fbreg plain_libdw executable_globals
                  (Some location_attr) (mkOp DW_OP_fbreg (2 ^ 64 - 24) 0 0)
                  0x10 0 "" ltac:(unfold MAX_DEPTH; lia) eq_refl)).
Defined.

(** C7, as it is stated, fails: for a relocatable file without any
    call-frame table (and not in debug mode) no frame can be found, the
    mode is the relaxed one, and the operation is an error, not the
    placeholder. *)
Lemma call_frame_cfa_relocatable_without_cfi :
  is_ET_REL relocatable_no_cfi_globals || is_debug relocatable_no_cfi_globals
  = true
  ∧ dwarf_cfi_addrframe plain_libdw (cfi_eh relocatable_no_cfi_globals)
      (wrap64 (0x10 + cfi_eh_bias relocatable_no_cfi_globals)) = None
  ∧ dwarf_cfi_addrframe plain_libdw (cfi_debug relocatable_no_cfi_globals)
      (wrap64 (0x10 + cfi_debug_bias relocatable_no_cfi_globals)) = None
  ∧ print_expr plain_libdw relocatable_no_cfi_globals (Some location_attr)
      (mkOp DW_OP_call_frame_cfa 0 0 0) 0x10 0 ""
    = Fatal (Exit_failure "DW_OP_call_frame_cfa used but no cfi found.")
            "call_frame_cfa ".
Proof. repeat split; vm_compute; reflexivity. Qed.

Lemma print_expr_call_frame_cfa_witness :
  print_expr plain_libdw relocatable_globals None
    (mkOp DW_OP_call_frame_cfa 0 0 0) 0x2000 0 ""
  = Fatal (Exit_failure "call_frame_cfa used in CFI") ""
  ∧ print_expr plain_libdw relocatable_globals (Some location_attr)
      (mkOp DW_OP_call_frame_cfa 0 0 0) 0x2000 0 ""
    = Done tt "call_frame_cfa {...}"
  ∧ print_expr plain_libdw executable_globals (Some location_attr)
      (mkOp DW_OP_call_frame_cfa 0 0 0) 0x2000 0 ""
    = Fatal (Exit_failure "dwarf_cfi_addrframe 0x2000: invalid DWARF")
            "call_frame_cfa ".
Proof.
  split; [|split].
  - apply (proj1 (print_expr_call_frame_cfa plain_libdw relocatable_globals
                    None (mkOp DW_OP_call_frame_cfa 0 0 0) 0x2000 0 ""
                    ltac:(unfold MAX_DEPTH; lia) eq_refl)).
    reflexivity.
  - apply (proj2 (print_expr_call_frame_cfa plain_libdw relocatable_globals
                    (Some location_attr) (mkOp DW_OP_call_frame_cfa 0 0 0)
                    0x2000 0 "" ltac:(unfold MAX_DEPTH; lia) eq_refl)).
    + discriminate.
    + reflexivity.
    + reflexivity.
  - apply (proj2 (print_expr_call_frame_cfa plain_libdw executable_globals
                    (Some location_attr) (mkOp DW_OP_call_frame_cfa 0 0 0)
                    0x2000 0 "" ltac:(unfold MAX_DEPTH; lia) eq_refl)).
    + discriminate.
    + reflexivity.
    + reflexivity.
Defined.

Lemma print_expr_implicit_value_witness :
  print_expr plain_libdw executable_globals (Some location_attr)
    (mkOp DW_OP_implicit_value 2 0 0) 0x10 0 ""
  = Done tt "implicit_value(2){01ff}"
  ∧ ∃ what out',
      print_expr mismatch_libdw executable_globals (Some location_attr)
        (mkOp DW_OP_implicit_value 2 0 0) 0x10 0 ""
      = Fatal (Assert_failed what) out'.
Proof.
  split.
  - apply (proj1 (print_expr_implicit_value plain_libdw executable_globals
                    (Some location_attr) (mkOp DW_OP_implicit_value 2 0 0)
                    0x10 0 "" (mkAttr DW_AT_location 0x18 1)
                    (mkBlock 2 [1; 255]) (mkBlock 2 [1; 255])
                    ltac:(unfold MAX_DEPTH; lia) eq_refl eq_refl eq_refl
                    eq_refl eq_refl eq_refl)).
    by split.
  - apply (proj2 (print_expr_implicit_value mismatch_libdw executable_globals
                    (Some location_attr) (mkOp DW_OP_implicit_value 2 0 0)
                    0x10 0 "" (mkAttr DW_AT_location 0x18 1)
                    (mkBlock 2 [1; 255]) (mkBlock 3 [1; 255; 0])
                    ltac:(unfold MAX_DEPTH; lia) eq_refl eq_refl eq_refl
                    eq_refl eq_refl eq_refl)).
    intros [_ [=]].
Defined.

Lemma print_expr_referenced_location_witness :
  print_expr plain_libdw executable_globals (Some location_attr)
    (mkOp DW_OP_implicit_pointer 2 0 0) 0x20 0 ""
  = Done tt "implicit_pointer([2],0) <no location>"
  ∧ print_expr plain_libdw executable_globals (Some location_attr)
      (mkOp DW_OP_GNU_variable_value 2 0 0) 0x8 0 ""
    = print_expr_block plain_libdw executable_globals
        (Some (mkAttr DW_AT_location 0x18 1)) [mkOp (DW_OP_reg 5) 0 0 0]
        0x8 1 "GNU_variable_value([2]) "
  ∧ ∃ msg,
      print_expr plain_libdw executable_globals (Some location_attr)
        (mkOp DW_OP_implicit_pointer 2 0 0) 0x108 0 ""
      = Fatal (Exit_failure msg) "implicit_pointer([2],0) ".
Proof.
  split; [|split].
  - apply (print_expr_referenced_location plain_libdw executable_globals
             location_attr (mkOp DW_OP_implicit_pointer 2 0 0) 0x20 0 ""
             (mkAttr DW_AT_location 0x18 1) (mkDie 2) 0 example_loclist
             ltac:(unfold MAX_DEPTH; lia)
             (or_intror (conj (or_introl eq_refl) eq_refl))
             eq_refl eq_refl ltac:(discriminate) eq_refl).
  - apply (print_expr_referenced_location plain_libdw executable_globals
             location_attr (mkOp DW_OP_GNU_variable_value 2 0 0) 0x8 0 ""
             (mkAttr DW_AT_location 0x18 1) (mkDie 2) 0 example_loclist
             ltac:(unfold MAX_DEPTH; lia) (or_introl eq_refl)
             eq_refl eq_refl ltac:(discriminate) eq_refl).
  - apply (print_expr_referenced_location plain_libdw executable_globals
             location_attr (mkOp DW_OP_implicit_pointer 2 0 0) 0x108 0 ""
             (mkAttr DW_AT_location 0x18 1) (mkDie 2) 0 example_loclist
             ltac:(unfold MAX_DEPTH; lia)
             (or_intror (conj (or_introl eq_refl) eq_refl))
             eq_refl eq_refl ltac:(discriminate) eq_refl).
Defined.

End VarlocsFacts.

(** ** More about the split-unit resolver *)

Module SplitUnitMore.
Import SplitUnit SplitUnitFacts.
Local Open Scope split_scope.

Section Paths.

Variable __libdw_filepath :
  option string → option string → option string → option string.

(** X1: Only skeleton units with a name and a path are tried.  For a unit
    that is no skeleton, has neither [DW_AT_dwo_name] nor
    [DW_AT_GNU_dwo_name], or whose name the locator does not resolve,
    the link becomes [NULL] and nothing else happens: no call is
    logged, and no descriptor, container, file or other unit changes. *)
Theorem find_split_unit_silent_without_candidate w cu c :
  unit_at w cu c → split c = CU_minus1 →
  no_candidate __libdw_filepath w c →
  ∃ w', __libdw_find_split_unit __libdw_filepath cu w = Returns CU_NULL w'
        ∧ trace w' = trace w ∧ fds w' = fds w ∧ files w' = files w
        ∧ dwarfs w' = dwarfs w
        ∧ cus w' = <[cu := set_split CU_NULL c]> (cus w).
Proof.
  intros Hc Hs Hno. exists (gave_up w cu c []).
  split; [by apply run_no_candidate|]. cbn.
  by rewrite (right_id_L [] (++)).
Qed.

(** X2: A companion file that cannot be opened is a soft failure: the link
    becomes [NULL], the failed [open] is the only call, and neither
    [dwarf_begin] nor [close] follows. *)
Theorem find_split_unit_open_failure w cu c p :
  unit_at w cu c → split c = CU_minus1 →
  candidate __libdw_filepath w c p →
  files w !! p = None →
  ∃ w', __libdw_find_split_unit __libdw_filepath cu w = Returns CU_NULL w'
        ∧ trace w' = trace w ++ [EvOpen p None]
        ∧ fds w' = fds w ∧ dwarfs w' = dwarfs w.
Proof.
  intros Hc Hs Hcand Hf. exists (gave_up w cu c [EvOpen p None]).
  split; [by apply run_open_fails|done].
Qed.

(** X3: A companion file that is not a debug-info container is a soft
    failure: the link becomes [NULL], the descriptor is closed right
    after the failed [dwarf_begin], no container is made and none is
    ended. *)
Theorem find_split_unit_parse_failure w cu c p :
  unit_at w cu c → split c = CU_minus1 →
  candidate __libdw_filepath w c p →
  files w !! p = Some NotDebug →
  ∃ w' fd, __libdw_find_split_unit __libdw_filepath cu w
           = Returns CU_NULL w'
        ∧ (fd ∉ dom (fds w))
        ∧ trace w' = trace w ++ [EvOpen p (Some fd); EvBegin fd None;
                                  EvClose fd]
        ∧ fds w' = fds w ∧ dwarfs w' = dwarfs w.
Proof.
  intros Hc Hs Hcand Hf. eexists _, (fresh (dom (fds w))).
  split; [by apply run_parse_fails|].
  split; [apply is_fresh|done].
Qed.

(** X4: The calls of a scan.  A container without units is scanned by one
    [dwarf_get_units] and closed; it is not ended.  A container whose
    first unit matches is left at that unit: the descriptor is detached
    and then closed, and the container stays.  A container whose first
    unit does not match is ended by the body of the loop, and the run
    ends at the [dwarf_get_units] of the loop condition, which reads
    it: neither a further unit nor [close] is reached. *)
Theorem find_split_unit_scan_calls w cu c p hdrs :
  reaches_scan __libdw_filepath w cu c p hdrs →
  let fd := fresh (dom (fds w)) in
  let d := length (dwarfs w) in
  let base := length (cus w) in
  (hdrs = [] →
   ∃ w' x, __libdw_find_split_unit __libdw_filepath cu w
           = Returns CU_NULL w'
     ∧ trace w' = trace w ++ [EvOpen p (Some fd); EvBegin fd (Some d);
                              EvGetUnits d None; EvClose fd]
     ∧ dwarfs w' !! d = Some x ∧ ended x = false)
  ∧ (∀ h post,
       hdrs = h :: post → hdr_matches (unit_id8 c) h = true →
       ∃ w' x, __libdw_find_split_unit __libdw_filepath cu w
               = Returns (CU_at base) w'
         ∧ trace w' = trace w ++ [EvOpen p (Some fd); EvBegin fd (Some d);
                                  EvGetUnits d (Some base); EvFdDone d;
                                  EvClose fd]
         ∧ dwarfs w' !! d = Some x ∧ ended x = false
         ∧ elf_fildes x = None)
  ∧ (∀ h post,
       hdrs = h :: post → hdr_matches (unit_id8 c) h = false →
       ∃ w1 x, __libdw_find_split_unit __libdw_filepath cu w
               = Faults (Use_after_free d) w1
         ∧ trace w1 = trace w ++ [EvOpen p (Some fd); EvBegin fd (Some d);
                                  EvGetUnits d (Some base); EvEnd d]
         ∧ dwarfs w1 !! d = Some x ∧ ended x = true).
Proof.
  intros Hrs fd d base. split; [|split].
  - intros ->. exists (unmatched w cu c p), (new_dwarf w fd []).
    split; [by apply run_scan_empty|]. split; [done|].
    split; [|done]. cbn. by apply list_lookup_middle.
  - intros h post -> Hh.
    exists (matched w cu c p h post), (fd_done (new_dwarf w fd (h :: post))).
    split; [by apply run_scan_match|]. split; [done|].
    split; [|done]. cbn. by apply list_lookup_middle.
  - intros h post -> Hh.
    exists (mismatched w p (h :: post)), (end_of (new_dwarf w fd (h :: post))).
    split; [by apply (run_scan_mismatch _ w cu c)|]. split; [done|].
    split; [|done]. cbn. by apply list_lookup_middle.
Qed.

(** X5: What a resolution leaves alone: every other unit of the world, every
    container that was there (the container of the skeleton is never
    ended or detached), and the files; and the log only grows. *)
Theorem find_split_unit_frame w cu r w' :
  __libdw_find_split_unit __libdw_filepath cu w = Returns r w' →
  (∀ h c0, h ≠ cu → cus w !! h = Some c0 → cus w' !! h = Some c0)
  ∧ (∀ d x, dwarfs w !! d = Some x → dwarfs w' !! d = Some x)
  ∧ files w' = files w
  ∧ trace w `prefix_of` trace w'.
Proof.
  intros Hrun.
  destruct (find_split_unit_unit _ _ _ _ _ Hrun) as [c Hc].
  destruct (decide (split c = CU_minus1)) as [Hs|Hs]; cycle 1.
  { rewrite (run_tried _ w cu c Hc Hs) in Hrun. by injection Hrun as _ <-. }
  destruct (find_split_unit_returned _ w cu c r w' Hc Hs Hrun)
    as [[_ (evs & -> & _)]|[[_ (p & ->)]|[_ (p & h & post & ->)]]]; cbn.
  - repeat split; [|done|by apply prefix_app_r].
    intros h c0 Hne Hc0. by rewrite list_lookup_insert_ne.
  - repeat split; [| |by apply prefix_app_r].
    + intros h c0 Hne Hc0. by rewrite list_lookup_insert_ne.
    + intros d x Hx. by apply lookup_app_l_Some.
  - repeat split; [| |by apply prefix_app_r].
    + intros h0 c0 Hne Hc0.
      rewrite list_lookup_insert_ne by (apply lookup_lt_Some in Hc0; lia).
      rewrite list_lookup_insert_ne by done.
      by apply lookup_app_l_Some.
    + intros d x Hx. by apply lookup_app_l_Some.
Qed.

(** X6: The link works in both directions.  After a resolution that had
    to try and linked the skeleton to a split unit, resolving the split
    unit returns the skeleton, and does so from the link alone: the
    world stays as it is. *)
Theorem find_split_unit_back_link w cu c sp w' :
  cus w !! cu = Some c → split c = CU_minus1 →
  __libdw_find_split_unit __libdw_filepath cu w = Returns (CU_at sp) w' →
  __libdw_find_split_unit __libdw_filepath sp w' = Returns (CU_at cu) w'.
Proof.
  intros Hc Hs Hrun.
  destruct (find_split_unit_linked _ w cu c sp w' Hc Hs Hrun)
    as (c' & sc & _ & _ & Hsc & Hback).
  rewrite <- Hback. apply run_tried; [done|]. by rewrite Hback.
Qed.

End Paths.

Lemma lone_unit_at ut attrs :
  unit_at (lone_unit ut attrs) 0 (mkCU 0 ut 0xAA CU_minus1 attrs).
Proof. split; [reflexivity|]. by eexists. Defined.

Lemma find_split_unit_silent_without_candidate_witness :
  ∃ w', __libdw_find_split_unit filepath_join 0
          (lone_unit DW_UT_compile both_names) = Returns CU_NULL w'
        ∧ trace w' = [] ∧ fds w' = {[ 3%nat := "/bin/prog" ]}
        ∧ files w' = ∅
        ∧ dwarfs w' = [mkDwarf None (Some 3%nat) [0%nat] false]
        ∧ cus w' = [mkCU 0 DW_UT_compile 0xAA CU_NULL both_names].
Proof.
  apply (find_split_unit_silent_without_candidate filepath_join
           (lone_unit DW_UT_compile both_names) 0
           (mkCU 0 DW_UT_compile 0xAA CU_minus1 both_names)).
  - apply lone_unit_at.
  - reflexivity.
  - left. discriminate.
Defined.

Lemma lone_skeleton_candidate :
  candidate filepath_join (lone_unit DW_UT_skeleton both_names)
    (mkCU 0 DW_UT_skeleton 0xAA CU_minus1 both_names) "/build/a.dwo".
Proof. split; [reflexivity|]. eexists _, _. repeat split; reflexivity. Defined.

Lemma find_split_unit_open_failure_witness :
  ∃ w', __libdw_find_split_unit filepath_join 0
          (lone_unit DW_UT_skeleton both_names) = Returns CU_NULL w'
        ∧ trace w' = [] ++ [EvOpen "/build/a.dwo" None]
        ∧ fds w' = {[ 3%nat := "/bin/prog" ]}
        ∧ dwarfs w' = [mkDwarf None (Some 3%nat) [0%nat] false].
Proof.
  apply (find_split_unit_open_failure filepath_join
           (lone_unit DW_UT_skeleton both_names) 0
           (mkCU 0 DW_UT_skeleton 0xAA CU_minus1 both_names) "/build/a.dwo").
  - apply lone_unit_at.
  - reflexivity.
  - exact lone_skeleton_candidate.
  - reflexivity.
Defined.

Lemma find_split_unit_parse_failure_witness :
  ∃ w' fd, __libdw_find_split_unit filepath_join 2 four_skeletons
           = Returns CU_NULL w'
        ∧ (fd ∉ dom (fds four_skeletons))
        ∧ trace w' = trace four_skeletons
                     ++ [EvOpen "/build/c.dwo" (Some fd); EvBegin fd None;
                         EvClose fd]
        ∧ fds w' = fds four_skeletons ∧ dwarfs w' = dwarfs four_skeletons.
Proof.
  apply (find_split_unit_parse_failure filepath_join four_skeletons 2
           (skeleton 0xCC "c.dwo") "/build/c.dwo").
  - split; [reflexivity|]. by eexists.
  - reflexivity.
  - split; [reflexivity|]. eexists _, _. repeat split; reflexivity.
  - reflexivity.
Defined.

Lemma find_split_unit_scan_calls_witness :
  (∃ w' x,
     __libdw_find_split_unit filepath_join 0 (one_skeleton [])
     = Returns CU_NULL w'
     ∧ trace w' = [] ++ [EvOpen "/build/a.dwo" (Some 4%nat);
                         EvBegin 4 (Some 1%nat);
                         EvGetUnits 1 None; EvClose 4]
     ∧ dwarfs w' !! 1%nat = Some x ∧ ended x = false)
  ∧ (∃ w' x,
       __libdw_find_split_unit filepath_join 0
         (one_skeleton [(DW_UT_split_compile, 0xAA); (DW_UT_split_type, 0xAA)])
       = Returns (CU_at 1) w'
       ∧ trace w' = [] ++ [EvOpen "/build/a.dwo" (Some 4%nat);
                           EvBegin 4 (Some 1%nat);
                           EvGetUnits 1 (Some 1%nat); EvFdDone 1; EvClose 4]
       ∧ dwarfs w' !! 1%nat = Some x ∧ ended x = false
       ∧ elf_fildes x = None).
Proof.
  split.
  - apply (proj1 (find_split_unit_scan_calls filepath_join _ _ _ _ _
                    (one_skeleton_reaches_scan []))).
    reflexivity.
  - apply (proj1 (proj2 (find_split_unit_scan_calls filepath_join _ _ _ _ _
                           (one_skeleton_reaches_scan _)))
             (DW_UT_split_compile, 0xAA) [(DW_UT_split_type, 0xAA)]).
    + reflexivity.
    + reflexivity.
Defined.

Lemma find_split_unit_frame_witness :
  ∃ r w',
    __libdw_find_split_unit filepath_join 0 four_skeletons = Returns r w'
    ∧ (∀ h c0, h ≠ 0%nat → cus four_skeletons !! h = Some c0 →
               cus w' !! h = Some c0)
    ∧ (∀ d x, dwarfs four_skeletons !! d = Some x → dwarfs w' !! d = Some x)
    ∧ files w' = files four_skeletons
    ∧ trace four_skeletons `prefix_of` trace w'.
Proof.
  destruct (__libdw_find_split_unit filepath_join 0 four_skeletons)
    as [r w'|u w'] eqn:Hrun; [|by vm_compute in Hrun].
  exists r, w'. split; [done|].
  exact (find_split_unit_frame filepath_join four_skeletons 0 r w' Hrun).
Defined.

Lemma find_split_unit_back_link_witness :
  ∃ w',
    __libdw_find_split_unit filepath_join 0
      (one_skeleton [(DW_UT_split_compile, 0xAA)]) = Returns (CU_at 1) w'
    ∧ __libdw_find_split_unit filepath_join 1 w' = Returns (CU_at 0) w'.
Proof.
  destruct (__libdw_find_split_unit filepath_join 0
              (one_skeleton [(DW_UT_split_compile, 0xAA)]))
    as [r w'|u w'] eqn:Hrun; [|by vm_compute in Hrun].
  assert (r = CU_at 1) as ->.
  { apply (f_equal (λ e, match e with Returns a _ => Some a | _ => None end))
      in Hrun.
    vm_compute in Hrun. congruence. }
  exists w'. split; [done|].
  exact (find_split_unit_back_link filepath_join
           (one_skeleton [(DW_UT_split_compile, 0xAA)]) 0
           (skeleton 0xAA "a.dwo") 1 w' eq_refl eq_refl Hrun).
Defined.

End SplitUnitMore.

(** ** More about the printing of location expressions *)

Module VarlocsMore.
Import Varlocs VarlocsNotions VarlocsFacts.
Local Open Scope print_scope.

#[local] Arguments hex : simpl never.
#[local] Arguments hex02 : simpl never.
#[local] Arguments dec : simpl never.
#[local] Arguments to_sword : simpl never.
#[local] Arguments wrap64 : simpl never.

Lemma string_app_assoc (s1 s2 s3 : string) :
  (s1 +:+ s2) +:+ s3 = s1 +:+ (s2 +:+ s3).
Proof.
  induction s1 as [|a s1 IH]; [done|].
  change (String a ((s1 +:+ s2) +:+ s3) = String a (s1 +:+ (s2 +:+ s3))).
  by rewrite IH.
Qed.

Lemma string_app_empty_r (s : string) : s +:+ "" = s.
Proof.
  induction s as [|a s IH]; [done|].
  change (String a (s +:+ "") = String a s). by rewrite IH.
Qed.

(** [(Dwarf_Sword) n] is the number in the signed 64-bit range that
    differs from [n] by a multiple of [2 ^ 64]. *)
Lemma to_sword_range n :
  - 2 ^ 63 ≤ to_sword n < 2 ^ 63 ∧ (to_sword n - n) mod 2 ^ 64 = 0.
Proof.
  unfold to_sword, wrap64.
  pose proof (Z.mod_pos_bound n (2 ^ 64) ltac:(lia)) as Hb.
  destruct (n mod 2 ^ 64 <? 2 ^ 63) eqn:Hlt.
  - apply Z.ltb_lt in Hlt. split; [lia|].
    rewrite Zminus_mod, Zmod_mod, Z.sub_diag. done.
  - apply Z.ltb_ge in Hlt. split; [lia|].
    replace (n mod 2 ^ 64 - 2 ^ 64 - n)
      with (n mod 2 ^ 64 - n + (-1) * 2 ^ 64) by lia.
    rewrite Z_mod_plus_full, Zminus_mod, Zmod_mod, Z.sub_diag. done.
Qed.

Section Operations.

Variable L : Libdw.
Variable g : Globals.

Lemma used_in_CFI_run expr addr depth out :
  depth ≤ MAX_DEPTH → attribute_relative (atom expr) = true →
  print_expr L g None expr addr depth out
  = Fatal (Exit_failure (dwarf_opcode_string L (atom expr) +:+ " used in CFI"))
          out.
Proof.
  intros Hle Hop. rewrite print_expr_unfold. unfold print_expr_body.
  rewrite guard_passes by done.
  destruct (atom expr); try discriminate Hop; reflexivity.
Qed.

Lemma operands_only_run attr expr addr depth out s :
  depth ≤ MAX_DEPTH → operands_only L expr = Some s →
  print_expr L g attr expr addr depth out = Done tt (out +:+ s).
Proof.
  intros Hle Hs. rewrite print_expr_unfold. unfold print_expr_body.
  rewrite guard_passes by done. unfold operands_only in Hs.
  destruct (atom expr); cbn in Hs; try discriminate Hs;
    by injection Hs as <-.
Qed.

(** X7: Attribute-relative operations in an expression that comes from
    call-frame information.  Each of the nine operations that need the
    source attribute ends with the error "<name> used in CFI" when there
    is none, before anything is printed or looked up. *)
Theorem print_expr_used_in_CFI expr addr depth out :
  depth ≤ MAX_DEPTH → attribute_relative (atom expr) = true →
  print_expr L g None expr addr depth out
  = Fatal (Exit_failure (dwarf_opcode_string L (atom expr) +:+ " used in CFI"))
          out.
Proof. apply used_in_CFI_run. Qed.

(** X8: Operations that only show their operands.  For the operations
    without operands, with one unsigned or one signed operand, and for
    [DW_OP_addr], [DW_OP_bregx] and [DW_OP_bit_piece], printing never
    fails, and what is printed is made of the name and the operands
    alone: it is the same for every attribute, address, depth (up to the
    cap) and state of the globals. *)
Theorem print_expr_operands_only attr expr addr depth out s :
  depth ≤ MAX_DEPTH → operands_only L expr = Some s →
  print_expr L g attr expr addr depth out = Done tt (out +:+ s).
Proof. apply operands_only_run. Qed.

(** X9: Signed operands.  An operation of the signed class prints its
    operand as the number of the signed 64-bit range that is congruent
    to it modulo [2 ^ 64]; an operand below [2 ^ 63] is printed as it
    is. *)
Theorem print_expr_signed_operand attr expr addr depth out :
  depth ≤ MAX_DEPTH → signed_operand (atom expr) = true →
  ∃ z, - 2 ^ 63 ≤ z < 2 ^ 63
       ∧ (z - number expr) mod 2 ^ 64 = 0
       ∧ (0 ≤ number expr < 2 ^ 63 → z = number expr)
       ∧ print_expr L g attr expr addr depth out
         = Done tt (out +:+ (dwarf_opcode_string L (atom expr) +:+ "("
                             +:+ dec z +:+ ")")).
Proof.
  intros Hle Hop. exists (to_sword (number expr)).
  destruct (to_sword_range (number expr)) as [Hr Hc].
  split; [done|]. split; [done|]. split.
  - intros Hn. unfold to_sword, wrap64.
    rewrite Z.mod_small by lia.
    by rewrite (proj2 (Z.ltb_lt _ _)) by lia.
  - apply operands_only_run; [done|]. unfold operands_only.
    destruct (atom expr); try discriminate Hop; reflexivity.
Qed.

Lemma after_after {A} out1 out2 (r : Res A) :
  after out1 (after out2 r) = after (out1 +:+ out2) r.
Proof. destruct r; cbn; by rewrite string_app_assoc. Qed.

Lemma appends_pret {A} (a : A) : appends (pret a).
Proof. intros out. cbn. by rewrite string_app_empty_r. Qed.

Lemma appends_printf s : appends (printf s).
Proof. by intros out. Qed.

Lemma appends_error {A} msg : appends (@error A msg).
Proof. intros out. cbn. by rewrite string_app_empty_r. Qed.

Lemma appends_assert b what : appends (assert b what).
Proof.
  intros out. unfold assert. destruct b; cbn; by rewrite string_app_empty_r.
Qed.

Lemma appends_or_error {A} (x : option A) msg : appends (or_error x msg).
Proof. destruct x; [apply appends_pret|apply appends_error]. Qed.

Lemma appends_pbind {A B} (m : P A) (k : A → P B) :
  appends m → (∀ a, appends (k a)) → appends (pbind m k).
Proof.
  intros Hm Hk out. unfold pbind. rewrite (Hm out).
  destruct (m "") as [a o|e o]; cbn; [|done].
  by rewrite (Hk a (out +:+ o)), (Hk a o), after_after.
Qed.

Lemma appends_for_each {A} (l : list A) body :
  (∀ a, appends (body a)) → appends (for_each l body).
Proof.
  intros Hb. induction l as [|a l IH]; [apply appends_pret|].
  cbn [for_each]. by apply appends_pbind.
Qed.

Lemma appends_print_base_type base : appends (print_base_type L base).
Proof.
  unfold print_base_type.
  repeat first [ apply appends_pbind; [|intros ?] | apply appends_or_error
               | apply appends_printf | apply appends_error
               | apply appends_pret | case_match ].
Qed.

Lemma appends_print_ops pe attr exprs addr depth :
  (∀ a e ad, appends (pe a e ad depth)) →
  appends (print_ops pe attr exprs addr depth).
Proof.
  intros Hpe. induction exprs as [|e rest IH]; [apply appends_pret|].
  cbn [print_ops].
  apply appends_pbind; [apply Hpe|intros _].
  apply appends_pbind; [apply appends_printf|intros _]. apply IH.
Qed.

Lemma appends_print_expr_block_with pe attr exprs addr depth :
  (∀ a e ad, appends (pe a e ad depth)) →
  appends (print_expr_block_with pe attr exprs addr depth).
Proof.
  intros Hpe. unfold print_expr_block_with.
  apply appends_pbind; [apply appends_printf|intros _].
  apply appends_pbind; [by apply appends_print_ops|intros _].
  apply appends_printf.
Qed.

Lemma appends_print_expr_body blk attr expr addr depth :
  (∀ a es ad, appends (blk a es ad (depth + 1))) →
  appends (print_expr_body L g blk attr expr addr depth).
Proof.
  intros Hblk. unfold print_expr_body.
  destruct (depth >? MAX_DEPTH); [apply appends_error|].
  destruct (atom expr); unfold print_referenced_location;
    repeat first [ apply appends_pbind; [|intros ?] | apply appends_or_error
                 | apply appends_printf | apply appends_error
                 | apply appends_pret | apply appends_assert
                 | apply appends_print_base_type | apply Hblk
                 | apply appends_for_each; intros ?
                 | case_match ].
Qed.

Lemma appends_print_expr_fuel fuel : ∀ attr expr addr depth,
  appends (print_expr_fuel L g fuel attr expr addr depth).
Proof.
  induction fuel as [|fuel IH]; intros attr expr addr depth.
  - intros out. cbn. by rewrite string_app_empty_r.
  - cbn [print_expr_fuel]. apply appends_print_expr_body. intros a es ad.
    apply appends_print_expr_block_with. intros a' e' ad'. apply IH.
Qed.

Lemma print_expr_after attr expr addr depth out :
  print_expr L g attr expr addr depth out
  = after out (print_expr L g attr expr addr depth "").
Proof. apply appends_print_expr_fuel. Qed.

Lemma print_ops_rendered attr addr depth exprs ss : ∀ out,
  Forall2 (λ e s, print_expr L g attr e addr depth "" = Done tt s) exprs ss →
  print_ops (print_expr L g) attr exprs addr depth out
  = Done tt (out +:+ join_ops ss).
Proof.
  intros out Hall. revert out.
  induction Hall as [|e s rest ss' He Hall IH]; intros out.
  - cbn. by rewrite string_app_empty_r.
  - cbn [print_ops]. unfold pbind at 1.
    rewrite (print_expr_after attr e addr depth out), He. cbn [after].
    unfold pbind at 1. cbn [printf].
    destruct Hall as [|e' s' rest' ss'' He' Hall'].
    + cbn. by rewrite !string_app_empty_r.
    + rewrite IH. cbn [join_ops]. by rewrite !string_app_assoc.
Qed.

Lemma print_ops_failed attr addr depth pre ss e err o post : ∀ out,
  Forall2 (λ e s, print_expr L g attr e addr depth "" = Done tt s) pre ss →
  print_expr L g attr e addr depth "" = Fatal err o →
  print_ops (print_expr L g) attr (pre ++ e :: post) addr depth out
  = Fatal err (out +:+ (listed ss +:+ o)).
Proof.
  intros out Hall He. revert out.
  induction Hall as [|e0 s rest ss' He0 Hall IH]; intros out.
  - cbn [app print_ops listed]. unfold pbind at 1.
    by rewrite (print_expr_after attr e addr depth out), He.
  - cbn [app print_ops listed]. unfold pbind at 1.
    rewrite (print_expr_after attr e0 addr depth out), He0. cbn [after].
    unfold pbind at 1. cbn [printf].
    assert (match rest ++ e :: post with [] => "" | _ => ", " end = ", ")
      as -> by (by destruct rest).
    rewrite IH. by rewrite !string_app_assoc.
Qed.

(** X11: The shape of a printed block.  When every operation of a block
    prints, the block is the printed operations between braces, with
    [", "] between them (an empty block is [{}]).  When an operation
    fails, the block fails with the same failure, after the opening
    brace and the operations before it; the operations after it are not
    looked at. *)
Theorem print_expr_block_shape attr addr depth out :
  (∀ exprs ss,
     Forall2 (λ e s, print_expr L g attr e addr depth "" = Done tt s)
             exprs ss →
     print_expr_block L g attr exprs addr depth out
     = Done tt (out +:+ ("{" +:+ join_ops ss +:+ "}")))
  ∧ (∀ pre ss e err o post,
       Forall2 (λ e s, print_expr L g attr e addr depth "" = Done tt s)
               pre ss →
       print_expr L g attr e addr depth "" = Fatal err o →
       print_expr_block L g attr (pre ++ e :: post) addr depth out
       = Fatal err (out +:+ ("{" +:+ listed ss +:+ o))).
Proof.
  split.
  - intros exprs ss Hall. unfold print_expr_block, print_expr_block_with.
    unfold pbind at 1. cbn [printf]. unfold pbind at 1.
    rewrite (print_ops_rendered attr addr depth exprs ss _ Hall).
    unfold printf. by rewrite !string_app_assoc.
  - intros pre ss e err o post Hall He.
    unfold print_expr_block, print_expr_block_with.
    unfold pbind at 1. cbn [printf]. unfold pbind at 1.
    rewrite (print_ops_failed attr addr depth pre ss e err o post _ Hall He).
    by rewrite !string_app_assoc.
Qed.

(** X12: Base-type decoding.  [print_base_type] wants the tag of a base
    type, an encoding and a size.  The size in bits is eight times the
    byte size when the byte size can be read, whatever the bit size; it
    is the bit size when only that can be read; without either the
    evaluation ends with an error, as it does for a DIE that is no base
    type or has no encoding. *)
Theorem print_base_type_decoding base out :
  (dwarf_tag L base ≠ DW_TAG_base_type →
   print_base_type L base out = Fatal (Exit_failure "not a base type") out)
  ∧ (dwarf_tag L base = DW_TAG_base_type →
     dwarf_attr L base DW_AT_encoding ≫= dwarf_formudata L = None →
     print_base_type L base out
     = Fatal (Exit_failure "base type without encoding") out)
  ∧ (∀ enctype,
       dwarf_tag L base = DW_TAG_base_type →
       dwarf_attr L base DW_AT_encoding ≫= dwarf_formudata L = Some enctype →
       (∀ bytes,
          dwarf_attr L base DW_AT_byte_size ≫= dwarf_formudata L = Some bytes →
          print_base_type L base out
          = Done tt (out +:+ base_type_text L (dwarf_diename L base) enctype
                               (wrap64 (bytes * 8)) (dwarf_dieoffset L base)))
       ∧ (∀ bits,
            dwarf_attr L base DW_AT_byte_size ≫= dwarf_formudata L = None →
            dwarf_attr L base DW_AT_bit_size ≫= dwarf_formudata L = Some bits →
            print_base_type L base out
            = Done tt (out +:+ base_type_text L (dwarf_diename L base) enctype
                                 bits (dwarf_dieoffset L base)))
       ∧ (dwarf_attr L base DW_AT_byte_size ≫= dwarf_formudata L = None →
          dwarf_attr L base DW_AT_bit_size ≫= dwarf_formudata L = None →
          print_base_type L base out
          = Fatal (Exit_failure "base type without byte or bit size") out)).
Proof.
  unfold print_base_type. split; [|split].
  - intros Htag. by rewrite decide_True.
  - intros Htag Henc. rewrite decide_False by (by intros ?).
    by rewrite Henc.
  - intros enctype Htag Henc. rewrite decide_False by (by intros ?).
    rewrite Henc. split; [|split].
    + intros bytes Hb. by rewrite Hb.
    + intros bits Hb Hbit. by rewrite Hb, Hbit.
    + intros Hb Hbit. by rewrite Hb, Hbit.
Qed.

(** X13: Type conversions.  With the operand zero a conversion erases the
    type: it is printed as [name[0]] and no DIE is looked up.  With
    another operand the referenced DIE is needed: without it the
    evaluation ends with an error, with a DIE at another offset in the
    unit an assertion fails, and else the base type is printed after the
    name. *)
Theorem print_expr_convert attr expr addr depth out :
  depth ≤ MAX_DEPTH →
  atom expr = DW_OP_convert ∨ atom expr = DW_OP_GNU_convert
  ∨ atom expr = DW_OP_reinterpret ∨ atom expr = DW_OP_GNU_reinterpret →
  let opname := dwarf_opcode_string L (atom expr) in
  (number expr = 0 →
   print_expr L g attr expr addr depth out
   = Done tt (out +:+ (opname +:+ "[" +:+ dec 0 +:+ "]")))
  ∧ (number expr ≠ 0 → dwarf_getlocation_die L attr expr = None →
     print_expr L g attr expr addr depth out
     = Fatal (Exit_failure ("dwarf_getlocation_die: " +:+ dwarf_errmsg L))
             out)
  ∧ (∀ type,
       number expr ≠ 0 → dwarf_getlocation_die L attr expr = Some type →
       print_expr L g attr expr addr depth out
       = if number expr =? dwarf_cuoffset L type
         then print_base_type L type (out +:+ opname)
         else Fatal (Assert_failed "expr->number == dwarf_cuoffset (&type)")
                    out).
Proof.
  intros Hle Hop opname. unfold opname.
  rewrite !print_expr_unfold. unfold print_expr_body.
  rewrite guard_passes by done.
  repeat split.
  - intros Hz.
    destruct Hop as [Hop|[Hop|[Hop|Hop]]]; rewrite Hop; rewrite <- ?Hop;
      rewrite Hz; reflexivity.
  - intros Hnz Hdie. apply Z.eqb_neq in Hnz.
    destruct Hop as [Hop|[Hop|[Hop|Hop]]]; rewrite Hop; rewrite <- ?Hop;
      by rewrite Hnz, Hdie.
  - intros type Hnz Hdie. apply Z.eqb_neq in Hnz.
    destruct Hop as [Hop|[Hop|[Hop|Hop]]]; rewrite Hop; rewrite <- ?Hop;
      rewrite Hnz, Hdie; cbn [negb or_error]; unfold pbind at 1; cbn [pret];
      unfold pbind at 1, assert;
      by destruct (number expr =? dwarf_cuoffset L type).
Qed.

(** X14: A formal-parameter reference.  The operation needs the referenced
    DIE; it prints the offset of the DIE, then checks it: a DIE at
    another offset in the unit fails an assertion, a DIE that is no formal
    parameter ends the evaluation with an error. *)
Theorem print_expr_parameter_ref attr expr addr depth out :
  depth ≤ MAX_DEPTH → atom expr = DW_OP_GNU_parameter_ref →
  let opname := dwarf_opcode_string L DW_OP_GNU_parameter_ref in
  (dwarf_getlocation_die L attr expr = None →
   print_expr L g attr expr addr depth out
   = Fatal (Exit_failure ("dwarf_getlocation_die: " +:+ dwarf_errmsg L)) out)
  ∧ (∀ param,
       dwarf_getlocation_die L attr expr = Some param →
       let out1 := out +:+ (opname +:+ "["
                            +:+ hex (dwarf_dieoffset L param) +:+ "]") in
       print_expr L g attr expr addr depth out
       = if negb (number expr =? dwarf_cuoffset L param)
         then Fatal (Assert_failed "expr->number == dwarf_cuoffset (&param)")
                    out1
         else if decide (dwarf_tag L param = DW_TAG_formal_parameter)
         then Done tt out1
         else Fatal (Exit_failure "Not a formal parameter") out1).
Proof.
  intros Hle Hop opname. rewrite !print_expr_unfold. unfold print_expr_body.
  rewrite guard_passes, Hop by done. split.
  - by intros ->.
  - intros param Hdie. rewrite Hdie. cbn [or_error].
    unfold pbind at 1. cbn [pret]. unfold pbind at 1. cbn [printf].
    unfold pbind at 1, assert.
    destruct (number expr =? dwarf_cuoffset L param); cbn [negb]; [|done].
    destruct (decide (dwarf_tag L param = DW_TAG_formal_parameter)) as [Ht|Ht].
    + by rewrite decide_False by (by intros ?).
    + by rewrite decide_True.
Qed.

(** X15: A reference to a DIE with a constant value.  For an implicit pointer
    or a variable value whose referenced attribute is a
    [DW_AT_const_value], "<constant value>" is printed and the location
    lists are not consulted: the result is the same whatever
    [dwarf_getlocation_addr] would return. *)
Theorem print_expr_reference_constant a expr addr depth out attrval impl_die :
  depth ≤ MAX_DEPTH →
  (atom expr = DW_OP_GNU_variable_value
   ∨ (atom expr = DW_OP_implicit_pointer
      ∨ atom expr = DW_OP_GNU_implicit_pointer)
     ∧ dwarf_getlocation_implicit_pointer L (Some a) expr = Some attrval) →
  dwarf_getlocation_attr L (Some a) expr = Some attrval →
  dwarf_getlocation_die L (Some a) expr = Some impl_die →
  dwarf_whatattr attrval = DW_AT_const_value →
  print_expr L g (Some a) expr addr depth out
  = Done tt ((out +:+ reference_header L expr impl_die)
             +:+ "<constant value>").
Proof.
  intros Hle Hop Ha Hd Hc.
  rewrite (print_expr_reference L g a expr addr depth out attrval impl_die)
    by done.
  unfold print_referenced_location. by rewrite decide_True.
Qed.

(** X16: The canonical frame address with a frame.  When a call-frame table
    has a frame for the address (the exception-handling table is asked
    first, at the address plus its bias), the operations of its CFA are
    printed as a block one level deeper, without source attribute and at
    address 0; a CFA without operations is an error.  So an
    attribute-relative operation in the CFA ends the evaluation with
    "<name> used in CFI". *)
Theorem print_expr_call_frame_cfa_frame a expr addr depth out frame :
  depth ≤ MAX_DEPTH → atom expr = DW_OP_call_frame_cfa →
  bool_decide (cfi_eh g = None) && bool_decide (cfi_debug g = None)
  && negb (is_debug g) = false →
  match dwarf_cfi_addrframe L (cfi_eh g) (wrap64 (addr + cfi_eh_bias g)) with
  | Some f => Some f
  | None => dwarf_cfi_addrframe L (cfi_debug g)
              (wrap64 (addr + cfi_debug_bias g))
  end = Some frame →
  let out1 := out +:+ (dwarf_opcode_string L DW_OP_call_frame_cfa +:+ " ") in
  (dwarf_frame_cfa L frame = Some [] →
   print_expr L g (Some a) expr addr depth out
   = Fatal (Exit_failure "dwarf_frame_cfa no ops") out1)
  ∧ (∀ op ops,
       dwarf_frame_cfa L frame = Some (op :: ops) →
       print_expr L g (Some a) expr addr depth out
       = print_expr_block L g None (op :: ops) 0 (depth + 1) out1)
  ∧ (∀ op ops,
       dwarf_frame_cfa L frame = Some (op :: ops) →
       depth + 1 ≤ MAX_DEPTH → attribute_relative (atom op) = true →
       print_expr L g (Some a) expr addr depth out
       = Fatal (Exit_failure (dwarf_opcode_string L (atom op)
                              +:+ " used in CFI"))
               (out1 +:+ "{")).
Proof.
  intros Hle Hop Hguard Hframe out1.
  assert (∀ ops, dwarf_frame_cfa L frame = Some ops →
            print_expr L g (Some a) expr addr depth out
            = ((if (length ops <? 1)%nat
                then error "dwarf_frame_cfa no ops" else pret tt);;
               print_expr_block L g None ops 0 (depth + 1)) out1) as Hrun.
  { intros ops Hops. rewrite print_expr_unfold. unfold print_expr_body.
    rewrite guard_passes, Hop by done.
    unfold pbind at 1. cbn [pret]. unfold pbind at 1. cbn [printf].
    fold out1. rewrite Hguard. unfold pbind at 1. cbn [pret].
    rewrite Hframe, Hops. cbn [or_error]. by unfold pbind at 1. }
  repeat split.
  - intros Hops. by rewrite (Hrun _ Hops).
  - intros op ops Hops. by rewrite (Hrun _ Hops).
  - intros op ops Hops Hle' Hrel. rewrite (Hrun _ Hops). cbn [length].
    unfold pbind at 1. cbn [Nat.ltb Nat.leb pret].
    unfold print_expr_block, print_expr_block_with.
    unfold pbind at 1. cbn [printf]. unfold pbind at 1. cbn [print_ops].
    unfold pbind at 1.
    by rewrite (used_in_CFI_run op 0 (depth + 1) _ Hle' Hrel).
Qed.

End Operations.

(** *** The printer on the examples, again *)

Lemma depth_0 : 0 ≤ MAX_DEPTH.
Proof. unfold MAX_DEPTH. lia. Defined.

Lemma print_expr_used_in_CFI_witness :
  print_expr plain_libdw executable_globals None
    (mkOp DW_OP_fbreg 8 0 0) 0x10 0 "{"
  = Fatal (Exit_failure "fbreg used in CFI") "{".
Proof.
  apply (print_expr_used_in_CFI plain_libdw executable_globals
           (mkOp DW_OP_fbreg 8 0 0) 0x10 0 "{" depth_0 eq_refl).
Defined.

Lemma print_expr_operands_only_witness :
  print_expr plain_libdw executable_globals None
    (mkOp DW_OP_bregx 7 (2 ^ 64 - 16) 0) 0x10 0 ""
  = Done tt "op(7,-16)".
Proof.
  apply (print_expr_operands_only plain_libdw executable_globals None
           (mkOp DW_OP_bregx 7 (2 ^ 64 - 16) 0) 0x10 0 "" "op(7,-16)"
           depth_0 eq_refl).
Defined.

Lemma print_expr_signed_operand_witness :
  ∃ z, - 2 ^ 63 ≤ z < 2 ^ 63
       ∧ (z - (2 ^ 64 - 1)) mod 2 ^ 64 = 0
       ∧ (0 ≤ 2 ^ 64 - 1 < 2 ^ 63 → z = 2 ^ 64 - 1)
       ∧ print_expr plain_libdw executable_globals None
           (mkOp (DW_OP_breg 6) (2 ^ 64 - 1) 0 0) 0x10 0 ""
         = Done tt ("" +:+ ("breg" +:+ "(" +:+ dec z +:+ ")")).
Proof.
  apply (print_expr_signed_operand plain_libdw executable_globals None
           (mkOp (DW_OP_breg 6) (2 ^ 64 - 1) 0 0) 0x10 0 "" depth_0 eq_refl).
Defined.

Lemma print_expr_block_shape_witness :
  print_expr_block plain_libdw executable_globals None
    [mkOp (DW_OP_breg 7) 8 0 0; mkOp DW_OP_nop 0 0 0] 0 1 "cfa "
  = Done tt "cfa {breg(8), nop}"
  ∧ print_expr_block plain_libdw executable_globals None
      [mkOp (DW_OP_breg 7) 8 0 0; mkOp DW_OP_fbreg 8 0 0;
       mkOp DW_OP_nop 0 0 0] 0 1 "cfa "
    = Fatal (Exit_failure "fbreg used in CFI") "cfa {breg(8), ".
Proof.
  destruct (print_expr_block_shape plain_libdw executable_globals None 0 1
              "cfa ") as [Hdone Hfail].
  split.
  - apply (Hdone [mkOp (DW_OP_breg 7) 8 0 0; mkOp DW_OP_nop 0 0 0]
             ["breg(8)"; "nop"]).
    by repeat constructor.
  - apply (Hfail [mkOp (DW_OP_breg 7) 8 0 0] ["breg(8)"]
             (mkOp DW_OP_fbreg 8 0 0) (Exit_failure "fbreg used in CFI") ""
             [mkOp DW_OP_nop 0 0 0]).
    + by repeat constructor.
    + reflexivity.
Defined.

Lemma print_base_type_decoding_witness :
  print_base_type typed_libdw (mkDie 1) "convert"
  = Done tt "convert{int,signed,32@[1]}"
  ∧ print_base_type typed_libdw (mkDie 3) ""
    = Fatal (Exit_failure "base type without byte or bit size") ""
  ∧ print_base_type typed_libdw (mkDie 2) ""
    = Fatal (Exit_failure "not a base type") "".
Proof.
  split; [|split].
  - apply (proj1 (proj2 (proj2 (print_base_type_decoding typed_libdw
                                  (mkDie 1) "convert")) 5 eq_refl eq_refl)
             4 eq_refl).
  - apply (proj2 (proj2 (proj2 (proj2 (print_base_type_decoding typed_libdw
                                         (mkDie 3) "")) 5 eq_refl eq_refl))
             eq_refl eq_refl).
  - apply (proj1 (print_base_type_decoding typed_libdw (mkDie 2) "")).
    discriminate.
Defined.

Lemma print_expr_convert_witness :
  print_expr typed_libdw executable_globals None
    (mkOp DW_OP_convert 0 0 0) 0x10 0 ""
  = Done tt "op[0]"
  ∧ print_expr typed_libdw executable_globals None
      (mkOp DW_OP_convert 1 0 0) 0x10 0 ""
    = Done tt "op{int,signed,32@[1]}".
Proof.
  destruct (print_expr_convert typed_libdw executable_globals None
              (mkOp DW_OP_convert 0 0 0) 0x10 0 "" depth_0
              (or_introl eq_refl)) as (Hzero & _).
  destruct (print_expr_convert typed_libdw executable_globals None
              (mkOp DW_OP_convert 1 0 0) 0x10 0 "" depth_0
              (or_introl eq_refl)) as (_ & _ & Htype).
  split.
  - apply Hzero. reflexivity.
  - apply (Htype (mkDie 1)); [discriminate|reflexivity].
Defined.

Lemma print_expr_parameter_ref_witness :
  print_expr typed_libdw executable_globals None
    (mkOp DW_OP_GNU_parameter_ref 2 0 0) 0x10 0 ""
  = Done tt "op[2]"
  ∧ print_expr typed_libdw executable_globals None
      (mkOp DW_OP_GNU_parameter_ref 1 0 0) 0x10 0 ""
    = Fatal (Exit_failure "Not a formal parameter") "op[1]".
Proof.
  split.
  - apply (proj2 (print_expr_parameter_ref typed_libdw executable_globals
                    None (mkOp DW_OP_GNU_parameter_ref 2 0 0) 0x10 0 ""
                    depth_0 eq_refl) (mkDie 2) eq_refl).
  - apply (proj2 (print_expr_parameter_ref typed_libdw executable_globals
                    None (mkOp DW_OP_GNU_parameter_ref 1 0 0) 0x10 0 ""
                    depth_0 eq_refl) (mkDie 1) eq_refl).
Defined.

Lemma print_expr_reference_constant_witness :
  print_expr typed_libdw executable_globals
    (Some (mkAttr DW_AT_const_value 0x0b 42))
    (mkOp DW_OP_GNU_variable_value 2 0 0) 0x10 0 ""
  = Done tt "GNU_variable_value([2]) <constant value>".
Proof.
  apply (print_expr_reference_constant typed_libdw executable_globals
           (mkAttr DW_AT_const_value 0x0b 42)
           (mkOp DW_OP_GNU_variable_value 2 0 0) 0x10 0 ""
           (mkAttr DW_AT_const_value 0x0b 42) (mkDie 2)
           depth_0 (or_introl eq_refl) eq_refl eq_refl eq_refl).
Defined.

Lemma print_expr_call_frame_cfa_frame_witness :
  print_expr plain_libdw executable_globals (Some location_attr)
    (mkOp DW_OP_call_frame_cfa 0 0 0) 0x20 0 ""
  = print_expr_block plain_libdw executable_globals None
      [mkOp (DW_OP_breg 7) 8 0 0] 0 (0 + 1) "call_frame_cfa ".
Proof.
  apply (proj1 (proj2 (print_expr_call_frame_cfa_frame plain_libdw
                         executable_globals location_attr
                         (mkOp DW_OP_call_frame_cfa 0 0 0) 0x20 0 "" 7
                         depth_0 eq_refl eq_refl eq_refl))
           (mkOp (DW_OP_breg 7) 8 0 0) [] eq_refl).
Defined.

End VarlocsMore.

(** ** More facts: the walk over all DIEs *)

Module VarlocsWalkFacts.
Import Varlocs VarlocsNotions VarlocsMore VarlocsWalk.
Local Open Scope print_scope.

#[local] Arguments hex : simpl never.
#[local] Arguments dec : simpl never.
#[local] Arguments spaces : simpl never.
#[local] Arguments nl : simpl never.
#[local] Arguments attr_line : simpl never.
#[local] Arguments die_line : simpl never.

(** *** Induction over a DIE and what is below it *)

Lemma DieTree_children_ind (Q : DieTree → Prop) :
  (∀ die children, Forall Q children → Q (DieNode die children)) →
  ∀ node, Q node.
Proof.
  intros step. fix IH 1. intros [die children]. apply step.
  induction children as [|child rest IHrest]; constructor.
  - apply IH.
  - exact IHrest.
Qed.

(** *** The threaded globals against the scoped flag *)

Lemma agree_pbind {A : Type} (g : Globals) (m : P A) (k : A → P Globals)
    (k' : A → P unit) (out : string) :
  (∀ a out', agree g (k a out') (k' a out')) →
  agree g (pbind m k out) (pbind m k' out).
Proof.
  intros Hk. unfold pbind. destruct (m out) as [a out'|e out'].
  - apply Hk.
  - reflexivity.
Qed.

Lemma in_turn_agree (g : Globals) (each : DieTree → Globals → P Globals)
    (each' : DieTree → unit → P unit) (dies : list DieTree) :
  Forall (λ node, ∀ b out,
            agree g (each node (set_has_frame_base b g) out)
                    (each' node tt out)) dies →
  ∀ b out, agree g (in_turn each dies (set_has_frame_base b g) out)
                   (in_turn each' dies tt out).
Proof.
  induction 1 as [|node rest Hnode _ IH]; intros b out.
  - cbn. split; [reflexivity | by exists b].
  - cbn [in_turn]. unfold pbind. specialize (Hnode b out).
    destruct (each node (set_has_frame_base b g) out) as [g' out'|e out'];
      cbn in Hnode.
    + destruct Hnode as [-> [b' ->]]. apply IH.
    + rewrite Hnode. reflexivity.
Qed.

Section Scoping.

Variable L : Libdw.
Variable W : Libdw_walk.

Lemma handle_die_node_agree (g : Globals) (node : DieTree) :
  ∀ depth ofb opc b out,
    agree g (handle_die_node L W node depth ofb opc (set_has_frame_base b g)
               out)
            (walk_scoped_node L W g node depth ofb opc out).
Proof.
  induction node as [die children IH] using DieTree_children_ind.
  intros depth ofb opc b out.
  cbn [handle_die_node walk_scoped_node].
  change (set_has_frame_base (die_has_frame_base L die ofb)
            (set_has_frame_base b g))
    with (set_has_frame_base (die_has_frame_base L die ofb) g).
  apply agree_pbind; intros _ out1.
  apply agree_pbind; intros all out2.
  apply agree_pbind; intros _ out3.
  apply in_turn_agree.
  eapply Forall_impl; [exact IH|].
  intros child Hchild b' out'. apply Hchild.
Qed.

Lemma forget_agree (g : Globals) (r : Res Globals) (r' : Res unit) :
  agree g r r' → forget r = r'.
Proof. destruct r; cbn; [intros [-> _]|intros ->]; reflexivity. Qed.

(** X17: the global [has_frame_base] of [handle_die] acts as a flag of
    the scope.  Whatever the global holds when [handle_die] is called,
    the walk prints and fails as the walk that hands the flag down as a
    parameter and never stores it. *)
Theorem handle_die_frame_base_scoped (dies : list DieTree)
    (depth : Z) (outer_has_frame_base : bool) (outer_entrypc : Z)
    (g : Globals) (stale : bool) (out : string) :
  forget (handle_die L W dies depth outer_has_frame_base outer_entrypc
            (set_has_frame_base stale g) out)
  = walk_scoped L W g dies depth outer_has_frame_base outer_entrypc out.
Proof.
  apply (forget_agree g). unfold handle_die, walk_scoped.
  apply in_turn_agree. apply Forall_forall. intros node _ b out'.
  apply handle_die_node_agree.
Qed.

(** *** The attributes of a DIE *)

Lemma print_expr_block_after (g : Globals) attr exprs addr depth out :
  print_expr_block L g attr exprs addr depth out
  = after out (print_expr_block L g attr exprs addr depth "").
Proof.
  apply appends_print_expr_block_with. intros a e ad.
  apply appends_print_expr_fuel.
Qed.

Lemma print_expr_block_addrs_ends_line (g : Globals) attr begin end_ exprs
    out out' :
  print_expr_block_addrs L g attr begin end_ exprs out = Done tt out' →
  ∃ body, out' = (out +:+ body) +:+ nl.
Proof.
  unfold print_expr_block_addrs, pbind, printf.
  rewrite print_expr_block_after.
  destruct (print_expr_block L g attr exprs begin 0 "") as [[] o|e o]; cbn;
    [|discriminate].
  intros [= <-].
  exists (("      [" +:+ hex begin +:+ "," +:+ hex end_ +:+ ") ") +:+ o).
  by rewrite (string_app_assoc out).
Qed.

Lemma print_locations_ends_line (g : Globals) attr depth entries :
  ∀ printed out p out',
    print_locations L g attr depth entries printed out = Done p out' →
    (entries = [] ∧ p = printed ∧ out' = out)
    ∨ (p = true ∧ ∃ body, out' = (out +:+ body) +:+ nl).
Proof.
  induction entries as [|[[begin end_] expr] rest IH];
    intros printed out p out'.
  - cbn. intros [= <- <-]. by left.
  - cbn [print_locations]. unfold pbind at 1.
    set (out1 := (if negb printed then printf nl else pret tt) out).
    assert (∃ pre, out1 = Done tt (out +:+ pre)) as [pre ->].
    { unfold out1. destruct printed; cbn.
      - exists "". by rewrite string_app_empty_r.
      - by exists nl. }
    unfold pbind at 1. unfold printf at 1. unfold pbind at 1.
    destruct (print_expr_block_addrs L g (Some attr) begin end_ expr
                ((out +:+ pre) +:+ spaces (depth * 2)))
      as [[] out2|e out2] eqn:Haddrs; [|discriminate].
    apply print_expr_block_addrs_ends_line in Haddrs as [body ->].
    intros Hrest. right.
    apply IH in Hrest as [(_ & -> & ->)|[-> [body' ->]]].
    + split; [done|].
      exists (pre +:+ spaces (depth * 2) +:+ body).
      by rewrite !string_app_assoc.
    + split; [done|].
      exists (pre +:+ spaces (depth * 2) +:+ body +:+ nl +:+ body').
      by rewrite !string_app_assoc.
Qed.

(** X18: every attribute that [handle_attr] gets through leaves one
    finished line or more.  What was printed before stays, the name and
    the form of the attribute follow it, and the output ends with a
    newline, whether the attribute holds an expression, a location list
    or no location at all. *)
Theorem handle_attr_ends_line (g : Globals) (attr : Dwarf_Attribute)
    (depth entrypc : Z) (out out' : string) :
  handle_attr L W g attr depth entrypc out = Done DWARF_CB_OK out' →
  ∃ body, out' = (out +:+ attr_line W attr depth +:+ body) +:+ nl.
Proof.
  unfold handle_attr. unfold pbind at 1. unfold printf at 1.
  destruct (dwarf_getlocation L attr) as [expr|].
  - unfold pbind, printf. rewrite print_expr_block_after.
    destruct (print_expr_block L g (Some attr) expr entrypc 0 "")
      as [[] o|e o]; cbn; [|discriminate].
    intros [= <-]. exists (" " +:+ o). by rewrite !string_app_assoc.
  - destruct (dwarf_whatform attr =? DW_FORM_exprloc); [discriminate|].
    unfold pbind at 1.
    destruct (print_locations L g attr depth (dwarf_getlocations W attr).1
                false (out +:+ attr_line W attr depth))
      as [printed out1|e out1] eqn:Hlocs; [|discriminate].
    apply print_locations_ends_line in Hlocs
      as [(_ & -> & ->)|[-> [body ->]]]; cbn.
    + intros [= <-]. exists "". by rewrite !string_app_assoc.
    + intros [= <-]. exists body. by rewrite !string_app_assoc.
Qed.

Lemma dwarf_getattrs_app (callback : Dwarf_Attribute → P callback_result)
    (pre rest : list Dwarf_Attribute) (complete : bool) :
  ∀ out out1,
    dwarf_getattrs callback pre true out = Done true out1 →
    dwarf_getattrs callback (pre ++ rest) complete out
    = dwarf_getattrs callback rest complete out1.
Proof.
  induction pre as [|attr pre IH]; intros out out1.
  - cbn. by intros [= <-].
  - cbn [dwarf_getattrs app]. unfold pbind.
    destruct (callback attr out) as [[] out2|e out2]; try discriminate.
    apply IH.
Qed.

(** X19: one expression that cannot be read ends the whole walk.  When
    [dwarf_getlocation] fails on an attribute of the form
    [DW_FORM_exprloc], [handle_attr] prints the name and the form and
    aborts; [handle_die] then exits with a failure, so the attributes
    after it, the children of the DIE and its siblings are not
    printed. *)
Theorem handle_die_unreadable_exprloc (die : Dwarf_Die)
    (children siblings : list DieTree) (depth : Z)
    (outer_has_frame_base : bool) (outer_entrypc : Z) (g : Globals)
    (pre post : list Dwarf_Attribute) (attr : Dwarf_Attribute)
    (complete : bool) (out out1 : string) :
  die_attrs W die = (pre ++ attr :: post, complete) →
  dwarf_getlocation L attr = None →
  dwarf_whatform attr = DW_FORM_exprloc →
  dwarf_getattrs
    (λ a, handle_attr L W
            (set_has_frame_base
               (die_has_frame_base L die outer_has_frame_base) g)
            a (depth + 1) (die_entrypc W die outer_entrypc))
    pre true
    (if depth >? 0 then out +:+ die_line L W die depth else out)
  = Done true out1 →
  handle_die L W (DieNode die children :: siblings) depth
             outer_has_frame_base outer_entrypc g out
  = Fatal (Exit_failure ("Couldn't get all attributes: " +:+ dwarf_errmsg L))
          (out1 +:+ attr_line W attr (depth + 1)).
Proof.
  intros Hattrs Hloc Hform Hpre.
  unfold handle_die. cbn [in_turn handle_die_node].
  rewrite Hattrs. cbn [fst snd].
  unfold pbind at 1. unfold pbind at 1.
  assert ((if depth >? 0 then printf (die_line L W die depth) else pret tt)
            out
          = Done tt (if depth >? 0 then out +:+ die_line L W die depth
                     else out)) as ->.
  { by destruct (depth >? 0). }
  unfold pbind at 1.
  rewrite (dwarf_getattrs_app _ pre (attr :: post) complete _ out1 Hpre).
  cbn [dwarf_getattrs]. unfold pbind at 1.
  unfold handle_attr at 1. rewrite Hloc, Hform, Z.eqb_refl.
  reflexivity.
Qed.

(** *** The frame base in the walk that [main] starts *)

Lemma string_length_app (s1 s2 : string) :
  String.length (s1 +:+ s2) = (String.length s1 + String.length s2)%nat.
Proof.
  induction s1 as [|a s1 IH]; [done|].
  change (S (String.length (s1 +:+ s2))
          = S (String.length s1 + String.length s2)).
  by rewrite IH.
Qed.

Lemma used_in_CFI_message opname :
  opname +:+ " used in CFI" ≠ "DW_OP_fbreg used without a frame base".
Proof.
  intros H.
  pose proof (f_equal String.length H) as Hlen.
  rewrite string_length_app in Hlen. cbn in Hlen.
  pose proof (String.append_correct2 opname " used in CFI" 11) as Hget.
  rewrite H in Hget.
  replace (11 + String.length opname)%nat with 36%nat in Hget by lia.
  discriminate Hget.
Qed.

Ltac other_message :=
  let H := fresh in
  intros H;
  first [ discriminate H
        | cbn in H; discriminate H
        | by apply used_in_CFI_message in H ].

Lemma with_base_pret {A} (a : A) : never_lacks_frame_base (pret a).
Proof. by intros out out'. Qed.

Lemma with_base_printf s : never_lacks_frame_base (printf s).
Proof. by intros out out'. Qed.

Lemma with_base_error {A} msg :
  msg ≠ "DW_OP_fbreg used without a frame base" →
  never_lacks_frame_base (@error A msg).
Proof. intros Hmsg out out' [= H _]. by apply Hmsg. Qed.

Lemma with_base_assert b what : never_lacks_frame_base (assert b what).
Proof. intros out out'. unfold assert. by destruct b. Qed.

Lemma with_base_or_error {A} (x : option A) msg :
  msg ≠ "DW_OP_fbreg used without a frame base" →
  never_lacks_frame_base (or_error x msg).
Proof.
  intros Hmsg. destruct x; [apply with_base_pret|by apply with_base_error].
Qed.

Lemma with_base_pbind {A B} (m : P A) (k : A → P B) :
  never_lacks_frame_base m → (∀ a, never_lacks_frame_base (k a)) →
  never_lacks_frame_base (pbind m k).
Proof.
  intros Hm Hk out out'. unfold pbind.
  destruct (m out) as [a o|e o] eqn:Hrun; [apply Hk|].
  intros [= -> ->]. by apply (Hm out out').
Qed.

Lemma with_base_for_each {A} (l : list A) body :
  (∀ a, never_lacks_frame_base (body a)) →
  never_lacks_frame_base (for_each l body).
Proof.
  intros Hb. induction l as [|a l IH]; [apply with_base_pret|].
  cbn [for_each]. by apply with_base_pbind.
Qed.

Ltac with_base_step :=
  first [ apply with_base_pbind; [|intros ?]
        | apply with_base_or_error; other_message
        | apply with_base_error; other_message
        | apply with_base_printf
        | apply with_base_pret
        | apply with_base_assert
        | apply with_base_for_each; intros ? ].

Lemma with_base_print_base_type base :
  never_lacks_frame_base (print_base_type L base).
Proof.
  unfold print_base_type. repeat first [ with_base_step | case_match ].
Qed.

Lemma with_base_print_ops pe attr exprs addr depth :
  (∀ a e ad, never_lacks_frame_base (pe a e ad depth)) →
  never_lacks_frame_base (print_ops pe attr exprs addr depth).
Proof.
  intros Hpe. induction exprs as [|e rest IH]; [apply with_base_pret|].
  cbn [print_ops].
  apply with_base_pbind; [apply Hpe|intros _].
  apply with_base_pbind; [|intros _; apply IH].
  apply with_base_printf.
Qed.

Lemma with_base_print_expr_block_with pe attr exprs addr depth :
  (∀ a e ad, never_lacks_frame_base (pe a e ad depth)) →
  never_lacks_frame_base (print_expr_block_with pe attr exprs addr depth).
Proof.
  intros Hpe. unfold print_expr_block_with.
  apply with_base_pbind; [apply with_base_printf|intros _].
  apply with_base_pbind; [by apply with_base_print_ops|intros _].
  apply with_base_printf.
Qed.

Lemma with_base_print_expr_body (g : Globals) blk attr expr addr depth :
  has_frame_base g = true →
  (∀ a es ad, never_lacks_frame_base (blk a es ad (depth + 1))) →
  never_lacks_frame_base (print_expr_body L g blk attr expr addr depth).
Proof.
  intros Hg Hblk. unfold print_expr_body. rewrite Hg. cbn [negb].
  destruct (depth >? MAX_DEPTH); [apply with_base_error; other_message|].
  destruct (atom expr); unfold print_referenced_location;
    repeat first [ with_base_step | apply with_base_print_base_type
                 | apply Hblk | case_match ].
Qed.

Lemma with_base_print_expr_fuel (g : Globals) fuel :
  has_frame_base g = true →
  ∀ attr expr addr depth,
    never_lacks_frame_base (print_expr_fuel L g fuel attr expr addr depth).
Proof.
  intros Hg. induction fuel as [|fuel IH]; intros attr expr addr depth.
  - by intros out out'.
  - cbn [print_expr_fuel]. apply with_base_print_expr_body; [done|].
    intros a es ad. apply with_base_print_expr_block_with.
    intros a' e' ad'. apply IH.
Qed.

Lemma with_base_print_expr_block (g : Globals) attr exprs addr depth :
  has_frame_base g = true →
  never_lacks_frame_base (print_expr_block L g attr exprs addr depth).
Proof.
  intros Hg. apply with_base_print_expr_block_with. intros a e ad.
  by apply with_base_print_expr_fuel.
Qed.

Lemma with_base_print_locations (g : Globals) attr depth entries :
  has_frame_base g = true →
  ∀ printed,
    never_lacks_frame_base (print_locations L g attr depth entries printed).
Proof.
  intros Hg.
  induction entries as [|[[begin end_] expr] rest IH]; intros printed.
  - apply with_base_pret.
  - cbn [print_locations]. unfold print_expr_block_addrs.
    repeat first [ by apply with_base_print_expr_block | apply IH
                 | with_base_step | case_match ].
Qed.

Lemma with_base_handle_attr (g : Globals) attr depth entrypc :
  has_frame_base g = true →
  never_lacks_frame_base (handle_attr L W g attr depth entrypc).
Proof.
  intros Hg. unfold handle_attr.
  repeat first [ by apply with_base_print_expr_block
               | by apply with_base_print_locations
               | with_base_step | case_match ].
Qed.

Lemma with_base_dwarf_getattrs callback attrs complete :
  (∀ attr, never_lacks_frame_base (callback attr)) →
  never_lacks_frame_base (dwarf_getattrs callback attrs complete).
Proof.
  intros Hcb. induction attrs as [|attr rest IH]; [apply with_base_pret|].
  cbn [dwarf_getattrs]. apply with_base_pbind; [apply Hcb|].
  intros []; [apply IH|apply with_base_pret].
Qed.

Lemma with_base_in_turn {A S} (each : A → S → P S) (l : list A) :
  Forall (λ a, ∀ s, never_lacks_frame_base (each a s)) l →
  ∀ s, never_lacks_frame_base (in_turn each l s).
Proof.
  induction 1 as [|a rest Ha _ IH]; intros s; [apply with_base_pret|].
  cbn [in_turn]. apply with_base_pbind; [apply Ha|apply IH].
Qed.

Lemma with_base_handle_die_node (node : DieTree) :
  ∀ depth opc g,
    never_lacks_frame_base (handle_die_node L W node depth true opc g).
Proof.
  induction node as [die children IH] using DieTree_children_ind.
  intros depth opc g. cbn [handle_die_node].
  unfold die_has_frame_base. rewrite orb_true_r.
  apply with_base_pbind; [case_match; with_base_step|intros _].
  apply with_base_pbind.
  { apply with_base_dwarf_getattrs. intros attr.
    by apply with_base_handle_attr. }
  intros all. apply with_base_pbind.
  { destruct all; cbn [negb]; with_base_step. }
  intros _. apply with_base_in_turn.
  eapply Forall_impl; [exact IH|]. intros child Hchild s. apply Hchild.
Qed.

(** X20: the walk that [main] starts for [--exprlocs] never stops for
    lack of a frame base.  [main] passes [true] for
    [outer_has_frame_base], every DIE hands the flag down, and so no
    [DW_OP_fbreg] in any attribute of any DIE makes [print_expr] exit
    with its complaint, whether or not a [DW_AT_frame_base] is
    around. *)
Theorem handle_die_never_lacks_frame_base (dies : list DieTree)
    (depth outer_entrypc : Z) (g : Globals) (out out' : string) :
  handle_die L W dies depth true outer_entrypc g out
  ≠ Fatal no_frame_base out'.
Proof.
  unfold handle_die. apply with_base_in_turn.
  apply Forall_forall. intros node _ s. apply with_base_handle_die_node.
Qed.

(** *** The variables of a function *)

Lemma scopes_have_frame_base_take (scopes : list Dwarf_Die) (n : nat) :
  (n ≤ length scopes)%nat →
  scopes_have_frame_base L scopes n
  = existsb (λ scope, bool_decide (dwarf_tag L scope = DW_TAG_subprogram)
                      && dwarf_hasattr L scope DW_AT_frame_base)
            (take n scopes).
Proof.
  induction n as [|n IH]; intros Hn; [by rewrite take_0|].
  cbn [scopes_have_frame_base].
  destruct (lookup_lt_is_Some_2 scopes n) as [scope Hscope]; [lia|].
  rewrite Hscope, (take_S_r _ _ _ Hscope), existsb_app. cbn [existsb].
  rewrite orb_false_r, IH by lia.
  destruct (bool_decide _ && dwarf_hasattr L scope DW_AT_frame_base);
    [by rewrite orb_true_r|by rewrite orb_false_r].
Qed.

Lemma print_frame_base_flag (funcdie : Dwarf_Die) (g : Globals)
    (out : string) (g1 : Globals) (out1 : string) :
  print_frame_base L W funcdie g out = Done g1 out1 →
  g1 = set_has_frame_base
         (dwarf_hasattr L funcdie DW_AT_frame_base
          || bool_decide (dwarf_tag L funcdie = DW_TAG_inlined_subroutine)
             && existsb
                  (λ scope,
                     bool_decide (dwarf_tag L scope = DW_TAG_subprogram)
                     && dwarf_hasattr L scope DW_AT_frame_base)
                  (default [] (dwarf_getscopes_die W funcdie))) g.
Proof.
  unfold print_frame_base. cbn [has_frame_base set_has_frame_base].
  destruct (dwarf_hasattr L funcdie DW_AT_frame_base) eqn:Hfb; cbn [orb].
  - unfold pbind at 1.
    destruct (or_error (dwarf_attr L funcdie DW_AT_frame_base) _ out)
      as [fb_attr o|]; [|discriminate].
    destruct (dwarf_getlocation L fb_attr).
    + unfold pbind.
      repeat (case_match; try discriminate); by intros [= <- _].
    + unfold pbind.
      repeat (case_match; try discriminate); by intros [= <- _].
  - destruct (bool_decide (dwarf_tag L funcdie = DW_TAG_inlined_subroutine));
      cbn [andb]; [|by intros [= <- _]].
    destruct (dwarf_getscopes_die W funcdie) as [[|scope scopes]|];
      try discriminate.
    cbv zeta. rewrite (scopes_have_frame_base_take (scope :: scopes)) by lia.
    rewrite firstn_all. cbn [default]. unfold id.
    destruct (existsb _ (scope :: scopes)); by intros [= <- _].
Qed.

(** X21: the frame-base flag that [print_varlocs] leaves, and under which
    it prints the variables.  It is set when the function has a
    [DW_AT_frame_base], or when the function is an inlined subroutine
    and one of the scopes around it is a subprogram with a
    [DW_AT_frame_base]; nothing else of the globals changes. *)
Theorem print_varlocs_frame_base (funcdie : Dwarf_Die) (g : Globals)
    (out : string) (g' : Globals) (out' : string) :
  print_varlocs L W funcdie g out = Done g' out' →
  g' = set_has_frame_base
         (dwarf_hasattr L funcdie DW_AT_frame_base
          || bool_decide (dwarf_tag L funcdie = DW_TAG_inlined_subroutine)
             && existsb
                  (λ scope,
                     bool_decide (dwarf_tag L scope = DW_TAG_subprogram)
                     && dwarf_hasattr L scope DW_AT_frame_base)
                  (default [] (dwarf_getscopes_die W funcdie))) g.
Proof.
  unfold print_varlocs. unfold pbind at 1.
  destruct (print_frame_base L W funcdie g out) as [g1 out1|] eqn:Hfb;
    [|discriminate].
  apply print_frame_base_flag in Hfb as <-.
  destruct (dwarf_haschildren W funcdie); cbn [negb].
  - unfold pbind. repeat (case_match; try discriminate); by intros [= <- _].
  - by intros [= <- _].
Qed.

Lemma for_each_done {A} (l : list A) (body : A → P unit) :
  ∀ out out',
    for_each l body out = Done tt out' →
    Forall (λ a, ∃ o o', body a o = Done tt o') l.
Proof.
  induction l as [|a l IH]; intros out out'; [by constructor|].
  cbn [for_each]. unfold pbind.
  destruct (body a out) as [[] o|] eqn:Hbody; [|discriminate].
  intros Hrest. constructor; [by exists out, o|by apply (IH o out')].
Qed.

(** X22: a location list that [print_varlocs] gets through has passed the
    extra sanity check.  When the list of a variable is printed without
    a failure, [dwarf_getlocations] came to the end of the list, and for
    every range of it that is not empty [dwarf_getlocation_addr] found
    exactly one location at its first and at its last address. *)
Theorem print_location_list_checked (g : Globals) (attr : Dwarf_Attribute)
    (out out' : string) :
  print_location_list L W g attr out = Done tt out' →
  (dwarf_getlocations W attr).2 = true
  ∧ Forall (λ '(begin, end_, _),
              begin < end_ →
              (dwarf_getlocation_addr L attr begin).1 = 1
              ∧ (dwarf_getlocation_addr L attr (end_ - 1)).1 = 1)
           (dwarf_getlocations W attr).1.
Proof.
  unfold print_location_list. unfold pbind at 1.
  destruct (for_each _ _ out) as [[] out1|] eqn:Hloop; [|discriminate].
  intros Hend. split.
  - by destruct ((dwarf_getlocations W attr).2).
  - apply for_each_done in Hloop.
    eapply Forall_impl; [exact Hloop|].
    intros [[begin end_] expr] (o & o' & Hbody) Hlt.
    destruct (end_ <=? begin) eqn:Hcmp; [lia|].
    unfold pbind, assert in Hbody.
    destruct (print_expr_block_addrs L g (Some attr) begin end_ expr o);
      [|discriminate].
    destruct ((dwarf_getlocation_addr L attr begin).1 =? 1) eqn:H1;
      [|discriminate].
    destruct ((dwarf_getlocation_addr L attr (end_ - 1)).1 =? 1) eqn:H2;
      [|discriminate].
    lia.
Qed.

(** X23: no function prints its variables under the frame-base flag of
    the function before it.  Whatever [has_frame_base] holds when
    [handle_function] is called, the function, or each of its inlined
    instances, is printed in the same way and fails in the same way. *)
Theorem handle_function_fresh_frame_base (funcdie : Dwarf_Die)
    (g : Globals) (stale : bool) (out : string) :
  forget (handle_function L W funcdie (set_has_frame_base stale g) out)
  = forget (handle_function L W funcdie g out).
Proof.
  unfold handle_function.
  destruct (0 <? dwarf_func_inline W funcdie).
  - destruct (dwarf_func_inline_instances W funcdie).1 as [|inst rest];
      cbn [in_turn]; unfold pbind; cbn.
    + by destruct (negb _).
    + reflexivity.
  - by destruct (dwarf_entrypc W funcdie).
Qed.

End Scoping.

(** *** The walk on the examples *)

Lemma handle_attr_ends_line_witness :
  ∃ body,
    "  location (form)
        [10,20) {nop}
" = ("" +:+ attr_line example_walk (walk_attr 1) 1 +:+ body) +:+ nl.
Proof.
  apply (handle_attr_ends_line walk_libdw example_walk walk_globals
           (walk_attr 1) 1 0x10 "").
  reflexivity.
Defined.

Lemma handle_die_unreadable_exprloc_witness :
  handle_die walk_libdw example_walk
    [DieNode (mkDie 6) [DieNode (mkDie 3) []]; DieNode (mkDie 4) []]
    1 false 0 walk_globals ""
  = Fatal (Exit_failure "Couldn't get all attributes: invalid DWARF")
          "  [6] variable
    attr (form)
    location (exprloc)".
Proof.
  exact (handle_die_unreadable_exprloc walk_libdw example_walk (mkDie 6)
           [DieNode (mkDie 3) []] [DieNode (mkDie 4) []] 1 false 0
           walk_globals [walk_attr 3] [walk_attr 0] (walk_attr 2) true ""
           "  [6] variable
    attr (form)
" eq_refl eq_refl eq_refl eq_refl).
Defined.

Lemma print_varlocs_frame_base_witness :
  example_globals None None false false true
  = set_has_frame_base
      (dwarf_hasattr walk_libdw (mkDie 5) DW_AT_frame_base
       || bool_decide (dwarf_tag walk_libdw (mkDie 5)
                       = DW_TAG_inlined_subroutine)
          && existsb
               (λ scope,
                  bool_decide (dwarf_tag walk_libdw scope = DW_TAG_subprogram)
                  && dwarf_hasattr walk_libdw scope DW_AT_frame_base)
               (default [] (dwarf_getscopes_die example_walk (mkDie 5))))
      walk_globals.
Proof.
  apply (print_varlocs_frame_base walk_libdw example_walk (mkDie 5)
           walk_globals "" _ "").
  reflexivity.
Defined.

Lemma print_location_list_checked_witness :
  (dwarf_getlocations example_walk (walk_attr 1)).2 = true
  ∧ Forall (λ '(begin, end_, _),
              begin < end_ →
              (dwarf_getlocation_addr walk_libdw (walk_attr 1) begin).1 = 1
              ∧ (dwarf_getlocation_addr walk_libdw (walk_attr 1)
                   (end_ - 1)).1 = 1)
           (dwarf_getlocations example_walk (walk_attr 1)).1.
Proof.
  apply (print_location_list_checked walk_libdw example_walk walk_globals
           (walk_attr 1) "" "      [10,20) {nop}
").
  reflexivity.
Defined.

End VarlocsWalkFacts.

(** ** More facts: the listing of the macros *)

Module GetmacrosFacts.
Import Getmacros.
Local Open Scope macro_scope.

#[local] Arguments indent : simpl never.
#[local] Arguments hex_alt : simpl never.
#[local] Arguments newline : simpl never.

Section Listing.

Variable M : Libdw_macros.

(** *** The level *)

Lemma each_macro_level (callback : Z → Z → Run Z) (count : Z → Z)
    (l : list Z) :
  (∀ m level out level' out',
     callback m level out = Returned level' out' →
     level' = level + count m) →
  ∀ level out level' out',
    each_macro callback l level out = Returned level' out' →
    level' = level + foldr (λ m n, count m + n) 0 l.
Proof.
  intros Hcb. induction l as [|m rest IH]; intros level out level' out'.
  - cbn. intros [= <- _]. lia.
  - cbn [each_macro foldr]. unfold run_bind.
    destruct (callback m level out) as [level1 out1| |] eqn:Hmac;
      [|discriminate..].
    intros Hrest. apply Hcb in Hmac. apply IH in Hrest. lia.
Qed.

Lemma mac_level (nesting : nat) :
  ∀ macro level out level' out',
    mac M nesting macro level out = Returned level' out' →
    level' = level + opened_files M nesting macro.
Proof.
  induction nesting as [|nesting IH]; intros macro level out level' out';
    cbn [mac opened_files]; unfold import_offset;
    destruct (dwarf_macro_opcode M macro);
    unfold include_with, run_bind, asserted, assigned, print, puts, run_ret;
    cbn [mbind option_bind];
    repeat (case_match; try discriminate);
    try (intros [= <- _]; lia).
  all: intros [= <- _];
    match goal with
    | H : each_macro _ _ _ _ = Returned _ _ |- _ =>
        apply (each_macro_level _ _ _ IH) in H
    end;
    simplify_eq/=; lia.
Qed.

(** *** More nesting *)

Lemma run_bind_more {A B} (m m' : Run A) (k k' : A → Run B) :
  (∀ out a out', m out = Returned a out' → m' out = Returned a out') →
  (∀ a out b out', k a out = Returned b out' → k' a out = Returned b out') →
  ∀ out b out',
    run_bind m k out = Returned b out' → run_bind m' k' out = Returned b out'.
Proof.
  intros Hm Hk out b out'. unfold run_bind.
  destruct (m out) as [a out1| |] eqn:Hrun; [|discriminate..].
  rewrite (Hm _ _ _ Hrun). apply Hk.
Qed.

Lemma each_macro_more (callback callback' : Z → Z → Run Z) (l : list Z) :
  (∀ m level out level' out',
     callback m level out = Returned level' out' →
     callback' m level out = Returned level' out') →
  ∀ level out level' out',
    each_macro callback l level out = Returned level' out' →
    each_macro callback' l level out = Returned level' out'.
Proof.
  intros Hcb. induction l as [|m rest IH]; intros level out level' out'.
  - done.
  - cbn [each_macro]. apply run_bind_more; [apply Hcb|].
    intros a out1 b out2. apply IH.
Qed.

Lemma include_with_more (callback callback' : Z → Z → Run Z)
    (macoff : Z) :
  (∀ m level out level' out',
     callback m level out = Returned level' out' →
     callback' m level out = Returned level' out') →
  ∀ level out level' out',
    include_with M callback macoff level out = Returned level' out' →
    include_with M callback' macoff level out = Returned level' out'.
Proof.
  intros Hcb level out level' out'. unfold include_with.
  apply run_bind_more; [|done].
  intros out1 a out2. by apply each_macro_more.
Qed.

Lemma mac_import (nesting : nat) (macro level : Z) :
  dwarf_macro_opcode M macro = DW_MACRO_import →
  mac M (S nesting) macro level
  = (let* at_ := asserted (dwarf_macro_param M macro) "r == 0" in
     let* w := asserted (dwarf_formudata M at_) "r == 0" in
     print (indent level +:+ "include " +:+ hex_alt w +:+ newline);;
     let* level' := include_with M (mac M nesting) w (level + 1) in
     print (indent (level' - 1) +:+ "/include" +:+ newline);;
     run_ret (level' - 1)).
Proof. intros Hop. cbn [mac]. by rewrite Hop. Qed.

Lemma mac_not_import (nesting : nat) (macro level : Z) :
  dwarf_macro_opcode M macro ≠ DW_MACRO_import →
  mac M nesting macro level = mac M 0 macro level.
Proof.
  intros Hop. destruct nesting; cbn [mac]; [done|].
  by destruct (dwarf_macro_opcode M macro).
Qed.

Lemma mac_more (nesting : nat) :
  ∀ macro level out level' out',
    mac M nesting macro level out = Returned level' out' →
    mac M (S nesting) macro level out = Returned level' out'.
Proof.
  induction nesting as [|nesting IH]; intros macro level out level' out';
    (assert (dwarf_macro_opcode M macro = DW_MACRO_import
             ∨ dwarf_macro_opcode M macro ≠ DW_MACRO_import) as [Hop|Hop]
       by (destruct (dwarf_macro_opcode M macro); by (left + right)));
    try (by rewrite (mac_not_import (S _)) by done;
            try rewrite (mac_not_import (S _)) by done).
  - cbn [mac]. rewrite Hop.
    unfold run_bind, asserted, print, run_ret.
    repeat (case_match; try discriminate).
  - rewrite !mac_import by done.
    apply run_bind_more; [done|]. intros at_ out1 b1 out1'.
    apply run_bind_more; [done|]. intros w out2 b2 out2'.
    apply run_bind_more; [done|]. intros [] out3 b3 out3'.
    apply run_bind_more; [|done]. intros out4 a out4'.
    by apply include_with_more.
Qed.

Lemma mac_more_le (nesting nesting' : nat) macro level out level' out' :
  (nesting ≤ nesting')%nat →
  mac M nesting macro level out = Returned level' out' →
  mac M nesting' macro level out = Returned level' out'.
Proof.
  induction 1 as [|n Hle IH]; [done|]. intros H. by apply mac_more, IH.
Qed.

(** X24: the level of [mac] counts the files that are open.  When
    [getmacros] returns, the static [level] has grown by the number of
    the macros that start a file less the number of those that end one,
    counted through all imports; an import by itself leaves the level
    as it was, also when the imported macros stop at an error.  A run
    that returns within some bound on the nesting of the imports
    returns the same within every larger bound, and the count is that
    of the larger bound as well. *)
Theorem getmacros_level (nesting : nat) (die : Z) (new_style : bool)
    (level : Z) (out : string) (level' : Z) (out' : string) :
  getmacros M nesting die new_style level out = Returned level' out' →
  ∀ nesting', (nesting ≤ nesting')%nat →
    getmacros M nesting' die new_style level out = Returned level' out'
    ∧ level' = level + opened_in M nesting' (dwarf_getmacros M die new_style).1.
Proof.
  intros Hrun nesting' Hle.
  assert (getmacros M nesting' die new_style level out = Returned level' out')
    as Hrun'.
  { revert Hrun. unfold getmacros. apply run_bind_more; [|done].
    intros out1 a out2. apply each_macro_more.
    intros m l o l' o'. by apply mac_more_le. }
  split; [done|]. clear Hrun. revert Hrun'.
  unfold getmacros, run_bind.
  destruct (each_macro (mac M nesting') _ level out)
    as [level1 out1| |] eqn:Hloop; [|discriminate..].
  apply (each_macro_level _ _ _ (mac_level nesting')) in Hloop.
  subst level1. unfold opened_in.
  by destruct (negb _); intros [= <- _].
Qed.

(** *** Imports that go round in a circle *)

Lemma string_app_assoc' (s1 s2 s3 : string) :
  (s1 +:+ s2) +:+ s3 = s1 +:+ (s2 +:+ s3).
Proof.
  induction s1 as [|a s1 IH]; [done|].
  change (String a ((s1 +:+ s2) +:+ s3) = String a (s1 +:+ (s2 +:+ s3))).
  by rewrite IH.
Qed.

(** X25: an import that goes round in a circle is never listed to the
    end.  When the first of the macros at an offset is an import of
    that offset, [mac] on it prints the line of the import, calls
    [include], which calls [mac] on it one level deeper, and so on:
    within no bound on the nesting does the run return, and what it has
    printed at the bound is one line per nested import. *)
Theorem mac_circular_import (macro w : Z) (rest : list Z) (ends : bool) :
  dwarf_macro_opcode M macro = DW_MACRO_import →
  import_offset M macro = Some w →
  dwarf_getmacros_off M w = (macro :: rest, ends) →
  ∀ nesting level out,
    mac M nesting macro level out
    = Unfinished (out +:+ include_lines w level (S nesting)).
Proof.
  intros Hop Hw Hoff. unfold import_offset in Hw.
  destruct (dwarf_macro_param M macro) as [at_|] eqn:Hparam; [|done].
  cbn in Hw.
  induction nesting as [|nesting IH]; intros level out;
    cbn [mac]; rewrite Hop, Hparam; cbn [asserted];
    unfold run_bind at 1; unfold run_ret at 1; rewrite Hw; cbn [asserted];
    unfold run_bind at 1; unfold run_ret at 1;
    unfold run_bind at 1; unfold print at 1; unfold run_bind at 1.
  - done.
  - unfold include_with. rewrite Hoff. cbn [fst each_macro].
    unfold run_bind at 1. unfold run_bind at 1. rewrite IH.
    cbn [include_lines]. f_equal.
    by rewrite !string_app_assoc'.
Qed.

End Listing.

(** *** The listing on the examples *)

Lemma getmacros_level_witness :
  getmacros example_macros 2 0 true 0 ""
  = Returned 1 "file a.c
 include 0x20
  file a.c
   A 1
invalid DWARF
  /include
  A 1
 /file
 opcode 224 with 2 arguments
"
  ∧ 1 = 0 + opened_in example_macros 2
              (dwarf_getmacros example_macros 0 true).1.
Proof.
  apply (getmacros_level example_macros 1 0 true 0 "" 1).
  - reflexivity.
  - lia.
Defined.

Lemma mac_circular_import_witness :
  mac example_macros 2 7 0 "A 1
"
  = Unfinished ("A 1
" +:+ include_lines 0x40 0 3).
Proof.
  apply (mac_circular_import example_macros 7 0x40 [1] true);
    reflexivity.
Defined.

(** The listing of a unit whose second macro imports itself, followed
    through two nested imports. *)
Example circular_listing :
  getmacros example_macros 2 2 true 0 ""
  = Unfinished "A 1
include 0x40
 include 0x40
  include 0x40
".
Proof. vm_compute. reflexivity. Qed.

End GetmacrosFacts.
